(** * Reconciliation core of the order-ingestion pipeline

    A shallow embedding of [scripts/models.py], [scripts/process_data.py] and
    the three adapters ([scripts/toast_transformer.py],
    [scripts/doordash_transformer.py], [scripts/square_transformer.py]), and
    the properties of the specification that are settled against it.

    Conventions of the embedding.
    - A Python [str] is a [string]; its characters are the code points
      0..255, so the characters above 127 are the non-ASCII ones.  A
      statement about every string is a statement about the texts of these
      code points; where a property is known to fail on a character above
      them, the statement says so.
    - A Python [dict] is an association list in insertion order ([Dict]),
      because iteration order is observable in the code.
    - A Python [int] is a [Z].
    - A Python [float] is a binary64 [float] of the Standard Library.
    - A function that can raise returns a [result]; a statement that changes
      the registry is a function on the state ([M]), and what it changed
      before it raised stays changed.
    - What the libraries compute (the fuzzy score and the sort of the data
      frame, the parsing and conversion of times) is a parameter. *)

From Stdlib Require Import ZArith NArith List String Ascii Bool Lia.
From Stdlib Require Import Permutation Sorted OrderedTypeEx.
From Stdlib Require Import Floats.
Import ListNotations.

Local Open Scope string_scope.
Local Open Scope list_scope.

(* ================================================================== *)
(** * Python strings *)
(* ================================================================== *)

Module PyStr.

(** [ord(c)] *)
Definition code (c : ascii) : N := N_of_ascii c.

(** [str.isspace] on one character (also the class [\s] of [re]). *)
Definition is_space (c : ascii) : bool :=
  let n := code c in
  ((9 <=? n) && (n <=? 13) || (28 <=? n) && (n <=? 32)
   || (n =? 133) || (n =? 160))%N.

(** The class [\d] of [re]: the decimal digits. *)
Definition is_digit (c : ascii) : bool :=
  let n := code c in ((48 <=? n) && (n <=? 57))%N.

(** The range [\x00-\x7F]. *)
Definition is_ascii (c : ascii) : bool := (code c <=? 127)%N.

(** [str.lower] on one character of the code points 0..255.  (Above them,
    [str.lower] sends two characters to ASCII letters: U+212A, the Kelvin
    sign, to "k", and U+0130 to "i" followed by U+0307.) *)
Definition lower_char (c : ascii) : ascii :=
  let n := code c in
  if ((65 <=? n) && (n <=? 90))%N then ascii_of_N (n + 32)
  else if ((192 <=? n) && (n <=? 222) && negb (n =? 215))%N
       then ascii_of_N (n + 32)
  else c.

Fixpoint map_str (f : ascii -> ascii) (s : string) : string :=
  match s with
  | EmptyString => EmptyString
  | String c s' => String (f c) (map_str f s')
  end.

Fixpoint filter_str (f : ascii -> bool) (s : string) : string :=
  match s with
  | EmptyString => EmptyString
  | String c s' => if f c then String c (filter_str f s') else filter_str f s'
  end.

Fixpoint all_chars (f : ascii -> bool) (s : string) : bool :=
  match s with
  | EmptyString => true
  | String c s' => f c && all_chars f s'
  end.

(** [s.lower()] *)
Definition lower (s : string) : string := map_str lower_char s.

(** [t.startswith(p)] *)
Fixpoint startswith (p t : string) : bool :=
  match p, t with
  | EmptyString, _ => true
  | String a p', String b t' => Ascii.eqb a b && startswith p' t'
  | String _ _, EmptyString => false
  end.

(** [needle in hay] *)
Fixpoint contains (needle hay : string) : bool :=
  startswith needle hay ||
  match hay with
  | EmptyString => false
  | String _ hay' => contains needle hay'
  end.

(** [s.replace(old, new)] for a non-empty [old]: the occurrences are
    replaced from left to right and do not overlap.  [skip] counts the
    characters of an occurrence still to be passed over. *)
Fixpoint replace_from (skip : nat) (old new s : string) : string :=
  match s with
  | EmptyString => EmptyString
  | String c s' =>
      match skip with
      | S k => replace_from k old new s'
      | O =>
          if startswith old s
          then new ++ replace_from (String.length old - 1) old new s'
          else String c (replace_from O old new s')
      end
  end.

Definition replace (old new s : string) : string := replace_from O old new s.

Fixpoint lstrip (s : string) : string :=
  match s with
  | String c s' => if is_space c then lstrip s' else s
  | EmptyString => EmptyString
  end.

Fixpoint rstrip (s : string) : string :=
  match s with
  | EmptyString => EmptyString
  | String c s' =>
      match rstrip s' with
      | EmptyString => if is_space c then EmptyString else String c EmptyString
      | r => String c r
      end
  end.

(** [s.strip()] *)
Definition strip (s : string) : string := rstrip (lstrip s).

(** Truth value of a string: non-empty. *)
Definition truthy (s : string) : bool :=
  match s with EmptyString => false | _ => true end.

End PyStr.

(* ================================================================== *)
(** * Python dictionaries, in insertion order *)
(* ================================================================== *)

Module Dict.
Section WithKey.
Context {K V : Type}.
Variable eqb : K -> K -> bool.

Definition t := list (K * V).

(** [d.get(k)] *)
Fixpoint get (k : K) (d : t) : option V :=
  match d with
  | [] => None
  | (k', v) :: d' => if eqb k k' then Some v else get k d'
  end.

(** [k in d] *)
Definition mem (k : K) (d : t) : bool :=
  match get k d with Some _ => true | None => false end.

(** [d[k] = v]: a present key keeps its place, a new key goes last. *)
Fixpoint set (k : K) (v : V) (d : t) : t :=
  match d with
  | [] => [(k, v)]
  | (k', v') :: d' =>
      if eqb k k' then (k', v) :: d' else (k', v') :: set k v d'
  end.

End WithKey.
Arguments t : clear implicits.
End Dict.

(** String-keyed dictionaries. *)
Definition sget {V} := @Dict.get string V String.eqb.
Definition smem {V} := @Dict.mem string V String.eqb.
Definition sset {V} := @Dict.set string V String.eqb.

(* ================================================================== *)
(** * models.py: enumerations and lookup tables *)
(* ================================================================== *)

Inductive SourceSystem := TOAST | DOORDASH | SQUARE.

Inductive ProductCategory :=
| BURGERS | SANDWICHES | SIDES | APPETIZERS | BEVERAGES | BREAKFAST
| ENTREES | SALADS | DESSERTS | ALCOHOL | UNKNOWN.

(** [ProductCategory.X.value] *)
Definition category_value (c : ProductCategory) : string :=
  match c with
  | BURGERS => "burgers" | SANDWICHES => "sandwiches" | SIDES => "sides"
  | APPETIZERS => "appetizers" | BEVERAGES => "beverages"
  | BREAKFAST => "breakfast" | ENTREES => "entrees" | SALADS => "salads"
  | DESSERTS => "desserts" | ALCOHOL => "alcohol" | UNKNOWN => "unknown"
  end.

Definition ProductCategory_eqb (a b : ProductCategory) : bool :=
  String.eqb (category_value a) (category_value b).

Definition LOCATION_MAPPING : Dict.t string string :=
  [ ("loc_downtown_001", "Downtown");
    ("loc_airport_002", "Airport");
    ("loc_mall_003", "Mall Location");
    ("loc_univ_004", "University");
    ("str_downtown_001", "Downtown");
    ("str_airport_002", "Airport");
    ("str_mall_003", "Mall Location");
    ("str_university_004", "University");
    ("LCN001DOWNTOWN", "Downtown");
    ("LCN002AIRPORT", "Airport");
    ("LCN003MALL", "Mall Location");
    ("LCN004UNIV", "University") ].

(** [get_location_name(location_id, source)] *)
Definition get_location_name (location_id source : string) : string :=
  match sget location_id LOCATION_MAPPING with
  | Some name => name
  | None =>
      let location_lower := PyStr.lower location_id in
      if PyStr.contains "downtown" location_lower then "Downtown"
      else if PyStr.contains "airport" location_lower then "Airport"
      else if PyStr.contains "mall" location_lower then "Mall Location"
      else if PyStr.contains "univ" location_lower
              || PyStr.contains "university" location_lower then "University"
      else "Downtown"
  end.

(** [CATEGORY_MAP]; [BASE_CATEGORY_MAP] is a copy of it. *)
Definition CATEGORY_MAP : Dict.t string string :=
  [ ("burgers", category_value BURGERS);
    ("burger", category_value BURGERS);
    ("sandwiches", category_value SANDWICHES);
    ("sandwich", category_value SANDWICHES);
    ("sides", category_value SIDES);
    ("side", category_value SIDES);
    ("sides & appetizers", category_value SIDES);
    ("appetizers", category_value APPETIZERS);
    ("appetizer", category_value APPETIZERS);
    ("appitizers", category_value APPETIZERS);
    ("beverages", category_value BEVERAGES);
    ("beverage", category_value BEVERAGES);
    ("drinks", category_value BEVERAGES);
    ("drink", category_value BEVERAGES);
    ("coffee", category_value BEVERAGES);
    ("breakfast", category_value BREAKFAST);
    ("entrees", category_value ENTREES);
    ("entree", category_value ENTREES);
    ("pasta", category_value ENTREES);
    ("seafood", category_value ENTREES);
    ("salads", category_value SALADS);
    ("salad", category_value SALADS);
    ("desserts", category_value DESSERTS);
    ("dessert", category_value DESSERTS);
    ("alcohol", category_value ALCOHOL);
    ("beer", category_value ALCOHOL);
    ("beer & wine", category_value ALCOHOL);
    ("wine", category_value ALCOHOL);
    ("cocktails", category_value ALCOHOL);
    ("wraps", category_value SANDWICHES) ].

Definition BASE_CATEGORY_MAP : Dict.t string string := CATEGORY_MAP.

(** [ProductCategory(s)]: the member whose value is [s]; [None] stands for
    the [ValueError] of a string that is no value of the enumeration. *)
Definition ProductCategory_of_value (s : string) : option ProductCategory :=
  find (fun c => String.eqb (category_value c) s)
       [BURGERS; SANDWICHES; SIDES; APPETIZERS; BEVERAGES; BREAKFAST;
        ENTREES; SALADS; DESSERTS; ALCOHOL; UNKNOWN].

(* ------------------------------------------------------------------ *)
(** ** Category unification *)

(** [any(keyword in s for keyword in keywords)] *)
Definition any_keyword_in (keywords : list string) (s : string) : bool :=
  existsb (fun keyword => PyStr.contains keyword s) keywords.

(** The scan of [BASE_CATEGORY_MAP.items()] for a substring relation in
    either direction; the first base key that matches decides. *)
Fixpoint partial_match (category : string) (base : Dict.t string string)
  : option string :=
  match base with
  | [] => None
  | (base_key, base_value) :: base' =>
      if PyStr.contains base_key category then Some base_value
      else if PyStr.contains category base_key then Some base_value
      else partial_match category base'
  end.

(** The keyword buckets tried when no base key matched. *)
Definition keyword_match (category : string) : option string :=
  let category_lower := PyStr.lower category in
  if any_keyword_in ["steak"; "meat"; "entree"; "entres"; "chicken"; "beef";
                     "pork"; "lamb"] category_lower
  then Some (category_value ENTREES)
  else if any_keyword_in ["drink"; "beverage"; "coffee"; "juice"; "soda"]
            category_lower
  then Some (category_value BEVERAGES)
  else if any_keyword_in ["beer"; "wine"; "cocktail"; "alcohol"; "spirit"]
            category_lower
  then Some (category_value ALCOHOL)
  else if any_keyword_in ["side"; "appetizer"; "appitizer"] category_lower
  then if PyStr.contains "appetizer" category_lower
          || PyStr.contains "appitizer" category_lower
       then Some (category_value APPETIZERS)
       else Some (category_value SIDES)
  else None.

(** One turn of the loop [for category in all_categories]. *)
Definition mapping_step (mapping : Dict.t string string) (category : string)
  : Dict.t string string :=
  if smem category mapping then mapping
  else match sget category BASE_CATEGORY_MAP with
       | Some v => sset category v mapping
       | None =>
           match partial_match category BASE_CATEGORY_MAP with
           | Some v => sset category v mapping
           | None =>
               match keyword_match category with
               | Some v => sset category v mapping
               | None => mapping
               end
           end
       end.

(** [all_categories.update(s)] guarded by [if s:]; the argument is
    [Optional[Set[str]]], a set being given by the list of its elements. *)
Definition update_if (all_categories : list string)
  (s : option (list string)) : list string :=
  match s with
  | None | Some [] => all_categories
  | Some l => all_categories ++ l
  end.

(** [build_category_mapping_from_catalogs].  [all_categories] is a Python
    [set]: the order in which [for category in all_categories] visits it is
    not fixed by the language, so the embedding takes it as [iter_set], which
    turns the elements put into the set into the order of one iteration. *)
Definition build_category_mapping_from_catalogs
  (iter_set : list string -> list string)
  (square_categories toast_categories doordash_categories
     : option (list string)) : Dict.t string string :=
  let mapping := BASE_CATEGORY_MAP in
  let all_categories :=
    update_if (update_if (update_if [] square_categories) toast_categories)
              doordash_categories in
  fold_left mapping_step (iter_set all_categories) mapping.

(** [get_category_mapping]: the module-level cache when it is set. *)
Definition get_category_mapping
  (_category_mapping_cache : option (Dict.t string string))
  : Dict.t string string :=
  match _category_mapping_cache with
  | Some m => m
  | None => BASE_CATEGORY_MAP
  end.

(** First value of [category_map.items()] whose key is in [cleaned]. *)
Fixpoint first_key_in (cleaned : string) (category_map : Dict.t string string)
  : option string :=
  match category_map with
  | [] => None
  | (key, value) :: m' =>
      if PyStr.contains key cleaned then Some value
      else first_key_in cleaned m'
  end.

(** [normalize_category(category, clean_text_func)], reading the cache. *)
Definition normalize_category
  (_category_mapping_cache : option (Dict.t string string))
  (category : option string) (clean_text_func : option (string -> string))
  : string :=
  match category with
  | None | Some EmptyString => category_value UNKNOWN
  | Some category =>
      let category_map := get_category_mapping _category_mapping_cache in
      let cleaned :=
        match clean_text_func with
        | Some f => f category
        | None => PyStr.strip (PyStr.lower category)
        end in
      match sget cleaned category_map with
      | Some v => v
      | None =>
          match first_key_in cleaned category_map with
          | Some v => v
          | None => category_value UNKNOWN
          end
      end
  end.

(* ------------------------------------------------------------------ *)
(** ** Order type, status and order id helpers *)

(** [map_toast_order_type] *)
Definition map_toast_order_type (dining_behavior : string) : string :=
  match sget dining_behavior
          [("DINE_IN", "DINE_IN"); ("TAKE_OUT", "TAKE_OUT");
           ("DELIVERY", "DELIVERY")] with
  | Some v => v
  | None => "DINE_IN"
  end.

(** [get_order_id_prefix] *)
Definition get_order_id_prefix (source_system : SourceSystem) : string :=
  match source_system with
  | TOAST => "TOAST"
  | DOORDASH => "DD"
  | SQUARE => "SQ"
  end.

(** [format_order_id] *)
Definition format_order_id (source_system : SourceSystem)
  (external_id : string) : string :=
  get_order_id_prefix source_system ++ "_" ++ external_id.

(* ------------------------------------------------------------------ *)
(** ** The model classes and the registry *)

(** Truth value of an [Optional[str]]: neither [None] nor empty. *)
Definition truthy (v : option string) : bool :=
  match v with
  | Some s => PyStr.truthy s
  | None => false
  end.

Definition opt_eqb (a b : option string) : bool :=
  match a, b with
  | Some x, Some y => String.eqb x y
  | None, None => true
  | _, _ => false
  end.

Record Location := mkLocation {
  loc_canonical_name : string;
  toast_id : option string;
  doordash_id : option string;
  square_id : option string;
  address_line_1 : option string;
  city : option string;
  state : option string;
  zip_code : option string;
  country : option string;
  timezone : option string
}.

(** An entry of [location_metadata]: a dict with a fixed set of keys. *)
Record LocationMeta := mkMeta {
  m_toast_id : option string;
  m_doordash_id : option string;
  m_square_id : option string;
  m_timezone : option string;
  m_address_line_1 : option string;
  m_city : option string;
  m_state : option string;
  m_zip_code : option string;
  m_country : option string
}.

(** An [Order]; its location is a reference to a [Location] object of the
    registry, given by the key of that object in [locations].  An instant is
    a number of microseconds since the epoch, a date a day number. *)
Record Order := mkOrder {
  order_id : string;
  source_system : SourceSystem;
  order_location : string;
  external_order_id : string;
  timestamp_utc : Z;
  business_date : Z;
  hour_of_day : Z;
  day_of_week : Z;
  order_type : string;
  total_amount_cents : Z;
  subtotal_amount_cents : Z;
  tax_amount_cents : Z;
  tip_amount_cents : Z;
  net_revenue_cents : Z;
  fee_amount_cents : Z;
  payment_method : option string;
  card_brand : option string;
  status : string
}.

Record Product := mkProduct {
  prod_canonical_name : string;
  prod_category : ProductCategory
}.

(** An [OrderItem]; [item_order] is the position of its order in
    [registry.orders], [item_product] the key of its product. *)
Record OrderItem := mkOrderItem {
  item_order : nat;
  item_product : option (string * ProductCategory);
  item_name : string;
  canonical_name : string;
  category : ProductCategory;
  quantity : Z;
  unit_price_cents : Z;
  total_price_cents : Z
}.

Definition product_key_eqb (a b : string * ProductCategory) : bool :=
  String.eqb (fst a) (fst b) && ProductCategory_eqb (snd a) (snd b).

Record ModelRegistry := mkRegistry {
  locations : Dict.t string Location;
  products : Dict.t (string * ProductCategory) Product;
  orders : list Order;
  order_items : list OrderItem;
  location_metadata : Dict.t string LocationMeta
}.

(** [ModelRegistry()] *)
Definition new_registry : ModelRegistry :=
  mkRegistry [] [] [] [] [].

Definition set_locations (r : ModelRegistry) (l : Dict.t string Location) :=
  mkRegistry l r.(products) r.(orders) r.(order_items) r.(location_metadata).
Definition set_location_metadata (r : ModelRegistry)
  (m : Dict.t string LocationMeta) :=
  mkRegistry r.(locations) r.(products) r.(orders) r.(order_items) m.
Definition set_products (r : ModelRegistry)
  (p : Dict.t (string * ProductCategory) Product) :=
  mkRegistry r.(locations) p r.(orders) r.(order_items) r.(location_metadata).
Definition set_orders (r : ModelRegistry) (o : list Order) :=
  mkRegistry r.(locations) r.(products) o r.(order_items)
             r.(location_metadata).
Definition set_order_items (r : ModelRegistry) (i : list OrderItem) :=
  mkRegistry r.(locations) r.(products) r.(orders) i r.(location_metadata).

Definition DEFAULT_TZ : string := "America/New_York".

(** The assignment of the source id, on the object and on its metadata. *)
Definition with_source_id (source_system : SourceSystem) (source_id : string)
  (l : Location) : Location :=
  match source_system with
  | TOAST =>
      mkLocation l.(loc_canonical_name) (Some source_id) l.(doordash_id)
        l.(square_id) l.(address_line_1) l.(city) l.(state) l.(zip_code)
        l.(country) l.(timezone)
  | DOORDASH =>
      mkLocation l.(loc_canonical_name) l.(toast_id) (Some source_id)
        l.(square_id) l.(address_line_1) l.(city) l.(state) l.(zip_code)
        l.(country) l.(timezone)
  | SQUARE =>
      mkLocation l.(loc_canonical_name) l.(toast_id) l.(doordash_id)
        (Some source_id) l.(address_line_1) l.(city) l.(state) l.(zip_code)
        l.(country) l.(timezone)
  end.

Definition meta_with_source_id (source_system : SourceSystem)
  (source_id : string) (m : LocationMeta) : LocationMeta :=
  match source_system with
  | TOAST =>
      mkMeta (Some source_id) m.(m_doordash_id) m.(m_square_id) m.(m_timezone)
        m.(m_address_line_1) m.(m_city) m.(m_state) m.(m_zip_code)
        m.(m_country)
  | DOORDASH =>
      mkMeta m.(m_toast_id) (Some source_id) m.(m_square_id) m.(m_timezone)
        m.(m_address_line_1) m.(m_city) m.(m_state) m.(m_zip_code)
        m.(m_country)
  | SQUARE =>
      mkMeta m.(m_toast_id) m.(m_doordash_id) (Some source_id) m.(m_timezone)
        m.(m_address_line_1) m.(m_city) m.(m_state) m.(m_zip_code)
        m.(m_country)
  end.

(** [if new and not old: field = new], for one address field. *)
Definition fill (new old : option string) : option string :=
  if truthy new && negb (truthy old) then new else old.

(** The timezone test: a provided zone other than the default replaces a
    stored zone that equals the default. *)
Definition fill_timezone (timezone_str old : option string) : option string :=
  if truthy timezone_str && opt_eqb old (Some DEFAULT_TZ)
     && negb (opt_eqb timezone_str (Some DEFAULT_TZ))
  then timezone_str else old.

(** The updates made to the [Location] object after it was fetched or
    created. *)
Definition merge_location (source_system : SourceSystem) (source_id : string)
  (timezone_str address_line_1' city' state' zip_code' : option string)
  (l : Location) : Location :=
  let l := with_source_id source_system source_id l in
  mkLocation l.(loc_canonical_name) l.(toast_id) l.(doordash_id)
    l.(square_id)
    (fill address_line_1' l.(address_line_1))
    (fill city' l.(city))
    (fill state' l.(state))
    (fill zip_code' l.(zip_code))
    l.(country)
    (fill_timezone timezone_str l.(timezone)).

(** The same updates on the metadata entry; each is guarded by the state of
    the [Location] object [l] at the time of the test, as in the source. *)
Definition merge_meta (source_system : SourceSystem) (source_id : string)
  (timezone_str address_line_1' city' state' zip_code' : option string)
  (l : Location) (m : LocationMeta) : LocationMeta :=
  let m := meta_with_source_id source_system source_id m in
  let upd (new old cur : option string) :=
    if truthy new && negb (truthy old) then new else cur in
  mkMeta m.(m_toast_id) m.(m_doordash_id) m.(m_square_id)
    (if truthy timezone_str && opt_eqb l.(timezone) (Some DEFAULT_TZ)
        && negb (opt_eqb timezone_str (Some DEFAULT_TZ))
     then timezone_str else m.(m_timezone))
    (upd address_line_1' l.(address_line_1) m.(m_address_line_1))
    (upd city' l.(city) m.(m_city))
    (upd state' l.(state) m.(m_state))
    (upd zip_code' l.(zip_code) m.(m_zip_code))
    m.(m_country).

(** [ModelRegistry.get_or_create_location]: the registry after the call.
    The object returned is the one stored under [canonical_name].  An
    existing location always has a metadata entry ([registry_wf]); were the
    entry missing, the source would stop with a [KeyError], the embedding
    leaves the metadata as it is. *)
Definition get_or_create_location (r : ModelRegistry)
  (canonical_name : string) (source_system : SourceSystem)
  (source_id : string)
  (timezone_str address_line_1' city' state' zip_code' country'
     : option string) : ModelRegistry :=
  let r :=
    if negb (smem canonical_name r.(locations)) then
      let location :=
        mkLocation canonical_name None None None address_line_1' city'
                   state' zip_code' country' timezone_str in
      let meta :=
        mkMeta None None None timezone_str address_line_1' city' state'
               zip_code' country' in
      set_location_metadata
        (set_locations r (sset canonical_name location r.(locations)))
        (sset canonical_name meta r.(location_metadata))
    else r in
  match sget canonical_name r.(locations) with
  | None => r
  | Some location =>
      let location' :=
        merge_location source_system source_id timezone_str address_line_1'
                       city' state' zip_code' location in
      let metadata' :=
        match sget canonical_name r.(location_metadata) with
        | Some m =>
            sset canonical_name
              (merge_meta source_system source_id timezone_str address_line_1'
                          city' state' zip_code' location m)
              r.(location_metadata)
        | None => r.(location_metadata)
        end in
      set_location_metadata
        (set_locations r (sset canonical_name location' r.(locations)))
        metadata'
  end.

(** The registry invariant: locations and metadata have the same keys. *)
Definition registry_wf (r : ModelRegistry) : Prop :=
  forall name, smem name r.(locations) = smem name r.(location_metadata).

(** [ModelRegistry.get_or_create_product]: the registry after the call. *)
Definition get_or_create_product (r : ModelRegistry)
  (canonical_name : string) (category : ProductCategory) : ModelRegistry :=
  let key := (canonical_name, category) in
  if Dict.mem product_key_eqb key r.(products) then r
  else set_products r
         (Dict.set product_key_eqb key (mkProduct canonical_name category)
                   r.(products)).

(* ================================================================== *)
(** * process_data.py: text and unit normalizers *)
(* ================================================================== *)

(** The values a field of a decoded JSON record takes here. *)
Inductive pyval :=
| VNone
| VInt (n : Z)
| VFloat (f : float)
| VStr (s : string).

(** The exceptions that the modelled code can raise. *)
Inductive exn :=
| ValueError | TypeError | OverflowError | AttributeError | KeyError
| OSError.

Inductive result (A : Type) :=
| Ok (a : A)
| Raise (e : exn).
Arguments Ok {A} a.
Arguments Raise {A} e.

(** [TYPO_CORRECTIONS], in the order of the dict literal. *)
Definition TYPO_CORRECTIONS : Dict.t string string :=
  [ ("griled chiken", "grilled chicken");
    ("griled chicken", "grilled chicken");
    ("griled chicken sandwhich", "grilled chicken sandwich");
    ("sandwhich", "sandwich");
    ("expresso", "espresso");
    ("coffe", "coffee");
    ("appitizers", "appetizers");
    ("hashbrowns", "hash browns");
    ("churos", "churros") ].

(** [EMOJI_PATTERN.sub('', text)]: the characters outside [\x00-\x7F] go. *)
Definition remove_non_ascii (text : string) : string :=
  PyStr.filter_str PyStr.is_ascii text.

(** [CLEANUP_PATTERN.sub(' ', s)]: every maximal run of whitespace becomes
    one space.  [in_run] tells that the previous character was whitespace. *)
Fixpoint collapse_ws (in_run : bool) (s : string) : string :=
  match s with
  | EmptyString => EmptyString
  | String c s' =>
      if PyStr.is_space c
      then if in_run then collapse_ws true s'
           else String " " (collapse_ws true s')
      else String c (collapse_ws false s')
  end.

(** One turn of [for typo, correction in TYPO_CORRECTIONS.items()]. *)
Definition apply_typo (cleaned : string) (tc : string * string) : string :=
  let (typo, correction) := tc in
  if PyStr.contains typo cleaned
  then PyStr.replace typo correction cleaned
  else cleaned.

(** [clean_text] on a [str]. *)
Definition clean_text (text : string) : string :=
  if negb (PyStr.truthy (PyStr.strip text)) then "unknown"
  else
    let cleaned := remove_non_ascii text in
    let cleaned := PyStr.strip (collapse_ws false cleaned) in
    let cleaned := PyStr.lower cleaned in
    fold_left apply_typo TYPO_CORRECTIONS cleaned.

(** [clean_text] on any value: what is not a [str] is "unknown". *)
Definition clean_text_any (text : pyval) : string :=
  match text with
  | VStr s => clean_text s
  | _ => "unknown"
  end.

(* ------------------------------------------------------------------ *)
(** ** QTY_PATTERN

    [(.*?)(\d+)\s*(?:pc|pcs|piece|pieces|ct|count|pack)\b] with
    [re.IGNORECASE], as the backtracking matcher of [re] runs it: the
    leftmost start, the lazy group as short as possible, the greedy
    repetitions as long as possible, the alternatives in their order. *)

(** The class [\w]: letters, digits and the underscore. *)
Definition is_word (c : ascii) : bool :=
  let n := PyStr.code c in
  (PyStr.is_digit c
   || (65 <=? n) && (n <=? 90) || (97 <=? n) && (n <=? 122) || (n =? 95)
   || (n =? 170) || (n =? 178) || (n =? 179) || (n =? 181) || (n =? 185)
   || (n =? 186) || (188 <=? n) && (n <=? 190)
   || (192 <=? n) && negb (n =? 215) && negb (n =? 247))%N.

(** [\b] between the character before and the rest of the subject. *)
Definition word_boundary (prev : option ascii) (rest : string) : bool :=
  let w (o : option ascii) :=
    match o with Some c => is_word c | None => false end in
  let next := match rest with String c _ => Some c | EmptyString => None end in
  xorb (w prev) (w next).

(** A literal of the pattern under [re.IGNORECASE], then [\b]. *)
Fixpoint match_literal (lit : string) (prev : option ascii) (s : string)
  : bool :=
  match lit with
  | EmptyString => word_boundary prev s
  | String a lit' =>
      match s with
      | String c s' =>
          Ascii.eqb (PyStr.lower_char c) (PyStr.lower_char a)
          && match_literal lit' (Some c) s'
      | EmptyString => false
      end
  end.

Definition UNIT_WORDS : list string :=
  ["pc"; "pcs"; "piece"; "pieces"; "ct"; "count"; "pack"].

(** [(?:pc|pcs|piece|pieces|ct|count|pack)\b] *)
Definition match_unit (prev : option ascii) (s : string) : bool :=
  existsb (fun lit => match_literal lit prev s) UNIT_WORDS.

(** [\s*] and what follows it: a longer run of whitespace is tried first. *)
Fixpoint match_ws_unit (prev : option ascii) (s : string) : bool :=
  match s with
  | String c s' =>
      (PyStr.is_space c && match_ws_unit (Some c) s') || match_unit prev s
  | EmptyString => match_unit prev s
  end.

(** The rest of [(\d+)] after a digit [prev], and what follows it: one more
    digit is tried first.  The result is the rest of group 2. *)
Fixpoint match_more_digits (prev : ascii) (s : string) : option string :=
  let stop := if match_ws_unit (Some prev) s then Some "" else None in
  match s with
  | String c s' =>
      if PyStr.is_digit c
      then match match_more_digits c s' with
           | Some ds => Some (String c ds)
           | None => stop
           end
      else stop
  | EmptyString => stop
  end.

(** [(\d+)\s*(?:...)\b] at the head of [s]: group 2. *)
Definition match_number (s : string) : option string :=
  match s with
  | String c s' =>
      if PyStr.is_digit c
      then option_map (String c) (match_more_digits c s')
      else None
  | EmptyString => None
  end.

Definition newline : ascii := ascii_of_N 10.

(** The whole pattern at the head of [s]: groups 1 and 2.  The lazy [.*?]
    first tries to be empty, then takes one more character that is not a
    newline. *)
Fixpoint match_here (s : string) : option (string * string) :=
  match match_number s with
  | Some g2 => Some ("", g2)
  | None =>
      match s with
      | String c s' =>
          if Ascii.eqb c newline then None
          else match match_here s' with
               | Some (g1, g2) => Some (String c g1, g2)
               | None => None
               end
      | EmptyString => None
      end
  end.

(** [QTY_PATTERN.search(raw_name)]: groups 1 and 2 of the first match. *)
Fixpoint QTY_PATTERN_search (raw_name : string) : option (string * string) :=
  match match_here raw_name with
  | Some g => Some g
  | None =>
      match raw_name with
      | String _ s' => QTY_PATTERN_search s'
      | EmptyString => None
      end
  end.

Definition digit_value (c : ascii) : Z := (Z.of_N (PyStr.code c) - 48)%Z.

(** The number that a string of decimal digits writes. *)
Definition int_of_digits (s : string) : Z :=
  fold_left (fun acc c => (10 * acc + digit_value c)%Z)
            (list_ascii_of_string s) 0%Z.

(** [sys.get_int_max_str_digits()]: the number of digits above which [int]
    refuses a decimal string; the code leaves it at the default of
    CPython. *)
Definition INT_MAX_STR_DIGITS : Z := 4300.

(** The digits of [s], zeros in front included, are within the limit. *)
Definition within_digit_limit (s : string) : bool :=
  (Z.of_nat (String.length s) <=? INT_MAX_STR_DIGITS)%Z.

(** [c * n] *)
Fixpoint repeat_char (c : ascii) (n : nat) : string :=
  match n with
  | O => EmptyString
  | S k => String c (repeat_char c k)
  end.

(** [int(s)] for a string of decimal digits: a [ValueError] above the limit
    on the number of digits. *)
Definition int_of_digit_string (s : string) : result Z :=
  if within_digit_limit s then Ok (int_of_digits s) else Raise ValueError.

(** [extract_baked_quantity]; the conversion of group 2 precedes the
    cleaning of the name. *)
Definition extract_baked_quantity (raw_name : string) (original_qty : Z)
  : result (string * Z) :=
  match QTY_PATTERN_search raw_name with
  | Some (g1, g2) =>
      let name_part := PyStr.strip g1 in
      match int_of_digit_string g2 with
      | Ok baked_qty =>
          Ok (clean_text name_part, (original_qty * baked_qty)%Z)
      | Raise e => Raise e
      end
  | None => Ok (clean_text raw_name, original_qty)
  end.

(* ------------------------------------------------------------------ *)
(** ** to_cents *)

(** The integer nearest to [m * 2^e], a tie going to the even one. *)
Definition round_half_even (m : positive) (e : Z) : Z :=
  (if 0 <=? e then Z.pos m * 2 ^ e
   else
     let d := 2 ^ (- e) in
     let q := Z.pos m / d in
     let r := Z.pos m mod d in
     match 2 * r ?= d with
     | Lt => q
     | Gt => q + 1
     | Eq => if Z.even q then q else q + 1
     end)%Z.

(** [round(x)] of a float with one argument: the nearest integer, a tie
    going to the even one; an infinity is an [OverflowError], a NaN a
    [ValueError]. *)
Definition py_round (x : float) : result Z :=
  match Prim2SF x with
  | S754_zero _ => Ok 0%Z
  | S754_finite s m e =>
      Ok (if s then (- round_half_even m e)%Z else round_half_even m e)
  | S754_infinity _ => Raise OverflowError
  | S754_nan => Raise ValueError
  end.

(** [int(round(x * 100))] *)
Definition round_cents (x : float) : result Z :=
  py_round (PrimFloat.mul x 100%float).

(** [pd.isna(value) or value is None] *)
Definition isna (value : pyval) : bool :=
  match value with
  | VNone => true
  | VFloat f => PrimFloat.is_nan f
  | _ => false
  end.

(** [re.sub(r'[^\d.-]', '', value)] *)
Definition keep_number_chars (value : string) : string :=
  PyStr.filter_str
    (fun c => PyStr.is_digit c || Ascii.eqb c "." || Ascii.eqb c "-")%bool
    value.

Definition all_digits (s : string) : bool :=
  PyStr.all_chars PyStr.is_digit s.

(** Splits at the first occurrence of [sep]. *)
Fixpoint split_at (sep : ascii) (s : string) : option (string * string) :=
  match s with
  | EmptyString => None
  | String c s' =>
      if Ascii.eqb c sep then Some (EmptyString, s')
      else match split_at sep s' with
           | Some (a, b) => Some (String c a, b)
           | None => None
           end
  end.

(** [int(s)] on a string made of digits, dots and minus signs: an optional
    minus sign and at least one digit, no more digits than the limit;
    anything else is a [ValueError]. *)
Definition py_int_of_str (s : string) : result Z :=
  let (neg, body) :=
    match s with
    | String "-" s' => (true, s')
    | _ => (false, s)
    end in
  if PyStr.truthy body && all_digits body && within_digit_limit body
  then Ok (if neg then (- int_of_digits body)%Z else int_of_digits body)
  else Raise ValueError.

(** The binary64 float nearest to [n / 10^k] (a tie going to the even
    mantissa), with the sign [neg]. *)
Definition float_of_decimal (neg : bool) (n : Z) (k : nat) : float :=
  match n with
  | Zpos p =>
      SF2Prim (SFdiv prec emax (S754_finite neg p 0)
                     (S754_finite false (Z.to_pos (10 ^ Z.of_nat k)) 0))
  | _ => SF2Prim (S754_zero neg)
  end.

(** [float(s)] on a string made of digits, dots and minus signs: an
    optional minus sign, digits with at most one dot, at least one digit. *)
Definition py_float_of_str (s : string) : result float :=
  let (neg, body) :=
    match s with
    | String "-" s' => (true, s')
    | _ => (false, s)
    end in
  let (ip, fp) :=
    match split_at "." body with
    | Some (a, b) => (a, b)
    | None => (body, EmptyString)
    end in
  if all_digits ip && all_digits fp && PyStr.truthy (ip ++ fp)
  then Ok (float_of_decimal neg (int_of_digits (ip ++ fp))
                            (String.length fp))
  else Raise ValueError.

(** [try: ... except (ValueError, TypeError): return 0] *)
Definition except_value_type_error (attempt : result Z) : result Z :=
  match attempt with
  | Raise ValueError | Raise TypeError => Ok 0%Z
  | other => other
  end.

(** The [try] block of the string branch. *)
Definition cents_of_clean_val (clean_val : string) : result Z :=
  if PyStr.contains "." clean_val
  then match py_float_of_str clean_val with
       | Ok f => round_cents f
       | Raise e => Raise e
       end
  else py_int_of_str clean_val.

(** [to_cents] *)
Definition to_cents (value : pyval) : result Z :=
  if isna value then Ok 0%Z
  else
    match value with
    | VNone => Ok 0%Z
    | VInt n => Ok n
    | VFloat f =>
        if PrimFloat.leb 0%float f then round_cents f else round_cents f
    | VStr s =>
        let clean_val := keep_number_chars s in
        if negb (PyStr.truthy clean_val) then Ok 0%Z
        else except_value_type_error (cents_of_clean_val clean_val)
    end.

(* ================================================================== *)
(** * process_data.py: entity resolution *)
(* ================================================================== *)

(** A group key: [(canonical_name, category_val)]. *)
Definition key := (string * string)%type.

Definition key_eqb (a b : key) : bool :=
  String.eqb (fst a) (fst b) && String.eqb (snd a) (snd b).

(** The order of tuples of strings. *)
Definition key_compare (a b : key) : comparison :=
  match String.compare (fst a) (fst b) with
  | Eq => String.compare (snd a) (snd b)
  | c => c
  end.

(** A row of [product_counts]: the key columns and [count]. *)
Definition row := (key * nat)%type.

Definition row_name (r : row) : string := fst (fst r).
Definition row_category (r : row) : string := snd (fst r).
Definition row_count (r : row) : nat := snd r.

(** [category_val] of an item. *)
Definition category_val (item : OrderItem) : string :=
  category_value item.(category).

Definition item_key (item : OrderItem) : key :=
  (item.(canonical_name), category_val item).

(** One more occurrence of [k] in a table kept in ascending key order. *)
Fixpoint count_insert (k : key) (t : list row) : list row :=
  match t with
  | [] => [(k, 1)]
  | (k', n) :: t' =>
      match key_compare k k' with
      | Eq => (k', S n) :: t'
      | Lt => (k, 1) :: t
      | Gt => (k', n) :: count_insert k t'
      end
  end.

(** [df.groupby(['canonical_name', 'category']).size().reset_index(...)]:
    one row per distinct key with its number of occurrences; [groupby]
    sorts the group keys, so the rows come in ascending key order. *)
Definition groupby_size (product_data : list key) : list row :=
  fold_left (fun t k => count_insert k t) product_data [].

Section EntityResolution.

(** [sort_values('count', ascending=False)]: the library's sort of the rows
    on one column, with its default algorithm; which of two rows with equal
    counts comes first is the algorithm's business. *)
Variable sort_values : list row -> list row.

(** [fuzz.token_sort_ratio] *)
Variable token_sort_ratio : string -> string -> Z.

(** The state of the walk: [canonical_map] and [processed]. *)
Definition walk_state := (Dict.t key string * list key)%type.

Definition in_processed (k : key) (processed : list key) : bool :=
  existsb (key_eqb k) processed.

(** One turn of the inner loop [for idx2, row2 in same_category.iterrows()]. *)
Definition inner_step (name category : string) (st : walk_state) (row2 : row)
  : walk_state :=
  let (canonical_map, processed) := st in
  let name2 := row_name row2 in
  let key2 := (name2, category) in
  if in_processed key2 processed then st
  else
    let score := token_sort_ratio name name2 in
    if (88 <? score)%Z
    then (Dict.set key_eqb key2 name canonical_map, key2 :: processed)
    else st.

(** One turn of the outer loop [for idx, row in product_counts.iterrows()]. *)
Definition outer_step (product_counts : list row) (st : walk_state)
  (r : row) : walk_state :=
  let (canonical_map, processed) := st in
  let name := row_name r in
  let category := row_category r in
  let k := (name, category) in
  if in_processed k processed then st
  else
    let st1 := (Dict.set key_eqb k name canonical_map, k :: processed) in
    let same_category :=
      filter (fun r2 => String.eqb (row_category r2) category)
             product_counts in
    fold_left (inner_step name category) same_category st1.

(** [product_counts] as the loops see it. *)
Definition product_counts_of (items : list OrderItem) : list row :=
  sort_values (groupby_size (map item_key items)).

Definition resolution_walk (product_counts : list row) : walk_state :=
  fold_left (outer_step product_counts) product_counts ([], []).

(** The update of one item from [canonical_map]. *)
Definition apply_canonical_map (canonical_map : Dict.t key string)
  (item : OrderItem) : OrderItem :=
  match Dict.get key_eqb (item_key item) canonical_map with
  | Some new_name =>
      if negb (String.eqb new_name item.(canonical_name))
      then mkOrderItem item.(item_order) item.(item_product)
             item.(item_name) new_name item.(category) item.(quantity)
             item.(unit_price_cents) item.(total_price_cents)
      else item
  | None => item
  end.

(** [perform_entity_resolution_on_models], on the list of order items. *)
Definition resolve_items (items : list OrderItem) : list OrderItem :=
  match items with
  | [] => []
  | _ =>
      let canonical_map := fst (resolution_walk (product_counts_of items)) in
      map (apply_canonical_map canonical_map) items
  end.

Definition perform_entity_resolution_on_models (registry : ModelRegistry)
  : ModelRegistry :=
  set_order_items registry (resolve_items registry.(order_items)).

End EntityResolution.

(** [resolve_category_conflicts], on one item. *)
Definition resolve_conflict (item : OrderItem) : OrderItem :=
  let canonical_name_lower := PyStr.lower item.(canonical_name) in
  if PyStr.contains "burger" canonical_name_lower
     && negb (String.eqb (category_val item) "burgers")
  then mkOrderItem item.(item_order) item.(item_product) item.(item_name)
         item.(canonical_name) BURGERS item.(quantity)
         item.(unit_price_cents) item.(total_price_cents)
  else item.

(** [resolve_category_conflicts] *)
Definition resolve_category_conflicts (registry : ModelRegistry)
  : ModelRegistry :=
  set_order_items registry (map resolve_conflict registry.(order_items)).

(** One turn of the loop of [_create_products_from_order_items]: the
    registry, and the items bound so far. *)
Definition bind_product (acc : ModelRegistry * list OrderItem)
  (item : OrderItem) : ModelRegistry * list OrderItem :=
  let (registry, done) := acc in
  let registry :=
    get_or_create_product registry item.(canonical_name) item.(category) in
  let item' :=
    mkOrderItem item.(item_order)
      (Some (item.(canonical_name), item.(category)))
      item.(item_name) item.(canonical_name) item.(category) item.(quantity)
      item.(unit_price_cents) item.(total_price_cents) in
  (registry, done ++ [item']).

(** [_create_products_from_order_items] *)
Definition _create_products_from_order_items (registry : ModelRegistry)
  : ModelRegistry :=
  let registry := set_products registry [] in
  let (registry, items) :=
    fold_left bind_product registry.(order_items) (registry, []) in
  set_order_items registry items.

(* ================================================================== *)
(** * toast_transformer.py *)
(* ================================================================== *)

(** The state the adapters work on: the registry passed to them and the
    module-level [_category_mapping_cache] of [models]. *)
Record World := mkWorld {
  registry : ModelRegistry;
  _category_mapping_cache : option (Dict.t string string)
}.

(** A statement: it changes the state and ends normally or by raising; what
    was changed before an exception stays changed. *)
Definition M (A : Type) := World -> World * result A.

Definition ret {A} (a : A) : M A := fun w => (w, Ok a).
Definition raise {A} (e : exn) : M A := fun w => (w, Raise e).
Definition bind {A B} (m : M A) (k : A -> M B) : M B :=
  fun w =>
    match m w with
    | (w', Ok a) => k a w'
    | (w', Raise e) => (w', Raise e)
    end.
Definition lift {A} (r : result A) : M A := fun w => (w, r).
Definition modify_registry (f : ModelRegistry -> ModelRegistry) : M unit :=
  fun w => (mkWorld (f w.(registry)) w.(_category_mapping_cache), Ok tt).
Definition get_registry : M ModelRegistry := fun w => (w, Ok w.(registry)).
Definition get_cache : M (option (Dict.t string string)) :=
  fun w => (w, Ok w.(_category_mapping_cache)).
Definition set_cache (m : Dict.t string string) : M unit :=
  fun w => (mkWorld w.(registry) (Some m), Ok tt).

Notation "x <- m ;; k" := (bind m (fun x => k))
  (at level 61, m at next level, right associativity).
Notation "m ;;; k" := (bind m (fun _ => k))
  (at level 61, right associativity).

(** [for x in xs: body x] *)
Fixpoint for_each {A} (xs : list A) (body : A -> M unit) : M unit :=
  match xs with
  | [] => ret tt
  | x :: xs' => body x ;;; for_each xs' body
  end.

(** [try: body / except Exception: ...]: the handler prints and the
    statement ends normally, in the state the body left. *)
Definition try_except (body : M unit) : M unit :=
  fun w => (fst (body w), Ok tt).

(** What [d.get(k, default)] meets in a decoded JSON object. *)
Inductive jfield (A : Type) :=
| Missing
| Null
| Val (a : A).
Arguments Missing {A}.
Arguments Null {A}.
Arguments Val {A} a.

(** [d.get(k, default)] for a string field. *)
Definition get_default (f : jfield string) (default : string)
  : option string :=
  match f with
  | Missing => Some default
  | Null => None
  | Val s => Some s
  end.

(** [o.get(k, {})] followed by a read of the object found: [null] has no
    [get], which is an [AttributeError]. *)
Definition get_object {A B} (f : jfield A) (on_empty : B) (read : A -> B)
  : result B :=
  match f with
  | Missing => Ok on_empty
  | Null => Raise AttributeError
  | Val a => Ok (read a)
  end.

(** [a or b] on optional strings. *)
Definition or_else (a b : option string) : option string :=
  if truthy a then a else b.

Record ToastAddress := mkToastAddress {
  ta_line1 : option string;
  ta_city : option string;
  ta_state : option string;
  ta_zip : option string;
  ta_country : jfield string
}.

Record ToastLocation := mkToastLocation {
  tl_guid : option string;
  tl_name : option string;
  tl_timezone : jfield string;
  tl_address : jfield ToastAddress
}.

Record ToastPayment := mkToastPayment {
  tp_type : jfield string;
  tp_cardType : option string
}.

Record ToastSelection := mkToastSelection {
  ts_voided : bool;
  ts_displayName : option string;
  ts_item : jfield (jfield string);
  ts_quantity : Z;
  ts_itemGroup : jfield (jfield string);
  ts_price : pyval
}.

Record ToastCheck := mkToastCheck {
  tc_guid : string;
  tc_payments : list ToastPayment;
  tc_paidDate : option string;
  tc_closedDate : option string;
  tc_totalAmount : pyval;
  tc_amount : pyval;
  tc_taxAmount : pyval;
  tc_tipAmount : pyval;
  tc_voided : bool;
  tc_selections : list ToastSelection
}.

Record ToastOrder := mkToastOrder {
  to_guid : string;
  to_restaurantGuid : option string;
  to_openedDate : option string;
  to_businessDate : option string;
  to_diningOption : jfield (jfield string);
  to_checks : list ToastCheck
}.

Record ToastData := mkToastData {
  td_locations : list ToastLocation;
  td_orders : list ToastOrder
}.

(** The local calendar fields of an instant: [date()], [hour] and
    [weekday()] (0 = Monday). *)
Record LocalTime := mkLocalTime {
  lt_date : Z;
  lt_hour : Z;
  lt_weekday : Z
}.

(** [extract_categories_from_toast_data(data, clean_text)]: the names added
    to the set, in the order of the traversal. *)
Definition selection_group_name (selection : ToastSelection)
  : result (list string) :=
  match get_object selection.(ts_itemGroup) (Some EmptyString)
                   (fun name => get_default name EmptyString) with
  | Raise e => Raise e
  | Ok group_name =>
      if truthy group_name
      then match group_name with
           | Some g =>
               let cleaned := clean_text g in
               Ok (if PyStr.truthy cleaned then [cleaned] else [])
           | None => Ok []
           end
      else Ok []
  end.

Fixpoint collect {A} (f : A -> result (list string)) (xs : list A)
  : result (list string) :=
  match xs with
  | [] => Ok []
  | x :: xs' =>
      match f x with
      | Raise e => Raise e
      | Ok l =>
          match collect f xs' with
          | Raise e => Raise e
          | Ok l' => Ok (l ++ l')
          end
      end
  end.

Definition extract_categories_from_toast_data (data : ToastData)
  : result (list string) :=
  collect (fun order =>
    collect (fun check =>
      collect selection_group_name check.(tc_selections))
      order.(to_checks))
    data.(td_orders).

Section ToastAdapter.

(** The iteration order of the set of categories (see
    [build_category_mapping_from_catalogs]). *)
Variable iter_set : list string -> list string.

(** [normalize_timestamp]: the parse of the pandas library, with the clock
    as its fallback; the result is taken to be an instant (the not-a-time
    value that pandas gives for a text such as "NaT" is not part of the
    embedding). *)
Variable normalize_timestamp : option string -> Z.

(** The conversion of an instant to the zone [tz_str] by the pytz library,
    with the fallback of the [except] clause around it. *)
Variable to_local : Z -> string -> LocalTime.

(** [pd.to_datetime(s).date()], which raises on what it cannot parse. *)
Variable parse_business_date : string -> result Z.

(** One turn of [for loc in locations_data]; the result is the local
    [toast_location_map]. *)
Definition toast_location (toast_location_map : Dict.t string string)
  (loc : ToastLocation) : M (Dict.t string string) :=
  let guid := loc.(tl_guid) in
  let name := loc.(tl_name) in
  let timezone_str := get_default loc.(tl_timezone) DEFAULT_TZ in
  match guid, name with
  | Some g, Some n =>
      if truthy guid && truthy name then
        a <- lift (get_object loc.(tl_address)
                     (None, None, None, None, Some "US")
                     (fun a => (a.(ta_line1), a.(ta_city), a.(ta_state),
                                a.(ta_zip), get_default a.(ta_country) "US")));;
        let '(line1, city', state', zip, country') := a in
        modify_registry (fun r =>
          get_or_create_location r n TOAST g timezone_str line1 city' state'
                                 zip country') ;;;
        ret (sset g n toast_location_map)
      else ret toast_location_map
  | _, _ => ret toast_location_map
  end.

Fixpoint toast_locations (toast_location_map : Dict.t string string)
  (locations_data : list ToastLocation) : M (Dict.t string string) :=
  match locations_data with
  | [] => ret toast_location_map
  | loc :: rest =>
      m <- toast_location toast_location_map loc ;;
      toast_locations m rest
  end.

(** The location of an order: its canonical name, which is the reference
    to the object. *)
Definition toast_order_location (toast_location_map : Dict.t string string)
  (order : ToastOrder) : M string :=
  let restaurant_guid := order.(to_restaurantGuid) in
  let location_name :=
    match restaurant_guid with
    | Some g => sget g toast_location_map
    | None => None
    end in
  if negb (truthy location_name) then
    match restaurant_guid with
    | None => raise AttributeError
    | Some g =>
        let location_name := get_location_name g "Toast" in
        modify_registry (fun r =>
          get_or_create_location r location_name TOAST g (Some DEFAULT_TZ)
                                 None None None None (Some "US")) ;;;
        ret location_name
    end
  else
    match location_name with
    | Some n =>
        r <- get_registry ;;
        if smem n r.(locations) then ret n else raise KeyError
    | None => raise KeyError
    end.

(** One turn of [for selection in selections]. *)
Definition toast_selection (order_index : nat) (selection : ToastSelection)
  : M unit :=
  if selection.(ts_voided) then ret tt
  else
    raw_name <-
      (if truthy selection.(ts_displayName)
       then ret selection.(ts_displayName)
       else lift (get_object selection.(ts_item) (Some "Unknown")
                             (fun n => get_default n "Unknown"))) ;;
    let quantity := selection.(ts_quantity) in
    match raw_name with
    | None => raise TypeError
    | Some raw_name =>
        baked <- lift (extract_baked_quantity raw_name quantity) ;;
        let (clean_name, adj_qty) := baked in
        group_name <- lift (get_object selection.(ts_itemGroup)
                              (Some "unknown")
                              (fun n => get_default n "unknown")) ;;
        cache <- get_cache ;;
        let category_str :=
          normalize_category cache group_name (Some clean_text) in
        let category_enum :=
          match ProductCategory_of_value category_str with
          | Some c => c
          | None => UNKNOWN
          end in
        total_line_price <- lift (to_cents selection.(ts_price)) ;;
        let unit_price :=
          (if quantity <? adj_qty
           then if 0 <? adj_qty then total_line_price / adj_qty else 0
           else if 0 <? quantity then total_line_price / quantity
                else total_line_price)%Z in
        let total_price := total_line_price in
        modify_registry (fun r =>
          set_order_items r
            (r.(order_items) ++
             [mkOrderItem order_index None raw_name clean_name category_enum
                          adj_qty unit_price total_price]))
    end.

(** One turn of [for check in checks]. *)
Definition toast_check (order : ToastOrder) (location_name : string)
  (check : ToastCheck) : M unit :=
  let check_guid := check.(tc_guid) in
  let order_id_str := format_order_id TOAST check_guid in
  let payment :=
    match check.(tc_payments) with
    | p :: _ => p
    | [] => mkToastPayment Missing None
    end in
  let timestamp_utc :=
    normalize_timestamp
      (or_else (or_else check.(tc_paidDate) check.(tc_closedDate))
               order.(to_openedDate)) in
  r <- get_registry ;;
  match sget location_name r.(locations) with
  | None => raise KeyError
  | Some location =>
      let tz_str :=
        match or_else location.(timezone) (Some DEFAULT_TZ) with
        | Some z => z
        | None => DEFAULT_TZ
        end in
      let timestamp_local := to_local timestamp_utc tz_str in
      business_date' <-
        (if truthy order.(to_businessDate)
         then match order.(to_businessDate) with
              | Some d => lift (parse_business_date d)
              | None => ret timestamp_local.(lt_date)
              end
         else ret timestamp_local.(lt_date)) ;;
      let hour_of_day' := timestamp_local.(lt_hour) in
      let day_of_week' := ((timestamp_local.(lt_weekday) + 1) mod 7)%Z in
      dining_behavior <-
        lift (get_object order.(to_diningOption) (Some "DINE_IN")
                         (fun b => get_default b "DINE_IN")) ;;
      let order_type' :=
        match dining_behavior with
        | Some b => map_toast_order_type b
        | None => "DINE_IN"
        end in
      total <- lift (to_cents check.(tc_totalAmount)) ;;
      subtotal <- lift (to_cents check.(tc_amount)) ;;
      tax <- lift (to_cents check.(tc_taxAmount)) ;;
      tip <- lift (to_cents check.(tc_tipAmount)) ;;
      net <- lift (to_cents check.(tc_amount)) ;;
      let order_instance :=
        mkOrder order_id_str TOAST location_name order.(to_guid)
                timestamp_utc business_date' hour_of_day' day_of_week'
                order_type' total subtotal tax tip net 0%Z
                (get_default payment.(tp_type) "UNKNOWN")
                payment.(tp_cardType)
                (if negb check.(tc_voided) then "COMPLETED" else "VOIDED") in
      let order_index := List.length r.(orders) in
      modify_registry (fun r => set_orders r (r.(orders) ++ [order_instance]))
      ;;;
      for_each check.(tc_selections) (toast_selection order_index)
  end.

(** One turn of [for order in orders_data]. *)
Definition toast_order (toast_location_map : Dict.t string string)
  (order : ToastOrder) : M unit :=
  location_name <- toast_order_location toast_location_map order ;;
  for_each order.(to_checks) (toast_check order location_name).

(** The body of the [try] statement of [process_toast]. *)
Definition process_toast_body (file : result ToastData) : M unit :=
  data <- lift file ;;
  toast_categories <- lift (extract_categories_from_toast_data data) ;;
  let comprehensive_mapping :=
    build_category_mapping_from_catalogs iter_set None
      (Some toast_categories) None in
  set_cache comprehensive_mapping ;;;
  toast_location_map <- toast_locations [] data.(td_locations) ;;
  for_each data.(td_orders) (toast_order toast_location_map).

(** [process_toast(file_path, registry)]; [file] is what opening and
    decoding the file gives. *)
Definition process_toast (file : result ToastData) : M unit :=
  try_except (process_toast_body file).

(* ------------------------------------------------------------------ *)
(** ** process_and_clean_data *)

(** The two other adapters, each a [try] statement of the same shape around
    its whole body: a change of the state that ends normally. *)
Variable process_doordash : World -> World.
Variable process_square : World -> World.

Variable sort_values : list row -> list row.
Variable token_sort_ratio : string -> string -> Z.

(** [process_and_clean_data], up to the registry it returns (the exports to
    files read the registry and leave it as it is). *)
Definition process_and_clean_data (toast_file : result ToastData)
  (initial_cache : option (Dict.t string string)) : ModelRegistry :=
  let w := mkWorld new_registry initial_cache in
  let w := fst (process_toast toast_file w) in
  let w := process_doordash w in
  let w := process_square w in
  let registry :=
    perform_entity_resolution_on_models sort_values token_sort_ratio
                                        w.(registry) in
  let registry := resolve_category_conflicts registry in
  _create_products_from_order_items registry.

End ToastAdapter.

(* ================================================================== *)
(** * Notions used in the statements *)
(* ================================================================== *)

(** The substrings that the fallback of [get_location_name] looks for. *)
Definition LOCATION_KEYWORDS : list string :=
  ["downtown"; "airport"; "mall"; "univ"; "university"].

(** The test of [resolve_category_conflicts] on the name of an item. *)
Definition has_burger (item : OrderItem) : bool :=
  PyStr.contains "burger" (PyStr.lower item.(canonical_name)).

(** Equal up to the case of the letters. *)
Definition ci_eq (u lit : string) : Prop := PyStr.lower u = PyStr.lower lit.

(** [name] contains "burger", whatever the case of its letters. *)
Definition mentions_burger (name : string) : Prop :=
  exists pre u post : string,
    name = (pre ++ u ++ post)%string /\ ci_eq u "burger".

(** The standard category that [mapping_step] computes for a label that is
    not yet a key of the mapping. *)
Definition classify (category : string) : option string :=
  match sget category BASE_CATEGORY_MAP with
  | Some v => Some v
  | None =>
      match partial_match category BASE_CATEGORY_MAP with
      | Some v => Some v
      | None => keyword_match category
      end
  end.

(** The elements of an optional set. *)
Definition elements (s : option (list string)) : list string :=
  match s with
  | Some l => l
  | None => []
  end.

(** Two optional sets with the same elements. *)
Definition same_set (s1 s2 : option (list string)) : Prop :=
  forall x, In x (elements s1) <-> In x (elements s2).

(** No string occurs twice in [l]. *)
Fixpoint distinct (l : list string) : bool :=
  match l with
  | [] => true
  | x :: r => negb (existsb (String.eqb x) r) && distinct r
  end.

(** An iteration order visits the elements of the set, and only them. *)
Definition enumerates (iter_set : list string -> list string) : Prop :=
  forall l x, In x (iter_set l) <-> In x l.

(** [r] is an integer nearest to [m * 2^e], and the even one of the two
    when [m * 2^e] lies halfway between two integers. *)
Definition nearest_even (m : positive) (e : Z) (r : Z) : Prop :=
  ((0 <= e -> r = Z.pos m * 2 ^ e) /\
   (e < 0 ->
    2 * Z.abs (r * 2 ^ (- e) - Z.pos m) <= 2 ^ (- e) /\
    (2 * Z.abs (r * 2 ^ (- e) - Z.pos m) = 2 ^ (- e) -> Z.even r = true)))%Z.

(** The strict order of the group keys. *)
Definition key_lt (a b : key) : Prop := key_compare a b = Lt.

Definition key_eq_dec (a b : key) : {a = b} + {a <> b}.
Proof. decide equality; apply string_dec. Defined.

(** The keys of a table ascend strictly. *)
Definition ascending (t : list row) : Prop :=
  StronglySorted key_lt (map fst t).

(** The count that a table gives for a key, 0 when the key is absent. *)
Definition table_count (k : key) (t : list row) : nat :=
  match Dict.get key_eqb k t with
  | Some n => n
  | None => 0
  end.

(** The counts of the rows are positive. *)
Definition positive_counts (t : list row) : Prop :=
  Forall (fun r => 0 < row_count r) t.

(** [a] may come before [b] in descending order of count. *)
Definition ge_count (a b : row) : Prop := row_count b <= row_count a.

(** A stable sort by descending count: insertion from the right, a row
    going before the rows of the same count that follow it in the input. *)
Fixpoint insert_desc (r : row) (l : list row) : list row :=
  match l with
  | [] => [r]
  | h :: t =>
      if (row_count h <=? row_count r)%nat then r :: l
      else h :: insert_desc r t
  end.

Definition sort_values_stable (l : list row) : list row :=
  fold_right insert_desc [] l.

Section WalkInvariant.

Variable token_sort_ratio : string -> string -> Z.
Variable pc : list row.

(** The score of the pair exceeds the threshold. *)
Definition similar (a b : string) : Prop := (88 < token_sort_ratio a b)%Z.

(** [(n, c)] is a key of the map that stands for itself. *)
Definition anchor (cm : Dict.t key string) (n c : string) : Prop :=
  Dict.get key_eqb (n, c) cm = Some n.

(** The invariant of the walk over the rows [pc]; [current] is the anchor
    whose inner loop is running, if any. *)
Record walk_inv (current : option key) (st : walk_state) : Prop := {
  inv_processed :
    forall k, in_processed k (snd st) = Dict.mem key_eqb k (fst st);
  inv_rows :
    forall k v, Dict.get key_eqb k (fst st) = Some v ->
                exists cnt, In (k, cnt) pc;
  inv_merged :
    forall n2 c n, Dict.get key_eqb (n2, c) (fst st) = Some n -> n <> n2 ->
                   similar n n2 /\ anchor (fst st) n c;
  inv_apart :
    forall n1 n2 c, n1 <> n2 -> anchor (fst st) n1 c ->
                    anchor (fst st) n2 c ->
                    ~ similar n1 n2 \/ ~ similar n2 n1;
  inv_swept :
    forall n c, anchor (fst st) n c -> current <> Some (n, c) ->
                forall r2, In r2 pc -> row_category r2 = c ->
                           similar n (row_name r2) ->
                           Dict.mem key_eqb (row_name r2, c) (fst st) = true
}.

End WalkInvariant.

(** The registry [r'] holds the orders and the items of [r], followed by
    more orders and more items. *)
Definition registry_extends (r r' : ModelRegistry) : Prop :=
  (exists added, r'.(orders) = r.(orders) ++ added) /\
  (exists added, r'.(order_items) = r.(order_items) ++ added).

Definition orders_extend (w w' : World) : Prop :=
  registry_extends w.(registry) w'.(registry).

(** A statement that only ever appends to the lists of orders and items. *)
Definition grows {A} (m : M A) : Prop :=
  forall w, orders_extend w (fst (m w)).

(** The last character of [u], or [prev] when [u] is empty. *)
Fixpoint last_char (prev : option ascii) (u : string) : option ascii :=
  match u with
  | EmptyString => prev
  | String c u' => last_char (Some c) u'
  end.

(** [.] of the pattern: any character but the newline. *)
Definition not_newline (c : ascii) : bool := negb (Ascii.eqb c newline).

(** [s] starts with an occurrence of the pattern whose groups are [g1] and
    [g2]: a text without newline, an integer, whitespace if any, and a unit
    word in any case that ends at a word boundary. *)
Definition pattern_at (g1 g2 s : string) : Prop :=
  exists ws u rest lit : string,
    s = (g1 ++ g2 ++ ws ++ u ++ rest)%string /\
    PyStr.all_chars not_newline g1 = true /\
    g2 <> EmptyString /\
    PyStr.all_chars PyStr.is_digit g2 = true /\
    PyStr.all_chars PyStr.is_space ws = true /\
    In lit UNIT_WORDS /\ ci_eq u lit /\
    word_boundary (last_char None u) rest = true.

(** The pattern occurs somewhere in [raw_name]. *)
Definition pattern_in (g1 g2 raw_name : string) : Prop :=
  exists before s : string,
    raw_name = (before ++ s)%string /\ pattern_at g1 g2 s.

(** [s] starts with a unit word that ends at a word boundary. *)
Definition unit_at (s : string) : Prop :=
  exists u rest lit : string,
    s = (u ++ rest)%string /\ In lit UNIT_WORDS /\ ci_eq u lit /\
    word_boundary (last_char None u) rest = true.

(** [s] starts with whitespace, if any, and a unit word. *)
Definition ws_unit_at (s : string) : Prop :=
  exists ws s' : string,
    s = (ws ++ s')%string /\ PyStr.all_chars PyStr.is_space ws = true /\
    unit_at s'.

(** [s] starts with an integer, whitespace if any, and a unit word; [g2]
    is the integer. *)
Definition number_at (g2 s : string) : Prop :=
  g2 <> EmptyString /\ PyStr.all_chars PyStr.is_digit g2 = true /\
  exists s' : string, s = (g2 ++ s')%string /\ ws_unit_at s'.

(** The occurrence that the search returns: the leftmost start and, from
    there, the shortest text before the integer. *)
Definition first_pattern (g1 g2 raw_name : string) : Prop :=
  exists before s : string,
    raw_name = (before ++ s)%string /\ pattern_at g1 g2 s /\
    (forall (before' s' g1' g2' : string),
       raw_name = (before' ++ s')%string -> pattern_at g1' g2' s' ->
       String.length before <= String.length before') /\
    (forall g1' g2' : string,
       pattern_at g1' g2' s -> String.length g1 <= String.length g1').

(* ================================================================== *)
(** * Definitions that follow the words of the specification *)
(* ================================================================== *)

(** Following the spec's words: the integer nearest to [m * 2^e], a tie
    going away from zero ([m] is positive). *)
Definition round_half_away (m : positive) (e : Z) : Z :=
  (if 0 <=? e then Z.pos m * 2 ^ e
   else
     let d := 2 ^ (- e) in
     let q := Z.pos m / d in
     let r := Z.pos m mod d in
     if 2 * r <? d then q else q + 1)%Z.

(** Following the spec's words: a float scaled by 100 and rounded half away
    from zero. *)
Definition spec_round_cents (x : float) : result Z :=
  match Prim2SF (PrimFloat.mul x 100%float) with
  | S754_zero _ => Ok 0%Z
  | S754_finite s m e =>
      Ok (if s then (- round_half_away m e)%Z else round_half_away m e)
  | S754_infinity _ => Raise OverflowError
  | S754_nan => Raise ValueError
  end.

(** Following the spec's words: one more occurrence of [k] in a table kept
    in order of first appearance. *)
Fixpoint count_append (k : key) (t : list row) : list row :=
  match t with
  | [] => [(k, 1)]
  | (k', n) :: t' =>
      if key_eqb k k' then (k', S n) :: t' else (k', n) :: count_append k t'
  end.

(** Following the spec's words: the groups in descending order of count,
    groups of equal count in the order of their first appearance among the
    order items. *)
Definition spec_walk_order (items : list OrderItem) : list row :=
  sort_values_stable
    (fold_left (fun t k => count_append k t) (map item_key items) []).

Fixpoint rev_str (s : string) : string :=
  match s with
  | EmptyString => EmptyString
  | String c s' => (rev_str s' ++ String c EmptyString)%string
  end.

(** [s] without its prefix [p], the case of the letters apart. *)
Fixpoint drop_prefix_ci (p s : string) : option string :=
  match p, s with
  | EmptyString, _ => Some s
  | String a p', String c s' =>
      if Ascii.eqb (PyStr.lower_char c) (PyStr.lower_char a)
      then drop_prefix_ci p' s' else None
  | String _ _, EmptyString => None
  end.

(** Following the spec's words: [raw_name] ends with an integer followed by
    a unit-of-count word, with whitespace between them if any. *)
Definition spec_trailing_quantity (raw_name : string) : bool :=
  existsb (fun unit_word =>
             match drop_prefix_ci (rev_str unit_word) (rev_str raw_name) with
             | Some body =>
                 match PyStr.lstrip body with
                 | String c _ => PyStr.is_digit c
                 | EmptyString => false
                 end
             | None => false
             end) UNIT_WORDS.

(* ================================================================== *)
(** * Example data *)
(* ================================================================== *)

(** Toast reports "Downtown" first, DoorDash second. *)
Definition two_writers_first : ModelRegistry :=
  get_or_create_location new_registry "Downtown" TOAST "loc_downtown_001"
    (Some "America/New_York") (Some "1 Main St") (Some "New York")
    (Some "NY") (Some "10001") (Some "US").

Definition two_writers_second : ModelRegistry :=
  get_or_create_location two_writers_first "Downtown" DOORDASH
    "str_downtown_001" (Some "America/Chicago") (Some "9 Lake Ave") None
    None None (Some "US").

(** The one-character string U+00E9. *)
Definition e_acute : string := String (ascii_of_N 233) EmptyString.

(** The float that the literal [12.999] denotes. *)
Definition f_12_999 : float := 0x1.9ff7ced916873p+3%float.

(** An order item with a name and a category. *)
Definition an_item (name : string) (c : ProductCategory) : OrderItem :=
  mkOrderItem 0 None name name c 1 100 100.

(** A stand-in for the score of the fuzzy-matching library: names of the
    same length are taken to be similar. *)
Definition toy_ratio (a b : string) : Z :=
  if Nat.eqb (String.length a) (String.length b) then 95%Z else 40%Z.

Definition cola_coke_fries : list OrderItem :=
  [an_item "cola" BEVERAGES; an_item "coke" BEVERAGES;
   an_item "cola" BEVERAGES; an_item "wrap" SANDWICHES].

Definition fries_then_cola : list OrderItem :=
  [an_item "fries" SIDES; an_item "cola" BEVERAGES].

Definition cola_then_fries : list OrderItem :=
  [an_item "cola" BEVERAGES; an_item "fries" SIDES].

(** Stand-ins for the time functions of the libraries. *)
Definition at_epoch (_ : option string) : Z := 0%Z.

Definition local_at_epoch (_ : Z) (_ : string) : LocalTime :=
  mkLocalTime 0 0 3.

Definition date_at_epoch (_ : string) : result Z := Ok 0%Z.

(** A check with one selection, "Churros 12pcs". *)
Definition a_check (guid : string) : ToastCheck :=
  mkToastCheck guid [mkToastPayment (Val "CREDIT") (Some "VISA")]
    (Some "2024-01-15T12:00:00Z") None (VFloat 12.5%float) (VInt 1100)
    (VInt 100) (VInt 50) false
    [mkToastSelection false (Some "Churros 12pcs") Missing 1
       (Val (Val "Desserts")) (VInt 900)].

(** A Toast export of two orders; the second has [diningOption: null]. *)
Definition second_order_fails : ToastData :=
  mkToastData
    [mkToastLocation (Some "g1") (Some "Downtown") (Val "America/New_York")
                     Missing]
    [mkToastOrder "o1" (Some "g1") None None (Val (Val "TAKE_OUT"))
                  [a_check "c1"];
     mkToastOrder "o2" (Some "g1") None None Null [a_check "c2"]].

(* ================================================================== *)
(** * models.py: the other helpers of the registry and of the mappers *)
(* ================================================================== *)

(** [map_doordash_status] *)
Definition map_doordash_status (order_status : string) : string :=
  if existsb (String.eqb order_status)
             ["DELIVERED"; "PICKED_UP"; "COMPLETED"; "FULFILLED"]
  then "COMPLETED"
  else order_status.

(** [map_toast_status] *)
Definition map_toast_status (voided : bool) : string :=
  if voided then "VOIDED" else "COMPLETED".

(** [ModelRegistry.get_location_timezone_map]: the entry of every location
    has the key ['timezone'], so the default of [meta.get] is never taken. *)
Definition get_location_timezone_map (r : ModelRegistry)
  : Dict.t string (option string) :=
  map (fun entry => (fst entry, (snd entry).(m_timezone)))
      r.(location_metadata).

(** [str.upper] on one character.  The capital of U+00DF is the two
    letters "SS".  The capitals of U+00B5 and U+00FF lie outside the code
    points 0..255 of the embedding; the two characters are left as they
    are, which no comparison with the ASCII literals of the code can tell
    from their capitals. *)
Definition upper_char (c : ascii) : string :=
  let n := PyStr.code c in
  if ((97 <=? n) && (n <=? 122))%N
  then String (ascii_of_N (n - 32)) EmptyString
  else if (n =? 223)%N then "SS"
  else if ((224 <=? n) && (n <=? 254) && negb (n =? 247))%N
       then String (ascii_of_N (n - 32)) EmptyString
  else String c EmptyString.

(** [s.upper()] *)
Fixpoint upper (s : string) : string :=
  match s with
  | EmptyString => EmptyString
  | String c s' => (upper_char c ++ upper s')%string
  end.

(** [map_doordash_order_type] *)
Definition map_doordash_order_type (fulfillment_method : string) : string :=
  if PyStr.contains "DELIVERY" (upper fulfillment_method) then "DELIVERY"
  else "PICKUP".

(** [map_square_order_type] *)
Definition map_square_order_type (fulfillment_type : string) : string :=
  let fulfillment_upper := upper fulfillment_type in
  if String.eqb fulfillment_upper "PICKUP" then "PICKUP"
  else if PyStr.contains "DELIVERY" fulfillment_upper then "DELIVERY"
  else if PyStr.contains "DINE" fulfillment_upper
          || String.eqb fulfillment_upper "DINE_IN" then "DINE_IN"
  else "DINE_IN".

(** [map_square_status]; [state] may be [None]. *)
Definition map_square_status (state : option string) : string :=
  let state_upper :=
    match state with
    | Some s => if PyStr.truthy s then upper s else EmptyString
    | None => EmptyString
    end in
  if existsb (String.eqb state_upper) ["COMPLETED"; "FULFILLED"]
  then "COMPLETED"
  else if String.eqb state_upper "CANCELLED" then "CANCELLED"
  else if String.eqb state_upper "REFUNDED" then "REFUNDED"
  else "COMPLETED".

(** The unit price that the Toast and the DoorDash adapters compute from
    the price of the line; [//] is the floor division. *)
Definition unit_price_of (total_price quantity adj_qty : Z) : Z :=
  (if quantity <? adj_qty
   then if 0 <? adj_qty then total_price / adj_qty else 0
   else if 0 <? quantity then total_price / quantity else total_price)%Z.

(* ================================================================== *)
(** * doordash_transformer.py *)
(* ================================================================== *)

(** The records of the DoorDash export.  A field read with [get] is an
    [option] when the code treats an absent key and [null] alike, a
    [jfield] when it does not; a field of a plain type holds the value that
    [get] returns, the default of the call when the key is absent. *)
Record DoorDashAddress := mkDoorDashAddress {
  da_street : option string;
  da_city : option string;
  da_state : option string;
  da_zip_code : option string;
  da_country : jfield string
}.

Record DoorDashStore := mkDoorDashStore {
  ds_store_id : option string;
  ds_name : option string;
  ds_timezone : jfield string;
  ds_address : jfield DoorDashAddress
}.

Record DoorDashItem := mkDoorDashItem {
  di_name : jfield string;
  di_quantity : Z;
  di_category : jfield string;
  di_total_price : pyval
}.

Record DoorDashOrder := mkDoorDashOrder {
  do_external_delivery_id : string;
  do_store_id : jfield string;
  do_created_at : option string;
  do_order_fulfillment_method : jfield string;
  do_order_status : string;
  do_total_charged_to_consumer : pyval;
  do_order_subtotal : pyval;
  do_tax_amount : pyval;
  do_dasher_tip : pyval;
  do_merchant_payout : pyval;
  do_commission : pyval;
  do_order_items : list DoorDashItem
}.

Record DoorDashData := mkDoorDashData {
  dd_stores : list DoorDashStore;
  dd_orders : list DoorDashOrder
}.

(** [extract_categories_from_doordash_data(data, clean_text)]: the names
    added to the set, in the order of the traversal. *)
Definition doordash_item_category (item : DoorDashItem) : list string :=
  match get_default item.(di_category) EmptyString with
  | Some category =>
      if PyStr.truthy category
      then let cleaned := clean_text category in
           if PyStr.truthy cleaned then [cleaned] else []
      else []
  | None => []
  end.

Definition extract_categories_from_doordash_data (data : DoorDashData)
  : list string :=
  flat_map (fun order => flat_map doordash_item_category
                                  order.(do_order_items))
           data.(dd_orders).

Section DoorDashAdapter.

Variable iter_set : list string -> list string.
Variable normalize_timestamp : option string -> Z.
Variable to_local : Z -> string -> LocalTime.

(** One turn of [for store in stores_data]; the result is the local
    [store_location_map]. *)
Definition doordash_store (store_location_map : Dict.t string string)
  (store : DoorDashStore) : M (Dict.t string string) :=
  let store_id := store.(ds_store_id) in
  let store_name := store.(ds_name) in
  let timezone_str := get_default store.(ds_timezone) DEFAULT_TZ in
  match store_id, store_name with
  | Some i, Some n =>
      if truthy store_id && truthy store_name then
        a <- lift (get_object store.(ds_address)
                     (None, None, None, None, Some "US")
                     (fun a => (a.(da_street), a.(da_city), a.(da_state),
                                a.(da_zip_code),
                                get_default a.(da_country) "US")));;
        let '(street, city', state', zip, country') := a in
        modify_registry (fun r =>
          get_or_create_location r n DOORDASH i timezone_str street city'
                                 state' zip country') ;;;
        ret (sset i n store_location_map)
      else ret store_location_map
  | _, _ => ret store_location_map
  end.

Fixpoint doordash_stores (store_location_map : Dict.t string string)
  (stores_data : list DoorDashStore) : M (Dict.t string string) :=
  match stores_data with
  | [] => ret store_location_map
  | store :: rest =>
      m <- doordash_store store_location_map store ;;
      doordash_stores m rest
  end.

(** [store_location_map.get(store_id) or get_location_name(store_id,
    "DoorDash")], and the location fetched or created under that name. *)
Definition doordash_order_location (store_location_map : Dict.t string string)
  (order : DoorDashOrder) : M string :=
  match get_default order.(do_store_id) EmptyString with
  | None => raise AttributeError
  | Some store_id =>
      let location_name :=
        match sget store_id store_location_map with
        | Some n => if PyStr.truthy n then n
                    else get_location_name store_id "DoorDash"
        | None => get_location_name store_id "DoorDash"
        end in
      r <- get_registry ;;
      (if negb (smem location_name r.(locations))
       then modify_registry (fun r =>
              get_or_create_location r location_name DOORDASH store_id
                (Some DEFAULT_TZ) None None None None (Some "US"))
       else ret tt) ;;;
      ret location_name
  end.

(** One turn of [for item in order_items]. *)
Definition doordash_item (order_index : nat) (item : DoorDashItem)
  : M unit :=
  match get_default item.(di_name) "Unknown" with
  | None => raise TypeError
  | Some raw_name =>
      let quantity := item.(di_quantity) in
      baked <- lift (extract_baked_quantity raw_name quantity) ;;
      let (clean_name, adj_qty) := baked in
      cache <- get_cache ;;
      let category_str :=
        normalize_category cache (get_default item.(di_category) "unknown")
                           (Some clean_text) in
      let category_enum :=
        match ProductCategory_of_value category_str with
        | Some c => c
        | None => UNKNOWN
        end in
      total_price <- lift (to_cents item.(di_total_price)) ;;
      let unit_price := unit_price_of total_price quantity adj_qty in
      modify_registry (fun r =>
        set_order_items r
          (r.(order_items) ++
           [mkOrderItem order_index None raw_name clean_name category_enum
                        adj_qty unit_price total_price]))
  end.

(** One turn of [for order in orders_data]. *)
Definition doordash_order (store_location_map : Dict.t string string)
  (order : DoorDashOrder) : M unit :=
  let external_id := order.(do_external_delivery_id) in
  let order_id_str := ("DD_" ++ external_id)%string in
  location_name <- doordash_order_location store_location_map order ;;
  r <- get_registry ;;
  match sget location_name r.(locations) with
  | None => raise KeyError
  | Some location =>
      let timestamp_utc := normalize_timestamp order.(do_created_at) in
      let tz_str :=
        match or_else location.(timezone) (Some DEFAULT_TZ) with
        | Some z => z
        | None => DEFAULT_TZ
        end in
      let timestamp_local := to_local timestamp_utc tz_str in
      let business_date' := timestamp_local.(lt_date) in
      let hour_of_day' := timestamp_local.(lt_hour) in
      let day_of_week' := ((timestamp_local.(lt_weekday) + 1) mod 7)%Z in
      match get_default order.(do_order_fulfillment_method)
                        "MERCHANT_DELIVERY" with
      | None => raise AttributeError
      | Some fulfillment_method =>
          let order_type' := map_doordash_order_type fulfillment_method in
          let status' := map_doordash_status order.(do_order_status) in
          total <- lift (to_cents order.(do_total_charged_to_consumer)) ;;
          subtotal <- lift (to_cents order.(do_order_subtotal)) ;;
          tax <- lift (to_cents order.(do_tax_amount)) ;;
          tip <- lift (to_cents order.(do_dasher_tip)) ;;
          net <- lift (to_cents order.(do_merchant_payout)) ;;
          fee <- lift (to_cents order.(do_commission)) ;;
          let order_instance :=
            mkOrder order_id_str DOORDASH location_name external_id
                    timestamp_utc business_date' hour_of_day' day_of_week'
                    order_type' total subtotal tax tip net fee
                    (Some "CREDIT") None status' in
          let order_index := List.length r.(orders) in
          modify_registry
            (fun r => set_orders r (r.(orders) ++ [order_instance])) ;;;
          for_each order.(do_order_items) (doordash_item order_index)
      end
  end.

(** The body of the [try] statement of [process_doordash]. *)
Definition process_doordash_body (file : result DoorDashData) : M unit :=
  data <- lift file ;;
  let doordash_categories := extract_categories_from_doordash_data data in
  let comprehensive_mapping :=
    build_category_mapping_from_catalogs iter_set None None
      (Some doordash_categories) in
  set_cache comprehensive_mapping ;;;
  store_location_map <- doordash_stores [] data.(dd_stores) ;;
  for_each data.(dd_orders) (doordash_order store_location_map).

(** [process_doordash(file_path, registry)] *)
Definition process_doordash (file : result DoorDashData) : M unit :=
  try_except (process_doordash_body file).

End DoorDashAdapter.

(* ================================================================== *)
(** * square_transformer.py *)
(* ================================================================== *)

(** Sequencing of computations that can raise and do not touch the
    registry. *)
Definition and_then {A B} (r : result A) (k : A -> result B) : result B :=
  match r with
  | Ok a => k a
  | Raise e => Raise e
  end.

(** A left fold whose step can raise. *)
Fixpoint fold_result {A B} (f : A -> B -> result A) (xs : list B) (acc : A)
  : result A :=
  match xs with
  | [] => Ok acc
  | x :: xs' => and_then (f acc x) (fold_result f xs')
  end.

(** The records of the Square exports (see the DoorDash records for the
    reading of the field types). *)
Record SquareCategoryData := mkSquareCategoryData {
  scd_name : jfield string
}.

Record SquareVariation := mkSquareVariation {
  sv_id : option string
}.

Record SquareItemData := mkSquareItemData {
  sid_name : jfield string;
  sid_category_id : option string;
  sid_variations : list SquareVariation
}.

Record SquareObject := mkSquareObject {
  so_type : option string;
  so_id : option string;
  so_category_data : jfield SquareCategoryData;
  so_item_data : jfield SquareItemData
}.

Record SquareAddress := mkSquareAddress {
  sa_address_line_1 : option string;
  sa_locality : option string;
  sa_administrative_district_level_1 : option string;
  sa_postal_code : option string;
  sa_country : jfield string
}.

Record SquareLocation := mkSquareLocation {
  sl_id : option string;
  sl_name : option string;
  sl_timezone : jfield string;
  sl_address : jfield SquareAddress
}.

Record SquareCard := mkSquareCard {
  scard_card_brand : option string;
  scard_last_4 : option string
}.

Record SquareCardDetails := mkSquareCardDetails {
  scdt_card : jfield SquareCard
}.

Record SquarePayment := mkSquarePayment {
  sp_order_id : option string;
  sp_source_type : jfield string;
  sp_card_details : jfield SquareCardDetails
}.

Record SquareMoney := mkSquareMoney {
  sm_amount : pyval
}.

Record SquareFulfillment := mkSquareFulfillment {
  sf_type : jfield string
}.

Record SquareLineItem := mkSquareLineItem {
  sli_catalog_object_id : option string;
  sli_name : jfield string;
  sli_quantity : string;
  sli_gross_sales_money : jfield SquareMoney
}.

Record SquareOrder := mkSquareOrder {
  sqo_id : string;
  sqo_location_id : jfield string;
  sqo_created_at : option string;
  sqo_closed_at : option string;
  sqo_fulfillments : list SquareFulfillment;
  sqo_total_money : jfield SquareMoney;
  sqo_total_tax_money : jfield SquareMoney;
  sqo_total_tip_money : jfield SquareMoney;
  sqo_state : jfield string;
  sqo_line_items : list SquareLineItem
}.

(** [obj.get('category_data', {}).get('name', '')] *)
Definition square_category_name (obj : SquareObject)
  : result (option string) :=
  get_object obj.(so_category_data) (Some EmptyString)
             (fun d => get_default d.(scd_name) EmptyString).

(** [extract_categories_from_square_catalog(catalog_data, clean_text)]:
    the names added to the set, in the order of the traversal. *)
Definition square_object_category (obj : SquareObject)
  : result (list string) :=
  if opt_eqb obj.(so_type) (Some "CATEGORY") then
    and_then (square_category_name obj) (fun cat_name =>
      match cat_name with
      | Some n =>
          if PyStr.truthy n
          then let cleaned := clean_text n in
               Ok (if PyStr.truthy cleaned then [cleaned] else [])
          else Ok []
      | None => Ok []
      end)
  else Ok [].

Definition extract_categories_from_square_catalog
  (objects : list SquareObject) : result (list string) :=
  collect square_object_category objects.

(** The local dictionaries of [process_square]: [category_map] (category
    id to name), [item_category_map] (item id to category id) and
    [catalog_map] (item or variation id to name and category id). *)
Definition category_map_t := Dict.t string (option string).
Definition item_category_map_t := Dict.t string string.
Definition catalog_map_t := Dict.t string (option string * option string).

(** One turn of the first pass over the catalog objects. *)
Definition square_first_pass
  (maps : category_map_t * item_category_map_t) (obj : SquareObject)
  : result (category_map_t * item_category_map_t) :=
  let (category_map, item_category_map) := maps in
  let obj_type := obj.(so_type) in
  if opt_eqb obj_type (Some "CATEGORY") then
    let cat_id := obj.(so_id) in
    and_then (square_category_name obj) (fun cat_name =>
      match cat_id with
      | Some i =>
          if PyStr.truthy i
          then Ok (sset i cat_name category_map, item_category_map)
          else Ok maps
      | None => Ok maps
      end)
  else if opt_eqb obj_type (Some "ITEM") then
    let item_id := obj.(so_id) in
    and_then (get_object obj.(so_item_data) None
                         (fun d => d.(sid_category_id)))
      (fun category_id =>
         match item_id, category_id with
         | Some i, Some c =>
             if PyStr.truthy i && PyStr.truthy c
             then Ok (category_map, sset i c item_category_map)
             else Ok maps
         | _, _ => Ok maps
         end)
  else Ok maps.

(** [item_category_map.get(item_id)] *)
Definition item_category_of (item_category_map : item_category_map_t)
  (item_id : option string) : option string :=
  match item_id with
  | Some i => sget i item_category_map
  | None => None
  end.

(** One turn of [for var in variations]. *)
Definition square_variation (item_category_map : item_category_map_t)
  (item_id name category_id : option string) (catalog_map : catalog_map_t)
  (var : SquareVariation) : catalog_map_t :=
  match var.(sv_id) with
  | Some v =>
      if PyStr.truthy v
      then let var_category_id :=
             or_else category_id
                     (item_category_of item_category_map item_id) in
           sset v (name, var_category_id) catalog_map
      else catalog_map
  | None => catalog_map
  end.

(** One turn of the second pass over the catalog objects. *)
Definition square_second_pass (item_category_map : item_category_map_t)
  (catalog_map : catalog_map_t) (obj : SquareObject)
  : result catalog_map_t :=
  if opt_eqb obj.(so_type) (Some "ITEM") then
    let item_id := obj.(so_id) in
    and_then (get_object obj.(so_item_data) (Some EmptyString, None, [])
                (fun d => (get_default d.(sid_name) EmptyString,
                           d.(sid_category_id), d.(sid_variations))))
      (fun item_data =>
         let '(name, category_id, variations) := item_data in
         let catalog_map :=
           match item_id with
           | Some i =>
               if PyStr.truthy i
               then sset i (name, category_id) catalog_map
               else catalog_map
           | None => catalog_map
           end in
         Ok (fold_left (square_variation item_category_map item_id name
                                         category_id)
                       variations catalog_map))
  else Ok catalog_map.

(** [payment.get('card_details', {}).get('card', {}).get(key)] *)
Definition square_card_field (key : SquareCard -> option string)
  (payment : SquarePayment) : result (option string) :=
  and_then (get_object payment.(sp_card_details) Missing
                       (fun d => d.(scdt_card)))
           (fun card => get_object card None key).

(** One turn of [for payment in payments_data.get('payments', [])]; an
    entry of [payments_map] is the method and the card brand. *)
Definition square_payment
  (payments_map : Dict.t string (option string * option string))
  (payment : SquarePayment)
  : result (Dict.t string (option string * option string)) :=
  match payment.(sp_order_id) with
  | Some order_id =>
      if PyStr.truthy order_id then
        let method := get_default payment.(sp_source_type) "UNKNOWN" in
        and_then (square_card_field scard_card_brand payment)
          (fun card_brand' =>
             and_then (square_card_field scard_last_4 payment)
               (fun _ => Ok (sset order_id (method, card_brand')
                                  payments_map)))
      else Ok payments_map
  | None => Ok payments_map
  end.

(** The order type that [process_square] derives from the fulfillments. *)
Definition square_order_type (fulfillments : list SquareFulfillment)
  : result string :=
  match fulfillments with
  | [] => Ok "DINE_IN"
  | fulfillment :: _ =>
      match get_default fulfillment.(sf_type) EmptyString with
      | None => Raise AttributeError
      | Some fulfillment_type =>
          if String.eqb fulfillment_type "PICKUP" then Ok "TAKE_OUT"
          else if String.eqb fulfillment_type "DELIVERY"
                  || PyStr.contains "DELIVERY" (upper fulfillment_type)
          then Ok "DELIVERY"
          else if String.eqb fulfillment_type "DINE_IN"
                  || PyStr.contains "DINE" (upper fulfillment_type)
          then Ok "DINE_IN"
          else Ok "DINE_IN"
      end
  end.

(** [to_cents(money.get('amount', 0))] for [money = o.get(key, {})] *)
Definition square_amount (money : jfield SquareMoney) : result Z :=
  and_then (get_object money (VInt 0) (fun m => m.(sm_amount))) to_cents.

(** The unit price that the Square adapter computes. *)
Definition square_unit_price (total_line_price quantity adj_qty : Z) : Z :=
  (if 0 <? adj_qty then total_line_price / adj_qty
   else if 0 <? quantity then total_line_price / quantity
        else total_line_price)%Z.

Section SquareAdapter.

Variable iter_set : list string -> list string.
Variable normalize_timestamp : option string -> Z.
Variable to_local : Z -> string -> LocalTime.

(** [int(float(quantity_str))], the reading of a quantity by the two
    built-in conversions. *)
Variable int_of_float_str : string -> result Z.

(** One turn of [for loc in locations_data.get('locations', [])]. *)
Definition square_location (square_location_map : Dict.t string string)
  (loc : SquareLocation) : M (Dict.t string string) :=
  let loc_id := loc.(sl_id) in
  let loc_name := loc.(sl_name) in
  let timezone_str := get_default loc.(sl_timezone) DEFAULT_TZ in
  match loc_id, loc_name with
  | Some i, Some n =>
      if truthy loc_id && truthy loc_name then
        a <- lift (get_object loc.(sl_address)
                     (None, None, None, None, Some "US")
                     (fun a => (a.(sa_address_line_1), a.(sa_locality),
                                a.(sa_administrative_district_level_1),
                                a.(sa_postal_code),
                                get_default a.(sa_country) "US")));;
        let '(line1, city', state', zip, country') := a in
        modify_registry (fun r =>
          get_or_create_location r n SQUARE i timezone_str line1 city' state'
                                 zip country') ;;;
        ret (sset i n square_location_map)
      else ret square_location_map
  | _, _ => ret square_location_map
  end.

Fixpoint square_locations (square_location_map : Dict.t string string)
  (locations_data : list SquareLocation) : M (Dict.t string string) :=
  match locations_data with
  | [] => ret square_location_map
  | loc :: rest =>
      m <- square_location square_location_map loc ;;
      square_locations m rest
  end.

(** [square_location_map.get(location_sq_id, get_location_name(...))], the
    default being computed first, and the location fetched or created under
    that name. *)
Definition square_order_location (square_location_map : Dict.t string string)
  (order : SquareOrder) : M string :=
  match get_default order.(sqo_location_id) EmptyString with
  | None => raise AttributeError
  | Some location_sq_id =>
      let location_name :=
        match sget location_sq_id square_location_map with
        | Some n => n
        | None => get_location_name location_sq_id "Square"
        end in
      r <- get_registry ;;
      (if negb (smem location_name r.(locations))
       then modify_registry (fun r =>
              get_or_create_location r location_name SQUARE location_sq_id
                (Some DEFAULT_TZ) None None None None (Some "US"))
       else ret tt) ;;;
      ret location_name
  end.

(** One turn of [for line_item in line_items]. *)
Definition square_line_item (catalog_map : catalog_map_t)
  (category_map : category_map_t) (order_index : nat)
  (line_item : SquareLineItem) : M unit :=
  let catalog_obj_id := line_item.(sli_catalog_object_id) in
  let catalog_item :=
    match catalog_obj_id with
    | Some i => if PyStr.truthy i then sget i catalog_map else None
    | None => None
    end in
  let (raw_name, category_id) :=
    match catalog_item with
    | Some (name, category_id) => (name, category_id)
    | None => (get_default line_item.(sli_name) "Unknown Item", None)
    end in
  cache <- get_cache ;;
  let category_str :=
    match category_id with
    | Some c =>
        if PyStr.truthy c
        then match sget c category_map with
             | Some cat_name =>
                 normalize_category cache cat_name (Some clean_text)
             | None => "unknown"
             end
        else "unknown"
    | None => "unknown"
    end in
  let category_enum :=
    match ProductCategory_of_value category_str with
    | Some c => c
    | None => UNKNOWN
    end in
  quantity <- lift (int_of_float_str line_item.(sli_quantity)) ;;
  match raw_name with
  | None => raise TypeError
  | Some raw_name =>
      baked <- lift (extract_baked_quantity raw_name quantity) ;;
      let (clean_name, adj_qty) := baked in
      total_line_price <-
        lift (square_amount line_item.(sli_gross_sales_money)) ;;
      let unit_price :=
        square_unit_price total_line_price quantity adj_qty in
      let total_price := total_line_price in
      modify_registry (fun r =>
        set_order_items r
          (r.(order_items) ++
           [mkOrderItem order_index None raw_name clean_name category_enum
                        adj_qty unit_price total_price]))
  end.

(** One turn of [for order in orders_list_data]. *)
Definition square_order (catalog_map : catalog_map_t)
  (category_map : category_map_t)
  (payments_map : Dict.t string (option string * option string))
  (square_location_map : Dict.t string string) (order : SquareOrder)
  : M unit :=
  let order_sq_id := order.(sqo_id) in
  let order_id_str := ("SQ_" ++ order_sq_id)%string in
  location_name <- square_order_location square_location_map order ;;
  r <- get_registry ;;
  match sget location_name r.(locations) with
  | None => raise KeyError
  | Some location =>
      let timestamp_utc :=
        if truthy order.(sqo_closed_at)
        then normalize_timestamp order.(sqo_closed_at)
        else normalize_timestamp order.(sqo_created_at) in
      let tz_str :=
        match or_else location.(timezone) (Some DEFAULT_TZ) with
        | Some z => z
        | None => DEFAULT_TZ
        end in
      let timestamp_local := to_local timestamp_utc tz_str in
      let business_date' := timestamp_local.(lt_date) in
      let hour_of_day' := timestamp_local.(lt_hour) in
      let day_of_week' := ((timestamp_local.(lt_weekday) + 1) mod 7)%Z in
      order_type' <- lift (square_order_type order.(sqo_fulfillments)) ;;
      total_amount <- lift (square_amount order.(sqo_total_money)) ;;
      tax_amount <- lift (square_amount order.(sqo_total_tax_money)) ;;
      tip_amount <- lift (square_amount order.(sqo_total_tip_money)) ;;
      let subtotal := (total_amount - tax_amount - tip_amount)%Z in
      let net_revenue := subtotal in
      let payment_info := sget order_sq_id payments_map in
      let square_state := get_default order.(sqo_state) "COMPLETED" in
      let status' := map_square_status square_state in
      let order_instance :=
        mkOrder order_id_str SQUARE location_name order_sq_id
                timestamp_utc business_date' hour_of_day' day_of_week'
                order_type' total_amount subtotal tax_amount tip_amount
                net_revenue 0%Z
                (match payment_info with
                 | Some (method, _) => method
                 | None => Some "UNKNOWN"
                 end)
                (match payment_info with
                 | Some (_, card_brand') => card_brand'
                 | None => None
                 end)
                status' in
      let order_index := List.length r.(orders) in
      modify_registry
        (fun r => set_orders r (r.(orders) ++ [order_instance])) ;;;
      for_each order.(sqo_line_items)
               (square_line_item catalog_map category_map order_index)
  end.

(** The body of the [try] statement of [process_square]; each argument is
    what opening and decoding one of the four files gives: the objects of
    the catalog, the locations, the payments and the orders. *)
Definition process_square_body
  (orders_file : result (list SquareOrder))
  (catalog_file : result (list SquareObject))
  (locations_file : result (list SquareLocation))
  (payments_file : result (list SquarePayment)) : M unit :=
  objects <- lift catalog_file ;;
  square_categories <- lift (extract_categories_from_square_catalog objects) ;;
  let comprehensive_mapping :=
    build_category_mapping_from_catalogs iter_set (Some square_categories)
      None None in
  set_cache comprehensive_mapping ;;;
  maps <- lift (fold_result square_first_pass objects ([], [])) ;;
  let (category_map, item_category_map) := maps in
  catalog_map <-
    lift (fold_result (square_second_pass item_category_map) objects []) ;;
  locations_data <- lift locations_file ;;
  square_location_map <- square_locations [] locations_data ;;
  payments_data <- lift payments_file ;;
  payments_map <- lift (fold_result square_payment payments_data []) ;;
  orders_list_data <- lift orders_file ;;
  for_each orders_list_data
           (square_order catalog_map category_map payments_map
                         square_location_map).

(** [process_square(orders_path, catalog_path, locations_path,
    payments_path, registry)] *)
Definition process_square
  (orders_file : result (list SquareOrder))
  (catalog_file : result (list SquareObject))
  (locations_file : result (list SquareLocation))
  (payments_file : result (list SquarePayment)) : M unit :=
  try_except (process_square_body orders_file catalog_file locations_file
                                  payments_file).

End SquareAdapter.

(* ================================================================== *)
(** * Further notions used in the statements *)
(* ================================================================== *)

(** The canonical names of the four locations. *)
Definition CANONICAL_LOCATIONS : list string :=
  ["Downtown"; "Airport"; "Mall Location"; "University"].

(** The metadata entry that mirrors a [Location] object. *)
Definition meta_of (l : Location) : LocationMeta :=
  mkMeta l.(toast_id) l.(doordash_id) l.(square_id) l.(timezone)
         l.(address_line_1) l.(city) l.(state) l.(zip_code) l.(country).

(** Every metadata entry mirrors the [Location] object of the same name,
    and there is no other entry. *)
Definition metadata_in_sync (r : ModelRegistry) : Prop :=
  forall name,
    sget name r.(location_metadata)
    = option_map meta_of (sget name r.(locations)).

(** [v] is the value of a member of [ProductCategory]. *)
Definition is_category_value (v : string) : Prop :=
  exists c, category_value c = v.

(** Every [Location] object is stored under its canonical name. *)
Definition keyed_by_name (r : ModelRegistry) : Prop :=
  forall k l, sget k r.(locations) = Some l -> l.(loc_canonical_name) = k.

(** The identifier that a source system gave to a location. *)
Definition source_id_of (source_system : SourceSystem) (l : Location)
  : option string :=
  match source_system with
  | TOAST => l.(toast_id)
  | DOORDASH => l.(doordash_id)
  | SQUARE => l.(square_id)
  end.

(** The key under which the product of an item is registered. *)
Definition product_key (item : OrderItem) : string * ProductCategory :=
  (item.(canonical_name), item.(category)).

(** The item with its product set to the product of its name and category,
    and nothing else changed. *)
Definition link_product (item : OrderItem) : OrderItem :=
  mkOrderItem item.(item_order) (Some (product_key item)) item.(item_name)
    item.(canonical_name) item.(category) item.(quantity)
    item.(unit_price_cents) item.(total_price_cents).

(** Whitespace in order: every whitespace character of [s] is a space that
    does not follow another whitespace character; [prev_ws] tells whether
    the character before [s] is whitespace. *)
Fixpoint ws_ok (prev_ws : bool) (s : string) : bool :=
  match s with
  | EmptyString => true
  | String c s' =>
      if PyStr.is_space c
      then Ascii.eqb c " " && negb prev_ws && ws_ok true s'
      else ws_ok false s'
  end.

(** Whitespace in order and none at the end: as [ws_ok], and the last
    character ([prev_ws] standing for it when [s] is empty) is no
    whitespace. *)
Fixpoint tidy (prev_ws : bool) (s : string) : bool :=
  match s with
  | EmptyString => negb prev_ws
  | String c s' =>
      if PyStr.is_space c
      then Ascii.eqb c " " && negb prev_ws && tidy true s'
      else tidy false s'
  end.

(** An ASCII character that [str.lower] leaves as it is. *)
Definition plain_char (c : ascii) : bool :=
  PyStr.is_ascii c && Ascii.eqb (PyStr.lower_char c) c.

(** The number of items of a group among [items]. *)
Definition group_size (items : list OrderItem) (k : key) : nat :=
  count_occ key_eq_dec (map item_key items) k.

Section WalkFrequency.

Variable pc : list row.

(** Every key that the map sends to another name is the key of a row whose
    count is at most the count of the row of that name. *)
Definition merged_below (cm : Dict.t key string) : Prop :=
  forall n2 c n,
    Dict.get key_eqb (n2, c) cm = Some n -> n <> n2 ->
    exists cn c2, In ((n, c), cn) pc /\ In ((n2, c), c2) pc /\ c2 <= cn.

End WalkFrequency.

(** [float(n)] for an integer [0 <= n < 2^63]; below [2^53] the conversion
    is exact. *)
Definition float_of_int (n : Z) : float :=
  PrimFloat.of_uint63 (Uint63.of_Z n).

(** [round_half_even] computed with shifts. *)
Definition round_by_shift (m : positive) (e : Z) : Z :=
  (if 0 <=? e then Z.shiftl (Z.pos m) e
   else
     let k := - e in
     let q := Z.shiftr (Z.pos m) k in
     let r := Z.pos m - Z.shiftl q k in
     match 2 * r ?= Z.shiftl 1 k with
     | Lt => q
     | Gt => q + 1
     | Eq => if Z.even q then q else q + 1
     end)%Z.

(** The conversion to cents of the float [d / 100] gives [d] back. *)
Definition cents_round_trip (d : Z) : bool :=
  let f := PrimFloat.div (float_of_int d) 100%float in
  negb (PrimFloat.is_nan f) &&
  match Prim2SF (PrimFloat.mul f 100%float) with
  | S754_zero _ => (d =? 0)%Z
  | S754_finite false m e => (round_by_shift m e =? d)%Z
  | _ => false
  end.

(** [cents_round_trip] holds for the [n] integers from [d] on. *)
Fixpoint round_trip_below (n : nat) (d : Z) (acc : bool) : bool :=
  match n with
  | O => acc
  | S k => round_trip_below k (d + 1)%Z (acc && cents_round_trip d)
  end.

(** The values of [OrderType]. *)
Definition ORDER_TYPES : list string :=
  ["DINE_IN"; "TAKE_OUT"; "PICKUP"; "DELIVERY"].

(** What the adapter of each source fixes in its orders: Toast and Square
    take no fee, and their net revenue is the subtotal; Square computes the
    subtotal from the total, the tax and the tip; a DoorDash order is paid
    by card, of a brand not known. *)
Definition source_rules (src : SourceSystem) (o : Order) : Prop :=
  match src with
  | TOAST =>
      o.(net_revenue_cents) = o.(subtotal_amount_cents) /\
      o.(fee_amount_cents) = 0%Z
  | DOORDASH =>
      o.(payment_method) = Some "CREDIT" /\ o.(card_brand) = None
  | SQUARE =>
      o.(subtotal_amount_cents)
      = (o.(total_amount_cents) - o.(tax_amount_cents)
         - o.(tip_amount_cents))%Z /\
      o.(net_revenue_cents) = o.(subtotal_amount_cents) /\
      o.(fee_amount_cents) = 0%Z
  end.

(** An order as the adapter of the source [src] builds it. *)
Definition order_ok (src : SourceSystem) (o : Order) : Prop :=
  o.(source_system) = src /\
  (exists external_id, o.(order_id) = format_order_id src external_id) /\
  (0 <= o.(day_of_week) < 7)%Z /\
  In o.(order_type) ORDER_TYPES /\
  source_rules src o.

(** When the quantity is positive, the unit price is the price of the line
    divided by the quantity, rounded down. *)
Definition unit_price_ok (i : OrderItem) : Prop :=
  (0 < i.(quantity))%Z ->
  i.(unit_price_cents) = (i.(total_price_cents) / i.(quantity))%Z.

(** An order item as an adapter builds it: no product yet, the canonical
    name computed from the raw name, the unit price in line with the price
    of the line. *)
Definition item_ok (i : OrderItem) : Prop :=
  i.(item_product) = None /\
  (exists n, extract_baked_quantity i.(item_name) 1
             = Ok (i.(canonical_name), n)) /\
  unit_price_ok i.

(** What an adapter does to the registry, one operation at a time: it
    reports a location, appends an order whose location is in the registry,
    or appends an item of the order appended last. *)
Inductive registry_step (src : SourceSystem)
  : ModelRegistry -> ModelRegistry -> Prop :=
| step_location r name source_system source_id tz a c s z co :
    registry_step src r
      (get_or_create_location r name source_system source_id tz a c s z co)
| step_order r o :
    smem o.(order_location) r.(locations) = true ->
    order_ok src o ->
    registry_step src r (set_orders r (r.(orders) ++ [o]))
| step_item r i :
    S i.(item_order) = List.length r.(orders) ->
    item_ok i ->
    registry_step src r (set_order_items r (r.(order_items) ++ [i])).

Inductive registry_steps (src : SourceSystem)
  : ModelRegistry -> ModelRegistry -> Prop :=
| steps_done r : registry_steps src r r
| steps_more r1 r2 r3 :
    registry_steps src r1 r2 -> registry_step src r2 r3 ->
    registry_steps src r1 r3.

(** The references of the registry resolve: the location of every order is
    a key of [locations], the order of every item a position of [orders]. *)
Definition refs_ok (r : ModelRegistry) : Prop :=
  Forall (fun o => smem o.(order_location) r.(locations) = true) r.(orders) /\
  Forall (fun i => i.(item_order) < List.length r.(orders)) r.(order_items).

(** A well-formed registry. *)
Definition registry_ok (r : ModelRegistry) : Prop :=
  metadata_in_sync r /\ keyed_by_name r /\ refs_ok r /\
  Forall (fun o => order_ok o.(source_system) o) r.(orders) /\
  Forall unit_price_ok r.(order_items).

(** From a registry that satisfies [P], the statement [m] takes the
    registry through steps of the adapter of [src] to one that satisfies
    [Q], whether it ends normally or raises. *)
Definition walks (src : SourceSystem) (P Q : ModelRegistry -> Prop)
  {A} (m : M A) : Prop :=
  forall w, P w.(registry) ->
    registry_steps src w.(registry) (fst (m w)).(registry) /\
    Q (fst (m w)).(registry).

(** What identifies an order in the reports: its identifier, the identifier
    it has in its source, and its status. *)
Definition order_row (o : Order) : string * string * string :=
  (o.(order_id), o.(external_order_id), o.(status)).

(** The statement [m] appends orders whose rows are [expected], in that
    order, when it ends normally, and a first part of them when it
    raises. *)
Definition appends {A} (expected : list (string * string * string))
  (m : M A) : Prop :=
  forall w, exists added,
    (fst (m w)).(registry).(orders) = w.(registry).(orders) ++ added /\
    match snd (m w) with
    | Ok _ => map order_row added = expected
    | Raise _ => exists rest, expected = map order_row added ++ rest
    end.

(** The rows of the orders of a Toast export: one for every check. *)
Definition toast_order_rows (data : ToastData)
  : list (string * string * string) :=
  flat_map (fun order =>
    map (fun check => (format_order_id TOAST check.(tc_guid),
                       order.(to_guid),
                       map_toast_status check.(tc_voided)))
        order.(to_checks))
    data.(td_orders).

(** The rows of the orders of a DoorDash export. *)
Definition doordash_order_rows (data : DoorDashData)
  : list (string * string * string) :=
  map (fun order =>
         (format_order_id DOORDASH order.(do_external_delivery_id),
          order.(do_external_delivery_id),
          map_doordash_status order.(do_order_status)))
      data.(dd_orders).

(** The rows of the orders of a Square export. *)
Definition square_order_rows (orders_list_data : list SquareOrder)
  : list (string * string * string) :=
  map (fun order =>
         (format_order_id SQUARE order.(sqo_id),
          order.(sqo_id),
          map_square_status (get_default order.(sqo_state) "COMPLETED")))
      orders_list_data.

(** The order appended last is at position [idx]. *)
Definition last_order_is (idx : nat) (r : ModelRegistry) : Prop :=
  S idx = List.length r.(orders).

(** No condition on the registry. *)
Definition any_registry (r : ModelRegistry) : Prop := True.

(** A DoorDash export: one store, and one order of it with a box of donuts
    and an item without a name. *)
Definition a_doordash_export : DoorDashData :=
  mkDoorDashData
    [mkDoorDashStore (Some "str_downtown_001") (Some "Downtown")
       (Val "America/Chicago") Missing]
    [mkDoorDashOrder "D-1001" (Val "str_downtown_001")
       (Some "2024-01-15T12:00:00Z") Missing "DELIVERED"
       (VInt 1500) (VInt 1200) (VInt 100) (VInt 200) (VInt 1000) (VInt 200)
       [mkDoorDashItem (Val "Donuts 6 pack") 2 (Val "Bakery") (VInt 1200);
        mkDoorDashItem Null 1 Missing (VInt 100)]].

(** Square exports: a catalog with a category and an item of it, one
    location, one payment, and two orders, the second with a tip that
    cannot be read. *)
Definition a_square_catalog : list SquareObject :=
  [mkSquareObject (Some "CATEGORY") (Some "CAT1")
     (Val (mkSquareCategoryData (Val "Drinks"))) Missing;
   mkSquareObject (Some "ITEM") (Some "ITEM1") Missing
     (Val (mkSquareItemData (Val "Iced Coffee") (Some "CAT1")
             [mkSquareVariation (Some "VAR1")]))].

Definition a_square_location : list SquareLocation :=
  [mkSquareLocation (Some "LCN001") (Some "Airport") Missing Missing].

Definition a_square_payment : list SquarePayment :=
  [mkSquarePayment (Some "O1") (Val "CARD")
     (Val (mkSquareCardDetails (Val (mkSquareCard (Some "VISA") None))))].

Definition two_square_orders : list SquareOrder :=
  [mkSquareOrder "O1" (Val "LCN001") (Some "2024-01-15T12:00:00Z") None
     [mkSquareFulfillment (Val "PICKUP")]
     (Val (mkSquareMoney (VInt 1000))) (Val (mkSquareMoney (VInt 80)))
     (Val (mkSquareMoney (VInt 150))) Missing
     [mkSquareLineItem (Some "VAR1") Missing "2"
        (Val (mkSquareMoney (VInt 770)))];
   mkSquareOrder "O2" (Val "LCN001") None None []
     (Val (mkSquareMoney (VInt 500))) Missing Null (Val "CANCELLED") []].

(** A reading of quantities that knows the digits 1 to 3 only. *)
Definition small_quantity (s : string) : result Z :=
  if String.eqb s "1" then Ok 1%Z
  else if String.eqb s "2" then Ok 2%Z
  else if String.eqb s "3" then Ok 3%Z
  else Raise ValueError.

(** [process_and_clean_data] with the adapters of DoorDash and of Square in
    the place of its two parameters: the run over the six exports. *)
Definition process_and_clean_data_from_files
  (iter_set : list string -> list string)
  (normalize_timestamp : option string -> Z)
  (to_local : Z -> string -> LocalTime)
  (parse_business_date : string -> result Z)
  (int_of_float_str : string -> result Z)
  (sort_values : list row -> list row)
  (token_sort_ratio : string -> string -> Z)
  (toast_file : result ToastData)
  (doordash_file : result DoorDashData)
  (orders_file : result (list SquareOrder))
  (catalog_file : result (list SquareObject))
  (locations_file : result (list SquareLocation))
  (payments_file : result (list SquarePayment))
  (initial_cache : option (Dict.t string string)) : ModelRegistry :=
  process_and_clean_data iter_set normalize_timestamp to_local
    parse_business_date
    (fun w => fst (process_doordash iter_set normalize_timestamp to_local
                                    doordash_file w))
    (fun w => fst (process_square iter_set normalize_timestamp to_local
                                  int_of_float_str orders_file catalog_file
                                  locations_file payments_file w))
    sort_values token_sort_ratio toast_file initial_cache.

(** Every item is linked to the product of its canonical name and
    category, and the registry holds that product. *)
Definition products_linked (r : ModelRegistry) : Prop :=
  Forall (fun i =>
            i.(item_product) = Some (product_key i) /\
            Dict.get product_key_eqb (product_key i) r.(products)
            = Some (mkProduct i.(canonical_name) i.(category)))
         r.(order_items).

(** A change of an item that leaves its order, its quantity and its prices
    as they are. *)
Definition same_line (f : OrderItem -> OrderItem) : Prop :=
  forall i,
    (f i).(item_order) = i.(item_order) /\
    (f i).(quantity) = i.(quantity) /\
    (f i).(unit_price_cents) = i.(unit_price_cents) /\
    (f i).(total_price_cents) = i.(total_price_cents).

(** The identifiers of the checks of a Toast export. *)
Definition toast_check_guids (data : ToastData) : list string :=
  flat_map (fun order => map tc_guid order.(to_checks)) data.(td_orders).

(* ------------------------------------------------------------------ *)
(** ** models.py: the column type of the categories *)

(** [ProductCategory.X.name] *)
Definition category_name (c : ProductCategory) : string :=
  match c with
  | BURGERS => "BURGERS" | SANDWICHES => "SANDWICHES" | SIDES => "SIDES"
  | APPETIZERS => "APPETIZERS" | BEVERAGES => "BEVERAGES"
  | BREAKFAST => "BREAKFAST" | ENTREES => "ENTREES" | SALADS => "SALADS"
  | DESSERTS => "DESSERTS" | ALCOHOL => "ALCOHOL" | UNKNOWN => "UNKNOWN"
  end.

(** [ProductCategory[s]]: the member whose name is [s]; [None] stands for
    the [KeyError] of a string that is no name of the enumeration. *)
Definition ProductCategory_of_name (s : string) : option ProductCategory :=
  find (fun c => String.eqb (category_name c) s)
       [BURGERS; SANDWICHES; SIDES; APPETIZERS; BEVERAGES; BREAKFAST;
        ENTREES; SALADS; DESSERTS; ALCOHOL; UNKNOWN].

(** What is bound to a column of the type [ProductCategoryType]: [None], a
    member of [ProductCategory] or a plain string. *)
Inductive category_param :=
| ParamNone
| ParamMember (c : ProductCategory)
| ParamStr (s : string).

(** [ProductCategoryType.process_bind_param] *)
Definition process_bind_param (value : category_param) : option string :=
  match value with
  | ParamNone => None
  | ParamMember c => Some (category_value c)
  | ParamStr s =>
      match ProductCategory_of_name (upper s) with
      | Some enum_obj => Some (category_value enum_obj)
      | None => Some (PyStr.lower s)
      end
  end.

(** [ProductCategoryType.process_result_value] *)
Definition process_result_value (value : option string)
  : option ProductCategory :=
  match value with
  | None => None
  | Some v =>
      match ProductCategory_of_value v with
      | Some c => Some c
      | None => Some UNKNOWN
      end
  end.

(** A small letter of ASCII. *)
Definition is_small_letter (c : ascii) : bool :=
  ((97 <=? PyStr.code c) && (PyStr.code c <=? 122))%N.

(** The capital of a small letter of ASCII. *)
Definition capital (c : ascii) : ascii := ascii_of_N (PyStr.code c - 32).

(* ================================================================== *)
(** * Properties *)
(* ================================================================== *)

(** ** Dictionaries *)

Section DictFacts.
Context {K V : Type}.
Variable eqb : K -> K -> bool.
Hypothesis eqb_eq : forall a b, eqb a b = true <-> a = b.

Lemma dict_eqb_refl a : eqb a a = true.
Proof. now apply eqb_eq. Qed.

Lemma dict_eqb_neq a b : a <> b -> eqb a b = false.
Proof.
  intros Hn. destruct (eqb a b) eqn:E; [|reflexivity].
  apply eqb_eq in E. contradiction.
Qed.

Lemma dict_get_set_same (k : K) (v : V) d :
  Dict.get eqb k (Dict.set eqb k v d) = Some v.
Proof.
  induction d as [|[k' v'] d IH]; simpl.
  - now rewrite dict_eqb_refl.
  - destruct (eqb k k') eqn:E; simpl; rewrite E; auto.
Qed.

Lemma dict_get_set_other (k k' : K) (v : V) d :
  k' <> k -> Dict.get eqb k' (Dict.set eqb k v d) = Dict.get eqb k' d.
Proof.
  intros Hn. induction d as [|[k0 v0] d IH]; simpl.
  - now rewrite (dict_eqb_neq _ _ Hn).
  - destruct (eqb k k0) eqn:E; simpl.
    + apply eqb_eq in E. subst k0. now rewrite (dict_eqb_neq _ _ Hn).
    + now rewrite IH.
Qed.

Lemma dict_mem_set (k k' : K) (v : V) d :
  Dict.mem eqb k' (Dict.set eqb k v d) = (eqb k' k || Dict.mem eqb k' d)%bool.
Proof.
  unfold Dict.mem. destruct (eqb k' k) eqn:E.
  - apply eqb_eq in E. subst. now rewrite dict_get_set_same.
  - rewrite dict_get_set_other; [reflexivity|].
    intros ->. rewrite dict_eqb_refl in E. discriminate.
Qed.

Lemma dict_keys_set_present (k : K) (v : V) d :
  Dict.mem eqb k d = true ->
  map fst (Dict.set eqb k v d) = map fst d.
Proof.
  unfold Dict.mem. induction d as [|[k0 v0] d IH]; simpl; [discriminate|].
  destruct (eqb k k0) eqn:E; simpl; [reflexivity|].
  intros H. now rewrite IH.
Qed.

End DictFacts.

Lemma category_value_inj a b : category_value a = category_value b -> a = b.
Proof. destruct a, b; simpl; intros H; try reflexivity; discriminate H. Qed.

Lemma ProductCategory_eqb_eq a b : ProductCategory_eqb a b = true <-> a = b.
Proof.
  unfold ProductCategory_eqb. rewrite String.eqb_eq. split.
  - apply category_value_inj.
  - now intros ->.
Qed.

Lemma key_eqb_eq (a b : key) : key_eqb a b = true <-> a = b.
Proof.
  unfold key_eqb. destruct a as [a1 a2], b as [b1 b2]; simpl.
  rewrite andb_true_iff, !String.eqb_eq. split.
  - now intros [-> ->].
  - now intros [= -> ->].
Qed.

(* ------------------------------------------------------------------ *)
(** ** Unrecognized location identifiers *)

(** C10.  A location identifier that is not a key of [LOCATION_MAPPING] and
    whose lowercased form contains none of "downtown", "airport", "mall",
    "univ", "university" is given the canonical name "Downtown". *)
Theorem get_location_name_unrecognized (location_id source : string) :
  smem location_id LOCATION_MAPPING = false ->
  (forall kw, In kw LOCATION_KEYWORDS ->
              PyStr.contains kw (PyStr.lower location_id) = false) ->
  get_location_name location_id source = "Downtown".
Proof.
  intros Hmem Hkw. unfold get_location_name.
  unfold smem, Dict.mem in Hmem. unfold sget.
  destruct (Dict.get String.eqb location_id LOCATION_MAPPING);
    [discriminate|].
  cbv zeta.
  rewrite (Hkw "downtown"), (Hkw "airport"), (Hkw "mall"), (Hkw "univ"),
    (Hkw "university"); unfold LOCATION_KEYWORDS; simpl; auto 10.
Qed.

Lemma get_location_name_unrecognized_witness :
  get_location_name "loc_harbor_005" "Toast" = "Downtown".
Proof.
  apply get_location_name_unrecognized.
  - reflexivity.
  - intros kw Hin. unfold LOCATION_KEYWORDS in Hin. simpl in Hin.
    repeat (destruct Hin as [<-|Hin]; [reflexivity|]). contradiction.
Defined.

(* ------------------------------------------------------------------ *)
(** ** The category-conflict pass *)

Lemma startswith_iff p : forall t,
  PyStr.startswith p t = true <-> exists post : string, t = (p ++ post)%string.
Proof.
  induction p as [|a p IH]; intros t; simpl.
  - split; [intros _; now exists t|reflexivity].
  - destruct t as [|c t].
    + split; [discriminate|intros [post H]; discriminate].
    + rewrite andb_true_iff, Ascii.eqb_eq, IH. split.
      * intros [-> [post ->]]. now exists post.
      * intros [post [= -> ->]]. split; [reflexivity|now exists post].
Qed.

Lemma contains_unfold needle hay :
  PyStr.contains needle hay =
  (PyStr.startswith needle hay ||
   match hay with
   | EmptyString => false
   | String _ hay' => PyStr.contains needle hay'
   end)%bool.
Proof. destruct hay; reflexivity. Qed.

Lemma contains_iff needle hay :
  PyStr.contains needle hay = true <->
  exists pre post : string, hay = (pre ++ needle ++ post)%string.
Proof.
  split.
  - induction hay as [|c hay IH]; rewrite contains_unfold; intros H;
      apply orb_true_iff in H; destruct H as [H|H].
    + apply startswith_iff in H. destruct H as [post ->].
      now exists EmptyString, post.
    + discriminate.
    + apply startswith_iff in H. destruct H as [post ->].
      now exists EmptyString, post.
    + destruct (IH H) as (pre & post & ->). now exists (String c pre), post.
  - intros (pre & post & ->). induction pre as [|c pre IH];
      rewrite contains_unfold; apply orb_true_iff.
    + left. apply startswith_iff. now exists post.
    + right. exact IH.
Qed.

Lemma map_str_app f (a b : string) :
  PyStr.map_str f (a ++ b) = (PyStr.map_str f a ++ PyStr.map_str f b)%string.
Proof. induction a as [|c a IH]; simpl; [reflexivity|now rewrite IH]. Qed.

Lemma map_str_split f s : forall a b : string,
  PyStr.map_str f s = (a ++ b)%string ->
  exists s1 s2 : string,
    s = (s1 ++ s2)%string /\ PyStr.map_str f s1 = a /\
    PyStr.map_str f s2 = b.
Proof.
  induction s as [|c s IH]; intros a b H.
  - destruct a; [|discriminate]. simpl in H. subst b.
    now exists EmptyString, EmptyString.
  - destruct a as [|c' a].
    + exists EmptyString, (String c s). simpl in H. now subst b.
    + simpl in H. injection H as Hc H.
      destruct (IH _ _ H) as (s1 & s2 & -> & H1 & H2).
      exists (String c s1), s2. simpl. now rewrite Hc, H1.
Qed.

(** The test of the code is the containment of "burger" in any case. *)
Lemma has_burger_iff item :
  has_burger item = true <-> mentions_burger item.(canonical_name).
Proof.
  unfold has_burger, mentions_burger, ci_eq. rewrite contains_iff. split.
  - intros (pre & post & H). unfold PyStr.lower in H.
    destruct (map_str_split _ _ _ _ H) as (s1 & s2 & E & H1 & H2).
    destruct (map_str_split _ _ _ _ H2) as (u & s3 & -> & H3 & H4).
    exists s1, u, s3. split; [exact E|exact H3].
  - intros (pre & u & post & -> & Hu).
    exists (PyStr.lower pre), (PyStr.lower post).
    unfold PyStr.lower in *. rewrite !map_str_app. now rewrite Hu.
Qed.

Lemma resolve_conflict_fields item :
  let item' := resolve_conflict item in
  item'.(item_order) = item.(item_order) /\
  item'.(item_product) = item.(item_product) /\
  item'.(item_name) = item.(item_name) /\
  item'.(canonical_name) = item.(canonical_name) /\
  item'.(quantity) = item.(quantity) /\
  item'.(unit_price_cents) = item.(unit_price_cents) /\
  item'.(total_price_cents) = item.(total_price_cents).
Proof.
  unfold resolve_conflict.
  destruct (_ && _)%bool; simpl; repeat split; reflexivity.
Qed.

Lemma resolve_conflict_category item :
  (resolve_conflict item).(category) =
  if has_burger item then BURGERS else item.(category).
Proof.
  unfold resolve_conflict, has_burger.
  destruct (PyStr.contains "burger" _) eqn:Hb; simpl; [|reflexivity].
  destruct (String.eqb (category_val item) "burgers") eqn:Hc; simpl;
    [|reflexivity].
  apply String.eqb_eq in Hc. unfold category_val in Hc.
  now apply (category_value_inj _ BURGERS).
Qed.

(** C5.  After the category-conflict pass the items are the same items in
    the same order with everything but the category as before; an item whose
    canonical name contains "burger", whatever the case of its letters, has
    category BURGERS, and any other item keeps its category.  Nothing else of
    the registry changes. *)
Theorem resolve_category_conflicts_spec (registry : ModelRegistry) :
  let registry' := resolve_category_conflicts registry in
  registry'.(locations) = registry.(locations) /\
  registry'.(products) = registry.(products) /\
  registry'.(orders) = registry.(orders) /\
  registry'.(location_metadata) = registry.(location_metadata) /\
  List.length registry'.(order_items) = List.length registry.(order_items) /\
  (forall item', In item' registry'.(order_items) ->
     mentions_burger item'.(canonical_name) -> item'.(category) = BURGERS) /\
  (forall i item, nth_error registry.(order_items) i = Some item ->
     exists item', nth_error registry'.(order_items) i = Some item' /\
       item'.(canonical_name) = item.(canonical_name) /\
       item'.(item_name) = item.(item_name) /\
       item'.(item_order) = item.(item_order) /\
       item'.(item_product) = item.(item_product) /\
       item'.(quantity) = item.(quantity) /\
       item'.(unit_price_cents) = item.(unit_price_cents) /\
       item'.(total_price_cents) = item.(total_price_cents) /\
       (mentions_burger item.(canonical_name) ->
        item'.(category) = BURGERS) /\
       (~ mentions_burger item.(canonical_name) ->
        item'.(category) = item.(category))).
Proof.
  cbv zeta. unfold resolve_category_conflicts. simpl.
  repeat split.
  - apply length_map.
  - intros item' Hin Hb. apply in_map_iff in Hin.
    destruct Hin as [item [<- _]].
    rewrite resolve_conflict_category.
    destruct (resolve_conflict_fields item) as (_ & _ & _ & Hn & _).
    rewrite Hn in Hb. apply has_burger_iff in Hb. now rewrite Hb.
  - intros i item Hnth. exists (resolve_conflict item).
    destruct (resolve_conflict_fields item)
      as (H1 & H2 & H3 & H4 & H5 & H6 & H7).
    rewrite nth_error_map, Hnth. simpl.
    rewrite resolve_conflict_category.
    repeat split; auto.
    + intros Hb. apply has_burger_iff in Hb. now rewrite Hb.
    + intros Hb. destruct (has_burger item) eqn:E; [|reflexivity].
      exfalso. apply Hb. now apply has_burger_iff.
Qed.

(* ------------------------------------------------------------------ *)
(** ** Merging of locations *)

Lemma sget_sset_same {V} k (v : V) d : sget k (sset k v d) = Some v.
Proof. apply dict_get_set_same, String.eqb_eq. Qed.

Lemma sget_sset_other {V} k k' (v : V) d :
  k' <> k -> sget k' (sset k v d) = sget k' d.
Proof. apply dict_get_set_other, String.eqb_eq. Qed.

Lemma smem_sset {V} k k' (v : V) d :
  smem k' (sset k v d) = (String.eqb k' k || smem k' d)%bool.
Proof. apply dict_mem_set, String.eqb_eq. Qed.

Lemma fill_cases new old :
  fill new old = old \/ (truthy old = false /\ fill new old = new).
Proof.
  unfold fill. destruct (truthy new); simpl; [|now left].
  destruct (truthy old); simpl; [now left|now right].
Qed.

Lemma fill_keeps new old : truthy old = true -> fill new old = old.
Proof. unfold fill. intros ->. now rewrite andb_false_r. Qed.

Lemma opt_eqb_eq a b : opt_eqb a b = true <-> a = b.
Proof.
  destruct a, b; simpl; try (split; congruence).
  rewrite String.eqb_eq. split; congruence.
Qed.

Lemma fill_timezone_cases new old :
  fill_timezone new old = old \/
  (old = Some DEFAULT_TZ /\ new <> Some DEFAULT_TZ /\ truthy new = true /\
   fill_timezone new old = new).
Proof.
  unfold fill_timezone.
  destruct (truthy new) eqn:Hn; simpl; [|now left].
  destruct (opt_eqb old (Some DEFAULT_TZ)) eqn:Ho; simpl; [|now left].
  destruct (opt_eqb new (Some DEFAULT_TZ)) eqn:Hd; simpl; [now left|].
  right. apply opt_eqb_eq in Ho. repeat split; auto.
  intros E. apply opt_eqb_eq in E. congruence.
Qed.

Lemma fill_timezone_keeps new old :
  old <> Some DEFAULT_TZ -> fill_timezone new old = old.
Proof.
  intros H. destruct (fill_timezone_cases new old) as [E|(E & _)]; auto.
  contradiction.
Qed.

Lemma get_or_create_location_present r name src sid tz a c s z co l :
  sget name r.(locations) = Some l ->
  get_or_create_location r name src sid tz a c s z co =
  set_location_metadata
    (set_locations r
       (sset name (merge_location src sid tz a c s z l) r.(locations)))
    match sget name r.(location_metadata) with
    | Some m =>
        sset name (merge_meta src sid tz a c s z l m) r.(location_metadata)
    | None => r.(location_metadata)
    end.
Proof.
  intros H. unfold get_or_create_location.
  unfold smem, Dict.mem. unfold sget in H. rewrite H. simpl.
  unfold sget. now rewrite H.
Qed.

Lemma get_or_create_location_wf r name src sid tz a c s z co :
  registry_wf r ->
  registry_wf (get_or_create_location r name src sid tz a c s z co).
Proof.
  intros Hwf. unfold get_or_create_location.
  destruct (smem name r.(locations)) eqn:Hm; simpl.
  - pose proof Hm as Hm'. rewrite Hwf in Hm'.
    unfold smem, Dict.mem in Hm, Hm'. unfold sget.
    destruct (Dict.get String.eqb name (locations r)); [|discriminate].
    destruct (Dict.get String.eqb name (location_metadata r));
      [|discriminate].
    intros k. simpl. fold (@sset Location) (@sset LocationMeta).
    rewrite !smem_sset. now rewrite Hwf.
  - fold (@sset Location) (@sset LocationMeta).
    rewrite !sget_sset_same. simpl.
    intros k. simpl. rewrite !smem_sset. now rewrite Hwf.
Qed.

Lemma fill_takes new old :
  truthy old = false -> truthy new = true -> fill new old = new.
Proof. intros Ho Hn. unfold fill. now rewrite Ho, Hn. Qed.

Lemma fill_skips new old : truthy new = false -> fill new old = old.
Proof. intros Hn. unfold fill. now rewrite Hn. Qed.

Lemma opt_eqb_neq a b : a <> b -> opt_eqb a b = false.
Proof.
  intros H. destruct (opt_eqb a b) eqn:E; [|reflexivity].
  apply opt_eqb_eq in E. contradiction.
Qed.

Lemma fill_timezone_takes tz old :
  old = Some DEFAULT_TZ -> truthy tz = true -> tz <> Some DEFAULT_TZ ->
  fill_timezone tz old = tz.
Proof.
  intros -> Ht Hne. unfold fill_timezone.
  now rewrite Ht, (opt_eqb_neq _ _ Hne).
Qed.

Lemma fill_timezone_skips tz old :
  truthy tz = false \/ tz = Some DEFAULT_TZ -> fill_timezone tz old = old.
Proof.
  intros [Ht| ->]; unfold fill_timezone.
  - now rewrite Ht.
  - simpl. now rewrite andb_false_r.
Qed.

(** C7, as the code has it.  When a location is reported under a canonical
    name that the registry already holds, no location is created (the keys
    of [locations] and the other locations stay as they are, and so do the
    orders, items and products).  On the location itself the name and the
    country are kept.  An address field that was set (not [None], not
    empty) is kept; an unset one takes the reported value when that is set,
    and stays as it is otherwise.  The timezone is kept when it differs from
    the default "America/New_York", and when the reported zone is unset or
    is the default; a stored zone equal to the default is replaced by a
    reported zone that is set and is not the default. *)
Theorem get_or_create_location_first_writer_wins
  r name src sid tz a c s z co l :
  registry_wf r ->
  sget name r.(locations) = Some l ->
  let r' := get_or_create_location r name src sid tz a c s z co in
  registry_wf r' /\
  map fst r'.(locations) = map fst r.(locations) /\
  (forall other, other <> name ->
     sget other r'.(locations) = sget other r.(locations)) /\
  r'.(orders) = r.(orders) /\
  r'.(order_items) = r.(order_items) /\
  r'.(products) = r.(products) /\
  exists l', sget name r'.(locations) = Some l' /\
    l'.(loc_canonical_name) = l.(loc_canonical_name) /\
    l'.(country) = l.(country) /\
    (truthy l.(address_line_1) = true ->
       l'.(address_line_1) = l.(address_line_1)) /\
    (truthy l.(city) = true -> l'.(city) = l.(city)) /\
    (truthy l.(state) = true -> l'.(state) = l.(state)) /\
    (truthy l.(zip_code) = true -> l'.(zip_code) = l.(zip_code)) /\
    (l.(timezone) <> Some DEFAULT_TZ -> l'.(timezone) = l.(timezone)) /\
    (truthy l.(address_line_1) = false -> truthy a = true ->
       l'.(address_line_1) = a) /\
    (truthy l.(city) = false -> truthy c = true -> l'.(city) = c) /\
    (truthy l.(state) = false -> truthy s = true -> l'.(state) = s) /\
    (truthy l.(zip_code) = false -> truthy z = true ->
       l'.(zip_code) = z) /\
    (truthy a = false -> l'.(address_line_1) = l.(address_line_1)) /\
    (truthy c = false -> l'.(city) = l.(city)) /\
    (truthy s = false -> l'.(state) = l.(state)) /\
    (truthy z = false -> l'.(zip_code) = l.(zip_code)) /\
    (l.(timezone) = Some DEFAULT_TZ -> truthy tz = true ->
     tz <> Some DEFAULT_TZ -> l'.(timezone) = tz) /\
    (truthy tz = false \/ tz = Some DEFAULT_TZ ->
     l'.(timezone) = l.(timezone)).
Proof.
  intros Hwf Hl r'.
  split; [apply get_or_create_location_wf, Hwf|].
  subst r'. rewrite (get_or_create_location_present _ _ _ _ _ _ _ _ _ _ _ Hl).
  simpl. fold (@sset Location).
  split.
  { apply dict_keys_set_present.
    unfold Dict.mem. unfold sget in Hl. now rewrite Hl. }
  split; [intros other Hne; now apply sget_sset_other|].
  do 3 (split; [reflexivity|]).
  exists (merge_location src sid tz a c s z l).
  split; [apply sget_sset_same|].
  unfold merge_location. destruct src; simpl;
    (split; [reflexivity|]); (split; [reflexivity|]);
    repeat (split; [apply fill_keeps|]);
    (split; [apply fill_timezone_keeps|]);
    repeat (split; [apply fill_takes|]);
    repeat (split; [apply fill_skips|]);
    (split; [apply fill_timezone_takes|apply fill_timezone_skips]).
Qed.

Lemma get_or_create_location_first_writer_wins_witness :
  exists l', sget "Downtown" two_writers_second.(locations) = Some l' /\
    l'.(address_line_1) = Some "1 Main St" /\
    l'.(timezone) = Some "America/Chicago".
Proof.
  assert (Hwf : registry_wf two_writers_first).
  { apply get_or_create_location_wf. intros k. reflexivity. }
  destruct (get_or_create_location_first_writer_wins
              two_writers_first "Downtown" DOORDASH "str_downtown_001"
              (Some "America/Chicago") (Some "9 Lake Ave") None None None
              (Some "US") _ Hwf eq_refl)
    as (_ & _ & _ & _ & _ & _ & l' & Hget & _ & _ & Ha & _ & _ & _ & _ & _
        & _ & _ & _ & _ & _ & _ & _ & Htz & _).
  exists l'. split; [exact Hget|]. split; [apply Ha; reflexivity|].
  apply Htz; [reflexivity|reflexivity|discriminate].
Defined.

(** C7, counterexample.  Toast reports "Downtown" in the zone
    "America/New_York"; DoorDash then reports the same name in the zone
    "America/Chicago": the timezone the first writer set is replaced. *)
Lemma location_timezone_overwritten :
  option_map timezone (sget "Downtown" two_writers_first.(locations))
    = Some (Some "America/New_York") /\
  option_map timezone (sget "Downtown" two_writers_second.(locations))
    = Some (Some "America/Chicago") /\
  List.length two_writers_second.(locations) = 1%nat.
Proof. repeat split. Qed.

(* ------------------------------------------------------------------ *)
(** ** Determinism of the category mapping *)

Lemma mapping_step_get k m c :
  sget k (mapping_step m c) =
  match sget k m with
  | Some v => Some v
  | None => if String.eqb k c then classify c else None
  end.
Proof.
  assert (Hstep : mapping_step m c =
                  match sget c m with
                  | Some _ => m
                  | None => match classify c with
                            | Some v => sset c v m
                            | None => m
                            end
                  end).
  { unfold mapping_step, classify, smem, Dict.mem, sget.
    destruct (Dict.get String.eqb c m); [reflexivity|].
    destruct (Dict.get String.eqb c BASE_CATEGORY_MAP); [reflexivity|].
    destruct (partial_match c BASE_CATEGORY_MAP); reflexivity. }
  rewrite Hstep. clear Hstep.
  destruct (String.eqb k c) eqn:E.
  - apply String.eqb_eq in E. subst k.
    destruct (sget c m) eqn:Hm; [now rewrite Hm|].
    destruct (classify c); [now rewrite sget_sset_same|now rewrite Hm].
  - assert (Hne : k <> c)
      by (intros ->; rewrite String.eqb_refl in E; discriminate).
    destruct (sget c m); [now destruct (sget k m)|].
    destruct (classify c); [|now destruct (sget k m)].
    rewrite sget_sset_other by exact Hne. now destruct (sget k m).
Qed.

Lemma mapping_fold_get k l : forall m,
  sget k (fold_left mapping_step l m) =
  match sget k m with
  | Some v => Some v
  | None => if existsb (String.eqb k) l then classify k else None
  end.
Proof.
  induction l as [|c l IH]; intros m; simpl.
  - now destruct (sget k m).
  - rewrite IH, mapping_step_get.
    destruct (sget k m); [reflexivity|].
    destruct (String.eqb k c) eqn:E; simpl; [|reflexivity].
    apply String.eqb_eq in E. subst c.
    destruct (classify k); [reflexivity|].
    now destruct (existsb (String.eqb k) l).
Qed.

Lemma existsb_eqb_In k l : existsb (String.eqb k) l = true <-> In k l.
Proof.
  rewrite existsb_exists. split.
  - intros (x & Hin & E). apply String.eqb_eq in E. now subst.
  - intros H. exists k. split; [exact H|apply String.eqb_refl].
Qed.

Lemma existsb_eqb_ext k l1 l2 :
  (In k l1 <-> In k l2) ->
  existsb (String.eqb k) l1 = existsb (String.eqb k) l2.
Proof.
  intros H.
  destruct (existsb (String.eqb k) l1) eqn:E1,
           (existsb (String.eqb k) l2) eqn:E2; try reflexivity.
  - apply existsb_eqb_In, H, existsb_eqb_In in E1. congruence.
  - apply existsb_eqb_In, H, existsb_eqb_In in E2. congruence.
Qed.

Lemma In_update_if x acc s :
  In x (update_if acc s) <-> In x acc \/ In x (elements s).
Proof.
  destruct s as [[|y l]|]; simpl.
  - tauto.
  - rewrite in_app_iff. simpl. tauto.
  - tauto.
Qed.

(** The mapping that [build_category_mapping_from_catalogs] returns, key by
    key: the base entry, else the class of a label of one of the sets. *)
Lemma build_category_mapping_get iter_set sq t d k :
  enumerates iter_set ->
  sget k (build_category_mapping_from_catalogs iter_set sq t d) =
  match sget k BASE_CATEGORY_MAP with
  | Some v => Some v
  | None =>
      if existsb (String.eqb k) (elements sq ++ elements t ++ elements d)
      then classify k else None
  end.
Proof.
  intros Hit. unfold build_category_mapping_from_catalogs.
  rewrite mapping_fold_get.
  destruct (sget k BASE_CATEGORY_MAP); [reflexivity|].
  rewrite (existsb_eqb_ext k _ (elements sq ++ elements t ++ elements d));
    [reflexivity|].
  unfold enumerates in Hit.
  rewrite Hit, !In_update_if, !in_app_iff. simpl. tauto.
Qed.

(* ------------------------------------------------------------------ *)
(** ** Cleaning twice *)

(** C2, at the failing inputs.  [clean_text] is not idempotent.  The
    correction "coffe" -> "coffee" applies again to its own result: "coffe"
    is cleaned to "coffee", which is cleaned to "coffeee".  A text of
    non-ASCII characters only is cleaned to the empty string, which is
    cleaned to "unknown". *)
Theorem clean_text_twice :
  clean_text "coffe" = "coffee" /\
  clean_text (clean_text "coffe") = "coffeee" /\
  clean_text "Iced Coffee" = "iced coffeee" /\
  clean_text e_acute = "" /\
  clean_text (clean_text e_acute) = "unknown".
Proof. repeat split; vm_compute; reflexivity. Qed.

(* ------------------------------------------------------------------ *)
(** ** Conversion to cents *)

Lemma round_half_even_nearest m e : nearest_even m e (round_half_even m e).
Proof.
  unfold nearest_even, round_half_even. split.
  - intros He. apply Z.leb_le in He. now rewrite He.
  - intros He. assert (Hleb : (0 <=? e)%Z = false) by (apply Z.leb_gt; lia).
    rewrite Hleb. cbv zeta.
    set (d := (2 ^ (- e))%Z).
    assert (Hd : (0 < d)%Z) by (apply Z.pow_pos_nonneg; lia).
    pose proof (Z.div_mod (Z.pos m) d ltac:(lia)) as Hdm.
    pose proof (Z.mod_pos_bound (Z.pos m) d Hd) as Hr.
    set (q := (Z.pos m / d)%Z) in *. set (r := (Z.pos m mod d)%Z) in *.
    destruct (Z.compare_spec (2 * r) d) as [C|C|C].
    + destruct (Z.even q) eqn:Hq.
      * split; [|intros _; exact Hq].
        replace (q * d - Z.pos m)%Z with (- r)%Z by lia. lia.
      * split.
        -- replace ((q + 1) * d - Z.pos m)%Z with (d - r)%Z by lia. lia.
        -- intros _. rewrite Z.even_add, Hq. reflexivity.
    + replace (q * d - Z.pos m)%Z with (- r)%Z by lia. split; lia.
    + replace ((q + 1) * d - Z.pos m)%Z with (d - r)%Z by lia. split; lia.
Qed.

(** C3, counterexample.  0.125 scaled by 100 is exactly 12.5; the code
    returns 12, rounding half away from zero gives 13. *)
Lemma to_cents_tie_goes_to_even :
  Prim2SF (PrimFloat.mul 0.125%float 100%float)
    = S754_finite false 7036874417766400 (-49) /\
  (7036874417766400 * 2 = 25 * 2 ^ 49)%Z /\
  to_cents (VFloat 0.125%float) = Ok 12%Z /\
  spec_round_cents 0.125%float = Ok 13%Z.
Proof. repeat split; vm_compute; reflexivity. Qed.

Lemma to_cents_float f :
  PrimFloat.is_nan f = false -> to_cents (VFloat f) = round_cents f.
Proof.
  intros H. unfold to_cents. simpl. rewrite H.
  now destruct (PrimFloat.leb 0 f).
Qed.

Lemma py_int_of_str_raises s e : py_int_of_str s = Raise e -> e = ValueError.
Proof.
  unfold py_int_of_str.
  destruct (match s with String "-"%char s' => _ | _ => _ end) as [neg body].
  destruct (PyStr.truthy body && all_digits body
            && within_digit_limit body)%bool; congruence.
Qed.

Lemma within_digit_limit_spec s :
  within_digit_limit s = true <-> (Z.of_nat (String.length s) <= 4300)%Z.
Proof. unfold within_digit_limit, INT_MAX_STR_DIGITS. apply Z.leb_le. Qed.

(** A string of digits only is read as the number it writes, when it has no
    more digits than [int] accepts, and gives 0 otherwise. *)
Lemma to_cents_digits s :
  s <> EmptyString -> all_digits s = true ->
  to_cents (VStr s) =
  if within_digit_limit s then Ok (int_of_digits s) else Ok 0%Z.
Proof.
  intros Hne Hd.
  assert (Hk : keep_number_chars s = s).
  { unfold keep_number_chars. clear Hne. induction s as [|c s IH];
      [reflexivity|].
    unfold all_digits in Hd. simpl in Hd. apply andb_true_iff in Hd.
    destruct Hd as [Hc Hs]. simpl. rewrite Hc. simpl. f_equal.
    now apply IH. }
  assert (Hdot : PyStr.contains "." s = false).
  { clear Hne Hk. induction s as [|c s IH]; [reflexivity|].
    unfold all_digits in Hd. simpl in Hd. apply andb_true_iff in Hd.
    destruct Hd as [Hc Hs]. rewrite contains_unfold, (IH Hs).
    cbn [PyStr.startswith]. rewrite orb_false_r, andb_true_r.
    destruct (Ascii.eqb_spec "." c) as [<-|_]; [discriminate Hc|].
    reflexivity. }
  unfold to_cents, cents_of_clean_val. cbn [isna]. cbv zeta. rewrite Hk.
  destruct s as [|c s]; [now elim Hne|]. cbn [PyStr.truthy negb].
  rewrite Hdot. unfold py_int_of_str.
  assert (Hm : match String c s with
               | String "-"%char s' => (true, s')
               | _ => (false, String c s)
               end = (false, String c s)).
  { destruct c as [[] [] [] [] [] [] [] []]; try reflexivity.
    unfold all_digits in Hd. discriminate Hd. }
  rewrite Hm. cbn [PyStr.truthy andb]. rewrite Hd. cbn [andb].
  now destruct (within_digit_limit (String c s)).
Qed.

Lemma py_float_of_str_raises s e :
  py_float_of_str s = Raise e -> e = ValueError.
Proof.
  unfold py_float_of_str.
  destruct (match s with String "-"%char s' => _ | _ => _ end) as [neg body].
  destruct (match split_at "." body with Some _ => _ | None => _ end)
    as [ip fp].
  destruct (all_digits ip && all_digits fp && PyStr.truthy (ip ++ fp))%bool;
    congruence.
Qed.

Lemma to_cents_str s :
  to_cents (VStr s) =
  let clean_val := keep_number_chars s in
  if negb (PyStr.truthy clean_val) then Ok 0%Z
  else if PyStr.contains "." clean_val
       then match py_float_of_str clean_val with
            | Ok f => except_value_type_error (round_cents f)
            | Raise _ => Ok 0%Z
            end
       else match py_int_of_str clean_val with
            | Ok n => Ok n
            | Raise _ => Ok 0%Z
            end.
Proof.
  unfold to_cents, cents_of_clean_val. simpl.
  destruct (negb (PyStr.truthy (keep_number_chars s))); [reflexivity|].
  destruct (PyStr.contains "." (keep_number_chars s)).
  - destruct (py_float_of_str (keep_number_chars s)) as [f|e] eqn:E;
      [reflexivity|].
    apply py_float_of_str_raises in E. now subst e.
  - destruct (py_int_of_str (keep_number_chars s)) as [n|e] eqn:E;
      [reflexivity|].
    apply py_int_of_str_raises in E. now subst e.
Qed.

(** C3, as the code has it.  An integer is returned unchanged; [None] and a
    NaN give 0; any other float is multiplied by 100 in binary64 and the
    product is rounded to a nearest integer, a tie going to the even integer
    (0.125 gives 12, 12.999 gives 1300), an infinite product being an
    [OverflowError]; a string is stripped of every character but digits,
    dots and minus signs, and what remains gives 0 when it is empty, is
    read as a float, multiplied by 100 and rounded in the same way when it
    has a dot, is read as an integer of cents otherwise, and gives 0 when
    it cannot be read ("$12.50" gives 1250); an integer of more than 4300
    digits is one that [int] refuses, so that a string of that many digits
    and nothing else gives 0 where a shorter one gives the number it
    writes. *)
Theorem to_cents_spec :
  (forall n, to_cents (VInt n) = Ok n) /\
  to_cents VNone = Ok 0%Z /\
  (forall f, PrimFloat.is_nan f = true -> to_cents (VFloat f) = Ok 0%Z) /\
  (forall f, PrimFloat.is_nan f = false ->
     match Prim2SF (PrimFloat.mul f 100%float) with
     | S754_zero _ => to_cents (VFloat f) = Ok 0%Z
     | S754_finite s m e =>
         exists r, nearest_even m e r /\
                   to_cents (VFloat f) = Ok (if s then (- r)%Z else r)
     | S754_infinity _ => to_cents (VFloat f) = Raise OverflowError
     | S754_nan => to_cents (VFloat f) = Raise ValueError
     end) /\
  (forall s,
     to_cents (VStr s) =
     let clean_val := keep_number_chars s in
     if negb (PyStr.truthy clean_val) then Ok 0%Z
     else if PyStr.contains "." clean_val
          then match py_float_of_str clean_val with
               | Ok f => except_value_type_error (round_cents f)
               | Raise _ => Ok 0%Z
               end
          else match py_int_of_str clean_val with
               | Ok n => Ok n
               | Raise _ => Ok 0%Z
               end) /\
  (forall s, s <> EmptyString -> all_digits s = true ->
     ((Z.of_nat (String.length s) <= 4300)%Z ->
      to_cents (VStr s) = Ok (int_of_digits s)) /\
     ((4300 < Z.of_nat (String.length s))%Z ->
      to_cents (VStr s) = Ok 0%Z)) /\
  to_cents (VStr (repeat_char "9" 4301)) = Ok 0%Z /\
  to_cents (VStr "$12.50") = Ok 1250%Z /\
  to_cents (VInt 1250) = Ok 1250%Z /\
  to_cents (VFloat f_12_999) = Ok 1300%Z /\
  to_cents (VFloat 0.125%float) = Ok 12%Z /\
  to_cents (VStr "abc") = Ok 0%Z /\
  to_cents (VStr "1250") = Ok 1250%Z.
Proof.
  split; [reflexivity|].
  split; [reflexivity|].
  split; [intros f H; unfold to_cents; simpl; now rewrite H|].
  split.
  { intros f H. rewrite (to_cents_float f H). unfold round_cents, py_round.
    destruct (Prim2SF (PrimFloat.mul f 100)) as [s|s| |s m e]; try reflexivity.
    exists (round_half_even m e). split; [apply round_half_even_nearest|].
    reflexivity. }
  split; [apply to_cents_str|].
  split.
  { intros s Hne Hd. rewrite (to_cents_digits s Hne Hd).
    destruct (within_digit_limit s) eqn:E.
    - apply within_digit_limit_spec in E. split; [reflexivity|lia].
    - split; [|reflexivity]. intros H. apply within_digit_limit_spec in H.
      congruence. }
  repeat split; vm_compute; reflexivity.
Qed.

(* ------------------------------------------------------------------ *)
(** ** The walk of entity resolution *)

Lemma kget_put_same k v (d : Dict.t key string) :
  Dict.get key_eqb k (Dict.set key_eqb k v d) = Some v.
Proof. apply dict_get_set_same, key_eqb_eq. Qed.

Lemma kget_put_other k k' v (d : Dict.t key string) :
  k' <> k -> Dict.get key_eqb k' (Dict.set key_eqb k v d) = Dict.get key_eqb k' d.
Proof. apply dict_get_set_other, key_eqb_eq. Qed.

Lemma kmem_put k k' v (d : Dict.t key string) :
  Dict.mem key_eqb k' (Dict.set key_eqb k v d) =
  (key_eqb k' k || Dict.mem key_eqb k' d)%bool.
Proof. apply dict_mem_set, key_eqb_eq. Qed.

Lemma kmem_get k (d : Dict.t key string) :
  Dict.mem key_eqb k d = true <-> exists v, Dict.get key_eqb k d = Some v.
Proof.
  unfold Dict.mem. destruct (Dict.get key_eqb k d) as [v|].
  - split; [intros _; now exists v|reflexivity].
  - split; [discriminate|intros [v H]; discriminate].
Qed.

Lemma key_eqb_refl (k : key) : key_eqb k k = true.
Proof. now apply key_eqb_eq. Qed.

Lemma key_eqb_false (a b : key) : key_eqb a b = false -> a <> b.
Proof. intros E ->. rewrite key_eqb_refl in E. discriminate. Qed.

Lemma row_key (r : row) : fst r = (row_name r, row_category r).
Proof. now destruct r as [[a b] n]. Qed.

Section ResolutionFacts.

Variable token_sort_ratio : string -> string -> Z.
Variable pc : list row.

Local Abbreviation get := (@Dict.get key string key_eqb).
Local Abbreviation put := (@Dict.set key string key_eqb).
Local Abbreviation mem := (@Dict.mem key string key_eqb).

Lemma walk_inv_init : walk_inv token_sort_ratio pc None ([], []).
Proof.
  constructor; simpl; unfold anchor; simpl; try discriminate.
  reflexivity.
Qed.

Lemma anchor_is_mem cm n c : anchor cm n c -> mem (n, c) cm = true.
Proof. intros H. apply kmem_get. now exists n. Qed.

Lemma get_put_fresh cm k v k' v' :
  mem k cm = false -> get k' cm = Some v' -> get k' (put k v cm) = Some v'.
Proof.
  intros Hm Hg. rewrite kget_put_other; [exact Hg|].
  intros ->. unfold Dict.mem in Hm. now rewrite Hg in Hm.
Qed.

Lemma anchor_put_fresh cm k v n c :
  mem k cm = false -> anchor cm n c -> anchor (put k v cm) n c.
Proof. intros Hm Ha. now apply get_put_fresh. Qed.

Lemma anchor_put_inv cm k v n c :
  anchor (put k v cm) n c -> k = (n, c) /\ v = n \/ anchor cm n c.
Proof.
  unfold anchor. intros H.
  destruct (key_eqb (n, c) k) eqn:E.
  - apply key_eqb_eq in E. subst k. rewrite kget_put_same in H.
    left. split; congruence.
  - right. rewrite kget_put_other in H; [exact H|].
    now apply key_eqb_false.
Qed.

(** The inner loop claims a candidate. *)
Lemma walk_inv_merge n c st r2 :
  walk_inv token_sort_ratio pc (Some (n, c)) st -> anchor (fst st) n c ->
  In r2 pc -> row_category r2 = c ->
  mem (row_name r2, c) (fst st) = false ->
  similar token_sort_ratio n (row_name r2) ->
  walk_inv token_sort_ratio pc (Some (n, c))
    (put (row_name r2, c) n (fst st), (row_name r2, c) :: snd st).
Proof.
  intros [Hp Hr Hm Ha Hs] Hanc Hin Hcat Hfresh Hsim.
  destruct st as [cm p]. simpl in *.
  assert (Hne : (row_name r2, c) <> (n, c)).
  { intros E. rewrite E in Hfresh.
    rewrite (anchor_is_mem _ _ _ Hanc) in Hfresh. discriminate. }
  assert (Hold : forall n' c', anchor (put (row_name r2, c) n cm) n' c' ->
                               anchor cm n' c').
  { intros n' c' H. destruct (anchor_put_inv _ _ _ _ _ H) as [[E1 E2]|H'];
      [|exact H'].
    exfalso. apply Hne. congruence. }
  constructor; simpl.
  - intros k. rewrite kmem_put, <- Hp. reflexivity.
  - intros k v Hg. destruct (key_eqb k (row_name r2, c)) eqn:E.
    + apply key_eqb_eq in E. subst k. exists (snd r2).
      rewrite <- Hcat, <- row_key. now destruct r2.
    + rewrite kget_put_other in Hg; [now apply (Hr k v)|].
      now apply key_eqb_false.
  - intros n2 c' n' Hg Hneq.
    destruct (key_eqb (n2, c') (row_name r2, c)) eqn:E.
    + apply key_eqb_eq in E. injection E as -> ->.
      rewrite kget_put_same in Hg. injection Hg as <-.
      split; [exact Hsim|]. now apply anchor_put_fresh.
    + rewrite kget_put_other in Hg.
      * destruct (Hm _ _ _ Hg Hneq) as [H1 H2]. split; [exact H1|].
        now apply anchor_put_fresh.
      * now apply key_eqb_false.
  - intros n1 n2 c' Hneq H1 H2. apply (Ha n1 n2 c'); auto.
  - intros n' c' Hanc' Hcur r Hr2 Hc Hsim'.
    rewrite kmem_put. rewrite (Hs n' c'); auto. apply orb_true_r.
Qed.

(** The outer loop makes an unclaimed group an anchor. *)
Lemma walk_inv_anchor st r :
  walk_inv token_sort_ratio pc None st -> In r pc ->
  mem (fst r) (fst st) = false ->
  walk_inv token_sort_ratio pc (Some (fst r)) (put (fst r) (row_name r) (fst st), fst r :: snd st)
  /\ anchor (put (fst r) (row_name r) (fst st)) (row_name r) (row_category r).
Proof.
  intros [Hp Hr Hm Ha Hs] Hin Hfresh.
  destruct st as [cm p]. simpl in *.
  assert (Hnew : anchor (put (fst r) (row_name r) cm) (row_name r)
                        (row_category r)).
  { unfold anchor. rewrite <- row_key. apply kget_put_same. }
  split; [|exact Hnew].
  constructor; simpl.
  - intros k. rewrite kmem_put, <- Hp. reflexivity.
  - intros k v Hg. destruct (key_eqb k (fst r)) eqn:E.
    + apply key_eqb_eq in E. subst k. exists (snd r). now destruct r.
    + rewrite kget_put_other in Hg; [now apply (Hr k v)|].
      now apply key_eqb_false.
  - intros n2 c n Hg Hneq.
    destruct (key_eqb (n2, c) (fst r)) eqn:E.
    + apply key_eqb_eq in E. rewrite E, kget_put_same in Hg.
      rewrite row_key in E. congruence.
    + rewrite kget_put_other in Hg.
      * destruct (Hm _ _ _ Hg Hneq) as [H1 H2]. split; [exact H1|].
        now apply anchor_put_fresh.
      * now apply key_eqb_false.
  - intros n1 n2 c Hneq H1 H2.
    destruct (anchor_put_inv _ _ _ _ _ H1) as [[E1 _]|H1'],
             (anchor_put_inv _ _ _ _ _ H2) as [[E2 _]|H2'].
    + congruence.
    + right. intros Hsim. rewrite row_key in E1. injection E1 as E1n E1c.
      pose proof (Hs n2 c H2' ltac:(discriminate) r Hin E1c) as H.
      rewrite E1n in H. specialize (H Hsim).
      rewrite row_key, E1n, E1c in Hfresh. congruence.
    + left. intros Hsim. rewrite row_key in E2. injection E2 as E2n E2c.
      pose proof (Hs n1 c H1' ltac:(discriminate) r Hin E2c) as H.
      rewrite E2n in H. specialize (H Hsim).
      rewrite row_key, E2n, E2c in Hfresh. congruence.
    + now apply (Ha n1 n2 c).
  - intros n c Hanc Hcur r2 Hr2 Hc Hsim.
    destruct (anchor_put_inv _ _ _ _ _ Hanc) as [[E1 _]|Hanc'].
    + exfalso. apply Hcur. now rewrite E1.
    + rewrite kmem_put. rewrite (Hs n c); auto.
      * apply orb_true_r.
      * discriminate.
Qed.

Lemma inner_step_cases n c st r2 :
  walk_inv token_sort_ratio pc (Some (n, c)) st ->
  (mem (row_name r2, c) (fst st) = true \/ ~ similar token_sort_ratio n (row_name r2)) /\
  inner_step token_sort_ratio n c st r2 = st
  \/
  mem (row_name r2, c) (fst st) = false /\ similar token_sort_ratio n (row_name r2) /\
  inner_step token_sort_ratio n c st r2 =
    (put (row_name r2, c) n (fst st), (row_name r2, c) :: snd st).
Proof.
  intros Hinv. unfold inner_step. destruct st as [cm p]. simpl.
  rewrite (inv_processed _ _ _ _ Hinv). simpl.
  destruct (mem (row_name r2, c) cm) eqn:Hm; [left; auto|].
  unfold similar.
  destruct (88 <? token_sort_ratio n (row_name r2))%Z eqn:Hs.
  - right. apply Z.ltb_lt in Hs. auto.
  - left. apply Z.ltb_ge in Hs. split; [right; lia|reflexivity].
Qed.

Lemma inner_fold_inv n c sc : forall st,
  (forall r2, In r2 sc -> In r2 pc /\ row_category r2 = c) ->
  walk_inv token_sort_ratio pc (Some (n, c)) st -> anchor (fst st) n c ->
  let st' := fold_left (inner_step token_sort_ratio n c) sc st in
  walk_inv token_sort_ratio pc (Some (n, c)) st' /\ anchor (fst st') n c /\
  (forall k, mem k (fst st) = true -> mem k (fst st') = true) /\
  (forall r2, In r2 sc -> similar token_sort_ratio n (row_name r2) ->
              mem (row_name r2, c) (fst st') = true).
Proof.
  induction sc as [|r sc IH]; intros st Hsc Hinv Hanc; simpl.
  - split; [exact Hinv|]. split; [exact Hanc|]. split; [auto|].
    intros r2 [].
  - destruct (Hsc r (or_introl eq_refl)) as [Hrpc Hrc].
    assert (Hsc' : forall r2, In r2 sc -> In r2 pc /\ row_category r2 = c)
      by (intros r2 H; apply Hsc; now right).
    destruct (inner_step_cases n c st r Hinv) as [[Hwhy E]|(Hf & Hs & E)];
      rewrite E.
    + destruct (IH st Hsc' Hinv Hanc) as (I1 & I2 & I3 & I4).
      split; [exact I1|]. split; [exact I2|]. split; [exact I3|].
      intros r2 [<-|Hin] Hsim; [|now apply I4].
      destruct Hwhy as [Hm|Hn]; [now apply I3|contradiction].
    + pose proof (walk_inv_merge n c st r Hinv Hanc Hrpc Hrc Hf Hs) as Hinv'.
      assert (Hanc' : anchor (fst (put (row_name r, c) n (fst st),
                                   (row_name r, c) :: snd st)) n c)
        by (simpl; now apply anchor_put_fresh).
      destruct (IH _ Hsc' Hinv' Hanc') as (I1 & I2 & I3 & I4).
      simpl in I3.
      split; [exact I1|]. split; [exact I2|]. split.
      * intros k Hk. apply I3. rewrite kmem_put, Hk. apply orb_true_r.
      * intros r2 [<-|Hin] Hsim; [|now apply I4].
        apply I3. rewrite kmem_put.
        now rewrite key_eqb_refl.
Qed.

Lemma outer_step_inv st r :
  walk_inv token_sort_ratio pc None st -> In r pc ->
  let st' := outer_step token_sort_ratio pc st r in
  walk_inv token_sort_ratio pc None st' /\ mem (fst r) (fst st') = true /\
  (forall k, mem k (fst st) = true -> mem k (fst st') = true).
Proof.
  intros Hinv Hin. unfold outer_step. destruct st as [cm p].
  rewrite <- row_key, (inv_processed _ _ _ _ Hinv). simpl.
  destruct (mem (fst r) cm) eqn:Hm.
  { split; [exact Hinv|]. split; [exact Hm|auto]. }
  destruct (walk_inv_anchor (cm, p) r Hinv Hin Hm) as [Hinv1 Hanc1].
  rewrite row_key in Hinv1 at 1.
  set (sc := filter _ pc).
  assert (Hsc : forall r2, In r2 sc ->
                           In r2 pc /\ row_category r2 = row_category r).
  { intros r2 H. apply filter_In in H. destruct H as [H1 H2].
    split; [exact H1|]. now apply String.eqb_eq in H2. }
  destruct (inner_fold_inv (row_name r) (row_category r) sc _ Hsc Hinv1 Hanc1)
    as (I1 & I2 & I3 & I4).
  simpl in I3. split; [|split].
  - destruct I1 as [Hp Hr Hmg Ha Hs]. constructor; auto.
    intros n c Hanc _ r2 Hr2 Hc Hsim.
    destruct (key_eqb (n, c) (row_name r, row_category r)) eqn:E.
    + apply key_eqb_eq in E. injection E as -> ->.
      apply I4; [|exact Hsim]. apply filter_In. split; [exact Hr2|].
      now apply String.eqb_eq.
    + apply (Hs n c); auto. intros E'. apply key_eqb_false in E. congruence.
  - apply I3. rewrite kmem_put. now rewrite key_eqb_refl.
  - intros k Hk. apply I3. rewrite kmem_put, Hk. apply orb_true_r.
Qed.

Lemma walk_fold_inv rows : forall st,
  (forall r, In r rows -> In r pc) -> walk_inv token_sort_ratio pc None st ->
  let st' := fold_left (outer_step token_sort_ratio pc) rows st in
  walk_inv token_sort_ratio pc None st' /\
  (forall k, mem k (fst st) = true -> mem k (fst st') = true) /\
  (forall r, In r rows -> mem (fst r) (fst st') = true).
Proof.
  induction rows as [|r rows IH]; intros st Hsub Hinv; simpl.
  - split; [exact Hinv|]. split; [auto|]. intros r [].
  - destruct (outer_step_inv st r Hinv (Hsub r (or_introl eq_refl)))
      as (H1 & H2 & H3).
    destruct (IH _ (fun r' H => Hsub r' (or_intror H)) H1) as (I1 & I2 & I3).
    split; [exact I1|]. split; [auto|].
    intros r' [<-|Hin]; [now apply I2|now apply I3].
Qed.

End ResolutionFacts.

(* ------------------------------------------------------------------ *)
(** ** The table of groups *)

Lemma scmp_eq a b : String.compare a b = Eq <-> a = b.
Proof. exact (String_as_OT.cmp_eq a b). Qed.

Lemma scmp_refl a : String.compare a a = Eq.
Proof. now apply scmp_eq. Qed.

Lemma scmp_antisym a b : String.compare a b = CompOpp (String.compare b a).
Proof. exact (String_as_OT.cmp_antisym a b). Qed.

Lemma scmp_lt_trans a b c :
  String.compare a b = Lt -> String.compare b c = Lt ->
  String.compare a c = Lt.
Proof.
  intros H1 H2. apply String_as_OT.cmp_lt.
  apply String_as_OT.cmp_lt in H1, H2.
  eapply String_as_OT.lt_trans; eassumption.
Qed.

Lemma key_compare_eq a b : key_compare a b = Eq <-> a = b.
Proof.
  unfold key_compare. destruct a as [a1 a2], b as [b1 b2]. simpl.
  destruct (String.compare a1 b1) eqn:E1.
  - apply scmp_eq in E1. subst b1. rewrite scmp_eq. split; congruence.
  - split; [discriminate|]. intros [= -> ->].
    rewrite scmp_refl in E1. discriminate.
  - split; [discriminate|]. intros [= -> ->].
    rewrite scmp_refl in E1. discriminate.
Qed.

Lemma key_compare_antisym a b : key_compare a b = CompOpp (key_compare b a).
Proof.
  unfold key_compare. destruct a as [a1 a2], b as [b1 b2]. simpl.
  rewrite (scmp_antisym a1 b1).
  destruct (String.compare b1 a1); simpl; try reflexivity.
  apply scmp_antisym.
Qed.

Lemma key_compare_gt a b : key_compare a b = Gt -> key_lt b a.
Proof.
  intros H. unfold key_lt. rewrite key_compare_antisym, H. reflexivity.
Qed.

Lemma key_lt_trans a b c : key_lt a b -> key_lt b c -> key_lt a c.
Proof.
  unfold key_lt, key_compare.
  destruct a as [a1 a2], b as [b1 b2], c as [c1 c2]. simpl.
  destruct (String.compare a1 b1) eqn:E1; try discriminate;
    destruct (String.compare b1 c1) eqn:E2; try discriminate; intros H1 H2.
  - apply scmp_eq in E1, E2. subst. rewrite scmp_refl.
    eapply scmp_lt_trans; eassumption.
  - apply scmp_eq in E1. subst. now rewrite E2.
  - apply scmp_eq in E2. subst. now rewrite E1.
  - now rewrite (scmp_lt_trans _ _ _ E1 E2).
Qed.

Lemma key_lt_irrefl a : ~ key_lt a a.
Proof.
  unfold key_lt. rewrite (proj2 (key_compare_eq a a) eq_refl). discriminate.
Qed.

Lemma In_count_insert k t x :
  In x (map fst (count_insert k t)) <-> x = k \/ In x (map fst t).
Proof.
  induction t as [|[k' n] t IH]; simpl.
  - intuition congruence.
  - destruct (key_compare k k') eqn:E; simpl.
    + apply key_compare_eq in E. subst. intuition congruence.
    + intuition congruence.
    + rewrite IH. intuition congruence.
Qed.

Lemma In_groupby_size l x :
  In x (map fst (groupby_size l)) <-> In x l.
Proof.
  unfold groupby_size.
  assert (H : forall t, In x (map fst (fold_left (fun t k => count_insert k t)
                                                  l t))
                        <-> In x l \/ In x (map fst t)).
  { induction l as [|k l IH]; intros t; simpl.
    - tauto.
    - rewrite IH, In_count_insert. intuition congruence. }
  rewrite H. simpl. tauto.
Qed.

Lemma table_count_below k t :
  Forall (key_lt k) (map fst t) -> table_count k t = 0.
Proof.
  unfold table_count. induction t as [|[k' n] t IH]; simpl; [reflexivity|].
  intros H. inversion H as [|? ? Hlt Hrest]; subst.
  destruct (key_eqb k k') eqn:E.
  - apply key_eqb_eq in E. subst. now apply key_lt_irrefl in Hlt.
  - now apply IH.
Qed.

Lemma count_insert_ascending k t :
  ascending t -> ascending (count_insert k t).
Proof.
  unfold ascending. induction t as [|[k' n] t IH]; simpl; intros H.
  - repeat constructor.
  - inversion H as [|? ? Hs Hf]; subst.
    destruct (key_compare k k') eqn:E; simpl.
    + constructor; assumption.
    + constructor; [exact H|]. constructor; [exact E|].
      eapply Forall_impl; [|exact Hf]. intros a Ha.
      eapply key_lt_trans; eassumption.
    + constructor; [now apply IH|].
      apply Forall_forall. intros x Hx. apply In_count_insert in Hx.
      destruct Hx as [->|Hx]; [now apply key_compare_gt|].
      rewrite Forall_forall in Hf. now apply Hf.
Qed.

Lemma count_insert_count k t x :
  ascending t ->
  table_count x (count_insert k t) =
  if key_eqb x k then S (table_count k t) else table_count x t.
Proof.
  unfold ascending. induction t as [|[k' n] t IH]; simpl; intros H.
  - unfold table_count. simpl. now destruct (key_eqb x k).
  - inversion H as [|? ? Hs Hf]; subst.
    destruct (key_compare k k') eqn:E.
    + apply key_compare_eq in E. subst k'.
      unfold table_count. simpl. rewrite key_eqb_refl.
      now destruct (key_eqb x k).
    + assert (Hk : table_count k ((k', n) :: t) = 0).
      { apply table_count_below. simpl. constructor; [exact E|].
        eapply Forall_impl; [|exact Hf]. intros a Ha.
        eapply key_lt_trans; eassumption. }
      unfold table_count in *. simpl in *.
      destruct (key_eqb x k); [now rewrite Hk|reflexivity].
    + assert (Hne : key_eqb k k' = false).
      { destruct (key_eqb k k') eqn:E'; [|reflexivity].
        apply key_eqb_eq in E'. subst.
        rewrite (proj2 (key_compare_eq k' k') eq_refl) in E. discriminate. }
      specialize (IH Hs). unfold table_count in *. simpl. rewrite Hne.
      destruct (key_eqb x k') eqn:Ex.
      * apply key_eqb_eq in Ex. subst x.
        destruct (key_eqb k' k) eqn:E'; [|reflexivity].
        apply key_eqb_eq in E'. subst. rewrite key_eqb_refl in Hne.
        discriminate.
      * exact IH.
Qed.

Lemma groupby_size_spec l :
  ascending (groupby_size l) /\
  forall x, table_count x (groupby_size l) = count_occ key_eq_dec l x.
Proof.
  unfold groupby_size.
  assert (H : forall t, ascending t ->
    ascending (fold_left (fun t k => count_insert k t) l t) /\
    forall x, table_count x (fold_left (fun t k => count_insert k t) l t)
              = count_occ key_eq_dec l x + table_count x t).
  { induction l as [|k l IH]; intros t Ht; simpl.
    - split; [exact Ht|reflexivity].
    - destruct (IH _ (count_insert_ascending k t Ht)) as [H1 H2].
      split; [exact H1|]. intros x. rewrite H2, count_insert_count by exact Ht.
      destruct (key_eq_dec k x) as [->|Hne].
      + rewrite key_eqb_refl. lia.
      + destruct (key_eqb x k) eqn:E; [|reflexivity].
        apply key_eqb_eq in E. congruence. }
  destruct (H [] ltac:(constructor)) as [H1 H2].
  split; [exact H1|]. intros x. rewrite H2. unfold table_count. simpl. lia.
Qed.

(* ------------------------------------------------------------------ *)
(** ** Entity resolution: the threshold and the categories *)

Lemma resolve_items_map sort_values token_sort_ratio items :
  resolve_items sort_values token_sort_ratio items =
  map (apply_canonical_map
         (fst (resolution_walk token_sort_ratio
                 (product_counts_of sort_values items)))) items.
Proof. now destruct items. Qed.

Lemma apply_canonical_map_hit cm item v :
  Dict.get key_eqb (item_key item) cm = Some v ->
  let item' := apply_canonical_map cm item in
  item'.(canonical_name) = v /\
  item'.(category) = item.(category) /\
  item'.(item_order) = item.(item_order) /\
  item'.(item_product) = item.(item_product) /\
  item'.(item_name) = item.(item_name) /\
  item'.(quantity) = item.(quantity) /\
  item'.(unit_price_cents) = item.(unit_price_cents) /\
  item'.(total_price_cents) = item.(total_price_cents) /\
  (v = item.(canonical_name) -> item' = item).
Proof.
  intros H. unfold apply_canonical_map. rewrite H.
  destruct (String.eqb v (canonical_name item)) eqn:E; simpl.
  - apply String.eqb_eq in E. repeat split; auto.
  - repeat split; auto. intros ->. rewrite String.eqb_refl in E.
    discriminate.
Qed.

Section ResolutionOfItems.

Variable sort_values : list row -> list row.
Variable token_sort_ratio : string -> string -> Z.
Hypothesis sort_values_perm : forall l, Permutation (sort_values l) l.

Variable items : list OrderItem.

Local Abbreviation pc := (product_counts_of sort_values items).
Local Abbreviation cm := (fst (resolution_walk token_sort_ratio pc)).

Lemma final_walk_inv : walk_inv token_sort_ratio pc None
                                (resolution_walk token_sort_ratio pc).
Proof.
  unfold resolution_walk.
  apply (walk_fold_inv token_sort_ratio pc pc ([], [])); auto.
  apply walk_inv_init.
Qed.

Lemma pc_keys k : (exists cnt, In (k, cnt) pc) <-> In k (map item_key items).
Proof.
  unfold product_counts_of.
  rewrite <- In_groupby_size. split.
  - intros [cnt H]. apply (Permutation_in _ (sort_values_perm _)) in H.
    apply in_map_iff. now exists (k, cnt).
  - intros H. apply in_map_iff in H. destruct H as [[k' cnt] [E H]].
    simpl in E. subst k'. exists cnt.
    apply (Permutation_in _ (Permutation_sym (sort_values_perm _))). exact H.
Qed.

Lemma item_key_mapped item :
  In item items -> exists v, Dict.get key_eqb (item_key item) cm = Some v.
Proof.
  intros Hin. apply kmem_get. unfold resolution_walk.
  destruct (proj2 (pc_keys (item_key item)) (in_map item_key _ _ Hin))
    as [cnt Hrow].
  destruct (walk_fold_inv token_sort_ratio pc pc ([], [])
              (fun r H => H) (walk_inv_init _ _)) as (_ & _ & H).
  exact (H _ Hrow).
Qed.

Lemma mapped_is_anchor n c v :
  Dict.get key_eqb (n, c) cm = Some v -> anchor cm v c.
Proof.
  intros H. destruct (string_dec v n) as [->|Hne]; [exact H|].
  now destruct (inv_merged _ _ _ _ final_walk_inv _ _ _ H Hne).
Qed.

Lemma anchor_item v c :
  anchor cm v c ->
  exists a, In a items /\ a.(canonical_name) = v /\ category_val a = c /\
            apply_canonical_map cm a = a.
Proof.
  intros Ha.
  destruct (inv_rows _ _ _ _ final_walk_inv _ _ Ha) as [cnt Hrow].
  assert (Hk : In (v, c) (map item_key items))
    by (apply pc_keys; now exists cnt).
  apply in_map_iff in Hk. destruct Hk as [a [E Hin]].
  unfold item_key in E. injection E as E1 E2.
  exists a. repeat split; auto.
  assert (Hg : Dict.get key_eqb (item_key a) cm = Some v).
  { unfold item_key. rewrite E1, E2. exact Ha. }
  now apply (apply_canonical_map_hit cm a v Hg).
Qed.

(** C1.  Entity resolution leaves the items in place and changes nothing
    but canonical names.  An item takes another name only when the
    token-sort score of the new name and its own name strictly exceeds 88,
    and the new name is the name of an anchor group of the item's own
    category, which itself keeps its name.  Conversely two items that are
    left with different names in one category have a score of at most 88, in
    the order of the arguments in which the walk compared them (the anchor
    met first, then the other): a score of 89 merges, a score of 88 does
    not. *)
Theorem entity_resolution_threshold :
  let items' := resolve_items sort_values token_sort_ratio items in
  List.length items' = List.length items /\
  (forall i item, nth_error items i = Some item ->
     exists item', nth_error items' i = Some item' /\
       item'.(category) = item.(category) /\
       item'.(item_order) = item.(item_order) /\
       item'.(item_product) = item.(item_product) /\
       item'.(item_name) = item.(item_name) /\
       item'.(quantity) = item.(quantity) /\
       item'.(unit_price_cents) = item.(unit_price_cents) /\
       item'.(total_price_cents) = item.(total_price_cents) /\
       (item'.(canonical_name) = item.(canonical_name) \/
        (88 < token_sort_ratio item'.(canonical_name)
                               item.(canonical_name))%Z /\
        exists a, In a items /\ In a items' /\
                  a.(canonical_name) = item'.(canonical_name) /\
                  a.(category) = item.(category))) /\
  (forall x y, In x items' -> In y items' ->
     x.(category) = y.(category) ->
     x.(canonical_name) <> y.(canonical_name) ->
     (token_sort_ratio x.(canonical_name) y.(canonical_name) <= 88)%Z \/
     (token_sort_ratio y.(canonical_name) x.(canonical_name) <= 88)%Z).
Proof.
  cbv zeta. rewrite resolve_items_map.
  split; [apply length_map|]. split.
  - intros i item Hnth. exists (apply_canonical_map cm item).
    rewrite nth_error_map, Hnth. split; [reflexivity|].
    assert (Hin : In item items) by (eapply nth_error_In; eassumption).
    destruct (item_key_mapped item Hin) as [v Hv].
    destruct (apply_canonical_map_hit cm item v Hv)
      as (E & H1 & H2 & H3 & H4 & H5 & H6 & H7 & _).
    do 7 (split; [assumption|]).
    rewrite E. destruct (string_dec v item.(canonical_name)) as [->|Hne];
      [now left|right].
    destruct (inv_merged _ _ _ _ final_walk_inv _ _ _ Hv Hne) as [Hs Ha].
    split; [exact Hs|].
    destruct (anchor_item _ _ Ha) as (a & Ha1 & Ha2 & Ha3 & Ha4).
    exists a. split; [exact Ha1|]. split.
    + rewrite <- Ha4. now apply in_map.
    + split; [exact Ha2|]. now apply category_value_inj.
  - intros x y Hx Hy Hc Hn.
    apply in_map_iff in Hx, Hy.
    destruct Hx as (x0 & <- & Hx0), Hy as (y0 & <- & Hy0).
    destruct (item_key_mapped x0 Hx0) as [vx Hvx].
    destruct (item_key_mapped y0 Hy0) as [vy Hvy].
    destruct (apply_canonical_map_hit cm x0 vx Hvx) as (Ex & Cx & _).
    destruct (apply_canonical_map_hit cm y0 vy Hvy) as (Ey & Cy & _).
    rewrite Ex, Ey in *. rewrite Cx, Cy in Hc.
    pose proof (mapped_is_anchor _ _ _ Hvx) as Ax.
    pose proof (mapped_is_anchor _ _ _ Hvy) as Ay.
    unfold category_val in Ay. rewrite <- Hc in Ay.
    destruct (inv_apart _ _ _ _ final_walk_inv vx vy _ Hn Ax Ay) as [H|H];
      unfold similar in H; [left|right]; lia.
Qed.

End ResolutionOfItems.

Lemma entity_resolution_threshold_witness :
  List.length (resolve_items (fun l => l) toy_ratio cola_coke_fries) = 4%nat.
Proof.
  destruct (entity_resolution_threshold (fun l => l) toy_ratio
              (fun l => Permutation_refl l) cola_coke_fries) as [H _].
  exact H.
Defined.

(** With rows sorted by count, the more frequent "cola" is the anchor and
    "coke" takes its name; "wrap", in another category, is left alone. *)
Example resolution_of_cola_coke_fries :
  map canonical_name
      (resolve_items sort_values_stable toy_ratio cola_coke_fries)
    = ["cola"; "cola"; "cola"; "wrap"] /\
  map category (resolve_items sort_values_stable toy_ratio cola_coke_fries)
    = [BEVERAGES; BEVERAGES; BEVERAGES; SANDWICHES].
Proof. split; vm_compute; reflexivity. Qed.

(* ------------------------------------------------------------------ *)
(** ** The order of the walk *)

(** C4, counterexample.  Two registries hold the same two items, each
    once, in opposite orders.  The order of first appearance differs, the
    table that is sorted by count does not: no sort of that table gives the
    order of first appearance for both, and a stable sort gives "cola"
    before "fries" where "fries" appeared first. *)
Lemma walk_order_ignores_first_appearance :
  (~ exists sort_values : list row -> list row,
       product_counts_of sort_values fries_then_cola
         = spec_walk_order fries_then_cola /\
       product_counts_of sort_values cola_then_fries
         = spec_walk_order cola_then_fries) /\
  spec_walk_order fries_then_cola
    = [(("fries", "sides"), 1); (("cola", "beverages"), 1)] /\
  product_counts_of sort_values_stable fries_then_cola
    = [(("cola", "beverages"), 1); (("fries", "sides"), 1)].
Proof.
  split; [|split; reflexivity].
  intros [sv [H1 H2]]. unfold product_counts_of in H1, H2.
  change (groupby_size (map item_key cola_then_fries))
    with (groupby_size (map item_key fries_then_cola)) in H2.
  rewrite H1 in H2. vm_compute in H2. discriminate H2.
Qed.

Lemma insert_desc_perm r l : Permutation (insert_desc r l) (r :: l).
Proof.
  induction l as [|h t IH]; simpl; [reflexivity|].
  destruct (row_count h <=? row_count r)%nat; [reflexivity|].
  rewrite IH. apply perm_swap.
Qed.

Lemma sort_values_stable_perm l : Permutation (sort_values_stable l) l.
Proof.
  induction l as [|r l IH]; simpl; [constructor|].
  rewrite insert_desc_perm. now constructor.
Qed.

Lemma insert_desc_sorted r l :
  Sorted ge_count l -> Sorted ge_count (insert_desc r l).
Proof.
  induction l as [|h t IH]; simpl; intros H.
  - repeat constructor.
  - destruct (row_count h <=? row_count r)%nat eqn:E.
    + constructor; [exact H|]. constructor. apply Nat.leb_le in E. exact E.
    + apply Nat.leb_gt in E. inversion H as [|? ? Hs Hh]; subst.
      constructor; [now apply IH|].
      destruct t as [|h' t']; simpl.
      * constructor. unfold ge_count. lia.
      * destruct (row_count h' <=? row_count r)%nat.
        -- constructor. unfold ge_count. lia.
        -- inversion Hh; subst. now constructor.
Qed.

Lemma sort_values_stable_sorted l : Sorted ge_count (sort_values_stable l).
Proof.
  induction l as [|r l IH]; simpl; [constructor|].
  now apply insert_desc_sorted.
Qed.

Lemma ascending_keys_below k n t :
  ascending ((k, n) :: t) -> Forall (key_lt k) (map fst t).
Proof. intros H. now inversion H. Qed.

Lemma table_count_head k n t : table_count k ((k, n) :: t) = n.
Proof. unfold table_count. simpl. now rewrite key_eqb_refl. Qed.

Lemma table_count_tail x k n t :
  x <> k -> table_count x ((k, n) :: t) = table_count x t.
Proof.
  intros H. unfold table_count. simpl.
  destruct (key_eqb x k) eqn:E; [|reflexivity].
  apply key_eqb_eq in E. contradiction.
Qed.

Lemma count_insert_positive k t :
  positive_counts t -> positive_counts (count_insert k t).
Proof.
  unfold positive_counts. induction t as [|[k' n] t IH]; simpl; intros H.
  - repeat constructor.
  - inversion H; subst. destruct (key_compare k k').
    + constructor; [unfold row_count; simpl; lia|assumption].
    + constructor; [unfold row_count; simpl; lia|assumption].
    + constructor; [assumption|now apply IH].
Qed.

Lemma groupby_size_positive l : positive_counts (groupby_size l).
Proof.
  unfold groupby_size.
  assert (H : forall t, positive_counts t ->
                        positive_counts
                          (fold_left (fun t k => count_insert k t) l t)).
  { induction l as [|k l IH]; intros t Ht; simpl; [exact Ht|].
    apply IH. now apply count_insert_positive. }
  apply H. constructor.
Qed.

(** A table is determined by its counts. *)
Lemma table_ext t1 : forall t2,
  ascending t1 -> ascending t2 ->
  positive_counts t1 -> positive_counts t2 ->
  (forall x, table_count x t1 = table_count x t2) -> t1 = t2.
Proof.
  induction t1 as [|[k1 n1] t1 IH]; intros [|[k2 n2] t2] A1 A2 P1 P2 H.
  - reflexivity.
  - specialize (H k2). rewrite table_count_head in H.
    pose proof (Forall_inv P2) as Hp. unfold row_count in Hp. simpl in Hp.
    unfold table_count in H. simpl in H. lia.
  - specialize (H k1). rewrite table_count_head in H.
    pose proof (Forall_inv P1) as Hp. unfold row_count in Hp. simpl in Hp.
    unfold table_count in H. simpl in H. lia.
  - pose proof (ascending_keys_below _ _ _ A1) as B1.
    pose proof (ascending_keys_below _ _ _ A2) as B2.
    pose proof (Forall_inv P1) as Hp1. pose proof (Forall_inv_tail P1) as P1'.
    pose proof (Forall_inv P2) as Hp2. pose proof (Forall_inv_tail P2) as P2'.
    unfold row_count in Hp1, Hp2. simpl in Hp1, Hp2.
    assert (A1' : ascending t1) by (now inversion A1).
    assert (A2' : ascending t2) by (now inversion A2).
    destruct (key_compare k1 k2) eqn:E.
    + apply key_compare_eq in E. subst k2.
      pose proof (H k1) as Hk. rewrite !table_count_head in Hk. subst n2.
      f_equal. apply IH; auto.
      intros x. destruct (key_eq_dec x k1) as [->|Hne].
      * now rewrite !table_count_below.
      * specialize (H x). now rewrite !table_count_tail in H.
    + exfalso. specialize (H k1). rewrite table_count_head in H.
      rewrite table_count_below in H; [lia|].
      simpl. constructor; [exact E|].
      eapply Forall_impl; [|exact B2]. intros a Ha.
      eapply key_lt_trans; eassumption.
    + exfalso. apply key_compare_gt in E.
      specialize (H k2). rewrite table_count_head in H.
      rewrite table_count_below in H; [lia|].
      simpl. constructor; [exact E|].
      eapply Forall_impl; [|exact B1]. intros a Ha.
      eapply key_lt_trans; eassumption.
Qed.

Lemma groupby_size_perm l1 l2 :
  Permutation l1 l2 -> groupby_size l1 = groupby_size l2.
Proof.
  intros Hp.
  destruct (groupby_size_spec l1) as [A1 C1].
  destruct (groupby_size_spec l2) as [A2 C2].
  apply table_ext; auto using groupby_size_positive.
  intros x. rewrite C1, C2. now apply Permutation_count_occ.
Qed.

Lemma ascending_NoDup t : ascending t -> NoDup (map fst t).
Proof.
  unfold ascending. induction (map fst t) as [|k ks IH]; intros H.
  - constructor.
  - inversion H as [|? ? Hs Hf]; subst. constructor; [|now apply IH].
    intros Hin. rewrite Forall_forall in Hf.
    now apply (key_lt_irrefl k), Hf.
Qed.

Lemma ascending_In_count k n t :
  ascending t -> In (k, n) t -> table_count k t = n.
Proof.
  induction t as [|[k' n'] t IH]; simpl; intros A Hin; [contradiction|].
  destruct Hin as [E|Hin].
  - injection E as -> ->. apply table_count_head.
  - pose proof (ascending_keys_below _ _ _ A) as B.
    inversion A as [|? ? A' _]; subst.
    rewrite table_count_tail; [now apply IH|].
    intros ->. rewrite Forall_forall in B.
    apply (key_lt_irrefl k'), B, in_map_iff. now exists (k', n).
Qed.

Lemma table_count_In k t :
  0 < table_count k t -> In (k, table_count k t) t.
Proof.
  unfold table_count. induction t as [|[k' n'] t IH]; simpl; [lia|].
  destruct (key_eqb k k') eqn:E.
  - apply key_eqb_eq in E. subst. now left.
  - intros H. right. now apply IH.
Qed.

Lemma ge_count_trans a b c : ge_count a b -> ge_count b c -> ge_count a c.
Proof. unfold ge_count. lia. Qed.

(** C4, as the code has it.  The rows of [product_counts], over which the
    outer loop runs, are one row per group with the number of its items, in
    descending order of that number.  The order of first appearance plays no
    part: the rows are those of the table that [groupby] builds in ascending
    order of (canonical_name, category), put in order by the sort, so that
    two registries whose items differ in their order only are walked in the
    same order. *)
Theorem walk_order_spec (sort_values : list row -> list row) :
  (forall l, Permutation (sort_values l) l) ->
  (forall l, Sorted ge_count (sort_values l)) ->
  forall items,
    let keys := map item_key items in
    let pc := product_counts_of sort_values items in
    StronglySorted ge_count pc /\
    NoDup (map fst pc) /\
    (forall k n, In (k, n) pc <->
                 n = count_occ key_eq_dec keys k /\ 0 < n) /\
    pc = sort_values (groupby_size keys) /\
    ascending (groupby_size keys) /\
    (forall items2, Permutation items items2 ->
                    product_counts_of sort_values items2 = pc).
Proof.
  intros Hperm Hsorted items keys pc.
  destruct (groupby_size_spec keys) as [Hasc Hcount].
  pose proof (groupby_size_positive keys) as Hpos.
  assert (Hpc : Permutation pc (groupby_size keys)) by apply Hperm.
  split.
  { apply Sorted_StronglySorted; [|apply Hsorted].
    intros a b c. apply ge_count_trans. }
  split.
  { apply (Permutation_NoDup (Permutation_sym (Permutation_map fst Hpc))).
    now apply ascending_NoDup. }
  split.
  { intros k n. split.
    - intros Hin. apply (Permutation_in _ Hpc) in Hin.
      split.
      + rewrite <- Hcount. symmetry. now apply ascending_In_count.
      + unfold positive_counts in Hpos. rewrite Forall_forall in Hpos.
        apply (Hpos _ Hin).
    - intros [-> Hn]. apply (Permutation_in _ (Permutation_sym Hpc)).
      rewrite <- Hcount in *. now apply table_count_In. }
  split; [reflexivity|]. split; [exact Hasc|].
  intros items2 Hp. unfold pc, product_counts_of. f_equal.
  symmetry. apply groupby_size_perm. now apply Permutation_map.
Qed.

Lemma walk_order_spec_witness :
  product_counts_of sort_values_stable cola_then_fries =
  product_counts_of sort_values_stable fries_then_cola.
Proof.
  destruct (walk_order_spec sort_values_stable sort_values_stable_perm
              sort_values_stable_sorted fries_then_cola)
    as (_ & _ & _ & _ & _ & H).
  apply H. apply perm_swap.
Defined.

(* ------------------------------------------------------------------ *)
(** ** A source that fails *)

Lemma registry_extends_same r r' :
  r'.(orders) = r.(orders) -> r'.(order_items) = r.(order_items) ->
  registry_extends r r'.
Proof.
  intros H1 H2. split; exists []; now rewrite app_nil_r.
Qed.

Lemma orders_extend_refl w : orders_extend w w.
Proof. now apply registry_extends_same. Qed.

Lemma orders_extend_trans w1 w2 w3 :
  orders_extend w1 w2 -> orders_extend w2 w3 -> orders_extend w1 w3.
Proof.
  intros [[a Ha] [a' Ha']] [[b Hb] [b' Hb']]. split.
  - exists (a ++ b). now rewrite Hb, Ha, app_assoc.
  - exists (a' ++ b'). now rewrite Hb', Ha', app_assoc.
Qed.

Lemma grows_ret {A} (a : A) : grows (ret a).
Proof. intros w. apply orders_extend_refl. Qed.

Lemma grows_raise {A} e : grows (@raise A e).
Proof. intros w. apply orders_extend_refl. Qed.

Lemma grows_lift {A} (r : result A) : grows (lift r).
Proof. intros w. apply orders_extend_refl. Qed.

Lemma grows_get_registry : grows get_registry.
Proof. intros w. apply orders_extend_refl. Qed.

Lemma grows_get_cache : grows get_cache.
Proof. intros w. apply orders_extend_refl. Qed.

Lemma grows_set_cache m : grows (set_cache m).
Proof. intros w. now apply registry_extends_same. Qed.

Lemma grows_bind {A B} (m : M A) (k : A -> M B) :
  grows m -> (forall a, grows (k a)) -> grows (bind m k).
Proof.
  intros Hm Hk w. unfold bind. specialize (Hm w).
  destruct (m w) as [w' [a|e]]; simpl in *; [|exact Hm].
  eapply orders_extend_trans; [exact Hm|apply Hk].
Qed.

Lemma grows_for_each {A} (xs : list A) (body : A -> M unit) :
  (forall x, grows (body x)) -> grows (for_each xs body).
Proof.
  intros H. induction xs as [|x xs IH]; simpl.
  - apply grows_ret.
  - apply grows_bind; [apply H|intros _; exact IH].
Qed.

Lemma grows_modify (f : ModelRegistry -> ModelRegistry) :
  (forall r, registry_extends r (f r)) -> grows (modify_registry f).
Proof. intros H w. apply H. Qed.

Lemma get_or_create_location_orders r name src sid tz a c s z co :
  (get_or_create_location r name src sid tz a c s z co).(orders) = r.(orders)
  /\
  (get_or_create_location r name src sid tz a c s z co).(order_items)
    = r.(order_items).
Proof.
  unfold get_or_create_location.
  destruct (negb (smem name (locations r))); simpl;
    match goal with
    | |- context [match sget name ?d with _ => _ end] =>
        destruct (sget name d)
    end; simpl; auto.
Qed.

Create HintDb grows.
#[global] Hint Resolve grows_ret grows_raise grows_lift grows_get_registry
  grows_get_cache grows_set_cache : grows.

Section ToastFacts.

Variable iter_set : list string -> list string.
Variable normalize_timestamp : option string -> Z.
Variable to_local : Z -> string -> LocalTime.
Variable parse_business_date : string -> result Z.

Lemma grows_location_update name src sid tz a c s z co :
  grows (modify_registry (fun r =>
           get_or_create_location r name src sid tz a c s z co)).
Proof.
  apply grows_modify. intros r.
  apply registry_extends_same; apply get_or_create_location_orders.
Qed.

Lemma grows_toast_location m loc : grows (toast_location m loc).
Proof.
  unfold toast_location.
  destruct (tl_guid loc) as [g|], (tl_name loc) as [n|]; auto with grows.
  destruct (truthy (Some g) && truthy (Some n))%bool; auto with grows.
  apply grows_bind; [auto with grows|].
  intros [[[[line1 city'] state'] zip] country'].
  apply grows_bind; [apply grows_location_update|auto with grows].
Qed.

Lemma grows_toast_locations locs : forall m, grows (toast_locations m locs).
Proof.
  induction locs as [|loc locs IH]; intros m; simpl; auto with grows.
  apply grows_bind; [apply grows_toast_location|exact IH].
Qed.

Lemma grows_toast_order_location m order :
  grows (toast_order_location m order).
Proof.
  unfold toast_order_location.
  destruct (negb (truthy _)).
  - destruct (to_restaurantGuid order); auto with grows.
    apply grows_bind; [apply grows_location_update|auto with grows].
  - destruct (match to_restaurantGuid order with
              | Some g => sget g m | None => None end); auto with grows.
    apply grows_bind; [auto with grows|].
    intros r. destruct (smem s (locations r)); auto with grows.
Qed.

Lemma grows_toast_selection i sel : grows (toast_selection i sel).
Proof.
  unfold toast_selection. destruct (ts_voided sel); auto with grows.
  apply grows_bind.
  { destruct (truthy (ts_displayName sel)); auto with grows. }
  intros [raw_name|]; auto with grows.
  apply grows_bind; [auto with grows|]. intros [cn q].
  apply grows_bind; [auto with grows|]. intros group_name.
  apply grows_bind; [auto with grows|]. intros cache.
  apply grows_bind; [auto with grows|]. intros total.
  apply grows_modify. intros r. split; simpl.
  - exists []. now rewrite app_nil_r.
  - eexists. reflexivity.
Qed.

Lemma grows_toast_check order name check :
  grows (toast_check normalize_timestamp to_local parse_business_date
                     order name check).
Proof.
  unfold toast_check.
  apply grows_bind; [auto with grows|]. intros r.
  destruct (sget name (locations r)) as [location|]; auto with grows.
  apply grows_bind.
  { destruct (truthy (to_businessDate order)); auto with grows.
    destruct (to_businessDate order); auto with grows. }
  intros bd. apply grows_bind; [auto with grows|]. intros db.
  do 5 (apply grows_bind; [auto with grows|]; intro).
  apply grows_bind.
  - apply grows_modify. intros r'. split; simpl.
    + eexists. reflexivity.
    + exists []. now rewrite app_nil_r.
  - intros _. apply grows_for_each. intros sel. apply grows_toast_selection.
Qed.

Lemma grows_process_toast_body file :
  grows (process_toast_body iter_set normalize_timestamp to_local
                            parse_business_date file).
Proof.
  unfold process_toast_body.
  apply grows_bind; [auto with grows|]. intros data.
  apply grows_bind; [auto with grows|]. intros cats.
  apply grows_bind; [auto with grows|]. intros _.
  apply grows_bind; [apply grows_toast_locations|]. intros m.
  apply grows_for_each. intros order. unfold toast_order.
  apply grows_bind; [apply grows_toast_order_location|]. intros name.
  apply grows_for_each. intros check. apply grows_toast_check.
Qed.

End ToastFacts.

(** C8, counterexample.  The second order of the export raises an
    [AttributeError]; the handler of [process_toast] catches it, and the
    order and the item of the first order are in the registry. *)
Lemma failed_source_leaves_orders :
  let w0 := mkWorld new_registry None in
  let run := process_toast_body (fun l => l) at_epoch local_at_epoch
               date_at_epoch (Ok second_order_fails) w0 in
  let w := fst (process_toast (fun l => l) at_epoch local_at_epoch
                  date_at_epoch (Ok second_order_fails) w0) in
  snd run = Raise AttributeError /\
  w0.(registry).(orders) = [] /\
  map order_id w.(registry).(orders) = ["TOAST_c1"] /\
  map canonical_name w.(registry).(order_items) = ["churros"] /\
  map quantity w.(registry).(order_items) = [12%Z].
Proof. vm_compute. repeat split. Qed.

(** C8, as the code has it.  [process_toast] always ends normally, whatever
    its body raises.  A failed source is not undone: the lists of orders and
    of items after the call are the lists before the call followed by the
    orders and the items that were appended before the exception, and the
    state is the state before the call when the file cannot be read.  The
    rest of the run does not depend on the failure: the two other sources,
    entity resolution, the category-conflict pass and the creation of
    products are applied to the state that [process_toast] left. *)
Theorem process_toast_failure_is_contained
  (iter_set : list string -> list string)
  (normalize_timestamp : option string -> Z)
  (to_local : Z -> string -> LocalTime)
  (parse_business_date : string -> result Z)
  (process_doordash process_square : World -> World)
  (sort_values : list row -> list row)
  (token_sort_ratio : string -> string -> Z)
  (file : result ToastData) (w : World) :
  let toast := process_toast iter_set normalize_timestamp to_local
                             parse_business_date in
  snd (toast file w) = Ok tt /\
  fst (toast file w)
    = fst (process_toast_body iter_set normalize_timestamp to_local
                              parse_business_date file w) /\
  (exists added,
     (fst (toast file w)).(registry).(orders)
       = w.(registry).(orders) ++ added) /\
  (exists added,
     (fst (toast file w)).(registry).(order_items)
       = w.(registry).(order_items) ++ added) /\
  (forall e, file = Raise e -> fst (toast file w) = w) /\
  (forall cache,
     process_and_clean_data iter_set normalize_timestamp to_local
       parse_business_date process_doordash process_square sort_values
       token_sort_ratio file cache
     = _create_products_from_order_items
         (resolve_category_conflicts
            (perform_entity_resolution_on_models sort_values token_sort_ratio
               (process_square
                  (process_doordash
                     (fst (toast file (mkWorld new_registry cache)))))
               .(registry)))).
Proof.
  cbv zeta. split; [reflexivity|]. split; [reflexivity|].
  destruct (grows_process_toast_body iter_set normalize_timestamp to_local
              parse_business_date file w) as [Ho Hi].
  split; [exact Ho|]. split; [exact Hi|].
  split; [|reflexivity]. intros e ->. reflexivity.
Qed.

(* ------------------------------------------------------------------ *)
(** ** The quantity pattern *)

(** C6, counterexample.  Neither name ends with an integer and a unit word,
    yet the quantity is multiplied, and what follows the unit word is lost
    from the name: the pattern is searched anywhere in the name. *)
Lemma embedded_quantity_need_not_trail :
  spec_trailing_quantity "6pc Churros" = false /\
  clean_text "6pc Churros" = "6pc churros" /\
  extract_baked_quantity "6pc Churros" 1 = Ok ("unknown", 6%Z) /\
  spec_trailing_quantity "Wings 6pc Combo" = false /\
  clean_text "Wings 6pc Combo" = "wings 6pc combo" /\
  extract_baked_quantity "Wings 6pc Combo" 2 = Ok ("wings", 12%Z) /\
  spec_trailing_quantity "Churros 12pcs" = true.
Proof. vm_compute. repeat split. Qed.

Lemma lower_nil u : PyStr.lower u = EmptyString -> u = EmptyString.
Proof. destruct u; [reflexivity|discriminate]. Qed.

Lemma last_char_nonempty p q u :
  u <> EmptyString -> last_char p u = last_char q u.
Proof. destruct u; [contradiction|reflexivity]. Qed.

Lemma app_str_assoc (a b c : string) :
  ((a ++ b) ++ c)%string = (a ++ b ++ c)%string.
Proof. induction a; simpl; [reflexivity|now rewrite IHa]. Qed.

Lemma match_literal_sound lit : forall prev s,
  match_literal lit prev s = true ->
  exists u rest : string,
    s = (u ++ rest)%string /\ ci_eq u lit /\
    word_boundary (last_char prev u) rest = true.
Proof.
  induction lit as [|a lit IH]; intros prev s H; simpl in H.
  - exists EmptyString, s. repeat split. exact H.
  - destruct s as [|c s]; [discriminate|].
    apply andb_true_iff in H. destruct H as [Hc H].
    apply Ascii.eqb_eq in Hc.
    destruct (IH _ _ H) as (u & rest & -> & Hu & Hb).
    exists (String c u), rest. repeat split; [|exact Hb].
    unfold ci_eq, PyStr.lower in *. simpl. now rewrite Hc, Hu.
Qed.

Lemma match_literal_complete lit : forall prev u rest,
  ci_eq u lit -> word_boundary (last_char prev u) rest = true ->
  match_literal lit prev (u ++ rest) = true.
Proof.
  induction lit as [|a lit IH]; intros prev u rest Hu Hb.
  - apply lower_nil in Hu. subst u. exact Hb.
  - destruct u as [|c u]; [discriminate|].
    unfold ci_eq, PyStr.lower in Hu. simpl in Hu. injection Hu as Hc Hu.
    simpl. rewrite Hc, Ascii.eqb_refl. simpl. now apply IH.
Qed.

Lemma unit_word_nonempty lit u :
  In lit UNIT_WORDS -> ci_eq u lit -> u <> EmptyString.
Proof.
  intros Hin Hu ->. unfold ci_eq in Hu. simpl in Hu.
  unfold UNIT_WORDS in Hin. simpl in Hin.
  repeat (destruct Hin as [<-|Hin]; [discriminate|]). contradiction.
Qed.

Lemma match_unit_iff prev s : match_unit prev s = true <-> unit_at s.
Proof.
  unfold match_unit, unit_at. rewrite existsb_exists. split.
  - intros (lit & Hin & H).
    destruct (match_literal_sound _ _ _ H) as (u & rest & -> & Hu & Hb).
    exists u, rest, lit. repeat split; auto.
    now rewrite (last_char_nonempty None prev u (unit_word_nonempty _ _ Hin Hu)).
  - intros (u & rest & lit & -> & Hin & Hu & Hb). exists lit.
    split; [exact Hin|]. apply match_literal_complete; [exact Hu|].
    now rewrite (last_char_nonempty prev None u (unit_word_nonempty _ _ Hin Hu)).
Qed.

Lemma match_ws_unit_sound s : forall prev,
  match_ws_unit prev s = true ->
  exists ws s' : string,
    s = (ws ++ s')%string /\ PyStr.all_chars PyStr.is_space ws = true /\
    unit_at s'.
Proof.
  induction s as [|c s IH]; intros prev H; simpl in H.
  - exists EmptyString, EmptyString. repeat split.
    now apply (match_unit_iff prev).
  - apply orb_true_iff in H. destruct H as [H|H].
    + apply andb_true_iff in H. destruct H as [Hc H].
      destruct (IH _ H) as (ws & s' & -> & Hws & Hu).
      exists (String c ws), s'. repeat split; [|exact Hu].
      simpl. now rewrite Hc.
    + exists EmptyString, (String c s). repeat split.
      now apply (match_unit_iff prev).
Qed.

Lemma match_unit_ws_unit prev s :
  match_unit prev s = true -> match_ws_unit prev s = true.
Proof.
  intros H. destruct s; simpl; [exact H|]. rewrite H. apply orb_true_r.
Qed.

Lemma match_ws_unit_complete ws : forall prev s',
  PyStr.all_chars PyStr.is_space ws = true -> unit_at s' ->
  match_ws_unit prev (ws ++ s') = true.
Proof.
  induction ws as [|c ws IH]; intros prev s' Hws Hu; simpl.
  - apply match_unit_ws_unit. now apply match_unit_iff.
  - simpl in Hws. apply andb_true_iff in Hws. destruct Hws as [Hc Hws].
    rewrite Hc, (IH _ _ Hws Hu). reflexivity.
Qed.

Lemma match_ws_unit_iff prev s : match_ws_unit prev s = true <-> ws_unit_at s.
Proof.
  split; [apply match_ws_unit_sound|].
  intros (ws & s' & -> & Hws & Hu). now apply match_ws_unit_complete.
Qed.

Lemma match_more_digits_sound s : forall prev ds,
  match_more_digits prev s = Some ds ->
  PyStr.all_chars PyStr.is_digit ds = true /\
  exists s' : string, s = (ds ++ s')%string /\ ws_unit_at s'.
Proof.
  assert (Hstop : forall prev s ds,
            (if match_ws_unit (Some prev) s then Some EmptyString else None)
              = Some ds ->
            PyStr.all_chars PyStr.is_digit ds = true /\
            exists s' : string, s = (ds ++ s')%string /\ ws_unit_at s').
  { intros prev s0 ds H. destruct (match_ws_unit (Some prev) s0) eqn:E;
      [|discriminate].
    injection H as <-. split; [reflexivity|]. exists s0.
    split; [reflexivity|]. now apply (match_ws_unit_iff (Some prev)). }
  induction s as [|c s IH]; intros prev ds H; simpl in H.
  - now apply (Hstop prev).
  - destruct (PyStr.is_digit c) eqn:Hc; [|now apply (Hstop prev)].
    destruct (match_more_digits c s) as [ds'|] eqn:E;
      [|now apply (Hstop prev)].
    injection H as <-. destruct (IH _ _ E) as (Hd & s' & -> & Hw).
    split; [simpl; now rewrite Hc|]. now exists s'.
Qed.

Lemma match_more_digits_unfold prev s :
  match_more_digits prev s =
  let stop :=
    if match_ws_unit (Some prev) s then Some EmptyString else None in
  match s with
  | String c s' =>
      if PyStr.is_digit c
      then match match_more_digits c s' with
           | Some ds => Some (String c ds)
           | None => stop
           end
      else stop
  | EmptyString => stop
  end.
Proof. destruct s; reflexivity. Qed.

Lemma match_more_digits_complete ds : forall prev s',
  PyStr.all_chars PyStr.is_digit ds = true -> ws_unit_at s' ->
  match_more_digits prev (ds ++ s') <> None.
Proof.
  induction ds as [|c ds IH]; intros prev s' Hd Hw.
  - simpl. apply (match_ws_unit_iff (Some prev)) in Hw.
    rewrite match_more_digits_unfold, Hw. cbv zeta.
    destruct s' as [|c s']; [discriminate|].
    destruct (PyStr.is_digit c); [|discriminate].
    destruct (match_more_digits c s'); discriminate.
  - simpl in Hd. apply andb_true_iff in Hd. destruct Hd as [Hc Hd].
    simpl. rewrite Hc. specialize (IH c s' Hd Hw).
    destruct (match_more_digits c (ds ++ s')); [discriminate|contradiction].
Qed.

Lemma match_number_sound s g2 : match_number s = Some g2 -> number_at g2 s.
Proof.
  unfold match_number, number_at. destruct s as [|c s]; [discriminate|].
  destruct (PyStr.is_digit c) eqn:Hc; [|discriminate].
  destruct (match_more_digits c s) as [ds|] eqn:E; [|discriminate].
  intros [= <-]. destruct (match_more_digits_sound _ _ _ E) as (Hd & s' & -> & Hw).
  split; [discriminate|]. split; [simpl; now rewrite Hc|]. now exists s'.
Qed.

Lemma match_number_complete s g2 : number_at g2 s -> match_number s <> None.
Proof.
  intros (Hne & Hd & s' & -> & Hw). destruct g2 as [|c ds]; [contradiction|].
  simpl in Hd. apply andb_true_iff in Hd. destruct Hd as [Hc Hd].
  simpl. rewrite Hc.
  pose proof (match_more_digits_complete ds c s' Hd Hw) as H.
  destruct (match_more_digits c (ds ++ s')); [discriminate|contradiction].
Qed.

Lemma pattern_at_split g1 g2 s :
  pattern_at g1 g2 s <->
  PyStr.all_chars not_newline g1 = true /\
  exists s' : string, s = (g1 ++ s')%string /\ number_at g2 s'.
Proof.
  unfold pattern_at, number_at, ws_unit_at, unit_at. split.
  - intros (ws & u & rest & lit & -> & H1 & H2 & H3 & H4 & H5 & H6 & H7).
    split; [exact H1|]. exists (g2 ++ ws ++ u ++ rest)%string.
    split; [reflexivity|]. split; [exact H2|]. split; [exact H3|].
    exists (ws ++ u ++ rest)%string. split; [reflexivity|].
    exists ws, (u ++ rest)%string. split; [reflexivity|].
    split; [exact H4|]. exists u, rest, lit. auto.
  - intros (H1 & s' & -> & H2 & H3 & s2 & -> & ws & s3 & -> & H4 &
            u & rest & lit & -> & H5 & H6 & H7).
    exists ws, u, rest, lit. auto 10.
Qed.

Lemma match_here_unfold s :
  match_here s =
  match match_number s with
  | Some g2 => Some (EmptyString, g2)
  | None =>
      match s with
      | String c s' =>
          if Ascii.eqb c newline then None
          else match match_here s' with
               | Some (g1, g2) => Some (String c g1, g2)
               | None => None
               end
      | EmptyString => None
      end
  end.
Proof. destruct s; reflexivity. Qed.

Lemma match_here_sound s : forall g1 g2,
  match_here s = Some (g1, g2) ->
  pattern_at g1 g2 s /\
  forall g1' g2', pattern_at g1' g2' s ->
                  String.length g1 <= String.length g1'.
Proof.
  induction s as [|c s IH]; intros g1 g2 H; rewrite match_here_unfold in H.
  - destruct (match_number EmptyString) as [g|] eqn:E; [|discriminate].
    injection H as <- <-. split; [|intros; simpl; lia].
    apply pattern_at_split. split; [reflexivity|].
    exists EmptyString. split; [reflexivity|]. now apply match_number_sound.
  - destruct (match_number (String c s)) as [g|] eqn:E.
    + injection H as <- <-. split; [|intros; simpl; lia].
      apply pattern_at_split. split; [reflexivity|].
      exists (String c s). split; [reflexivity|].
      now apply match_number_sound.
    + destruct (Ascii.eqb c newline) eqn:Hc; [discriminate|].
      destruct (match_here s) as [[h1 h2]|] eqn:Eh; [|discriminate].
      injection H as <- <-. destruct (IH _ _ eq_refl) as [Hp Hmin].
      apply pattern_at_split in Hp. destruct Hp as (Hn & s' & -> & Hnum).
      split.
      * apply pattern_at_split. split.
        -- simpl. unfold not_newline at 1. now rewrite Hc.
        -- exists s'. split; [reflexivity|exact Hnum].
      * intros g1' g2' Hp'. pose proof Hp' as Hp2.
        apply pattern_at_split in Hp'.
        destruct Hp' as (Hn' & s2 & Hs2 & Hnum').
        destruct g1' as [|c' g1'].
        -- simpl in Hs2. subst s2.
           apply match_number_complete in Hnum'. congruence.
        -- simpl in Hs2. injection Hs2 as -> Hs2. simpl.
           apply le_n_S. apply (Hmin g1' g2').
           apply pattern_at_split. simpl in Hn'.
           apply andb_true_iff in Hn'. destruct Hn' as [_ Hn'].
           split; [exact Hn'|]. exists s2. split; [exact Hs2|exact Hnum'].
Qed.

Lemma match_here_complete g1 : forall g2 s,
  pattern_at g1 g2 s -> match_here s <> None.
Proof.
  induction g1 as [|c g1 IH]; intros g2 s Hp;
    apply pattern_at_split in Hp; destruct Hp as (Hn & s' & -> & Hnum);
    rewrite match_here_unfold.
  - simpl. apply match_number_complete in Hnum.
    destruct (match_number s'); [discriminate|contradiction].
  - simpl in Hn. apply andb_true_iff in Hn. destruct Hn as [Hc Hn].
    destruct (match_number (String c g1 ++ s')); [discriminate|].
    simpl. unfold not_newline in Hc. apply negb_true_iff in Hc. rewrite Hc.
    assert (Hp : pattern_at g1 g2 (g1 ++ s')).
    { apply pattern_at_split. split; [exact Hn|]. now exists s'. }
    specialize (IH _ _ Hp).
    destruct (match_here (g1 ++ s')) as [[h1 h2]|];
      [discriminate|contradiction].
Qed.

Lemma search_unfold raw :
  QTY_PATTERN_search raw =
  match match_here raw with
  | Some g => Some g
  | None =>
      match raw with
      | String _ s' => QTY_PATTERN_search s'
      | EmptyString => None
      end
  end.
Proof. destruct raw; reflexivity. Qed.

Lemma search_sound raw : forall g1 g2,
  QTY_PATTERN_search raw = Some (g1, g2) ->
  exists before s : string,
    raw = (before ++ s)%string /\ match_here s = Some (g1, g2) /\
    forall before' s' : string,
      raw = (before' ++ s')%string ->
      String.length before' < String.length before -> match_here s' = None.
Proof.
  induction raw as [|c raw IH]; intros g1 g2 H; rewrite search_unfold in H.
  - destruct (match_here EmptyString) as [g|] eqn:E; [|discriminate].
    injection H as ->. exists EmptyString, EmptyString.
    split; [reflexivity|]. split; [exact E|]. intros b s _ Hl.
    simpl in Hl. lia.
  - destruct (match_here (String c raw)) as [g|] eqn:E.
    + injection H as ->. exists EmptyString, (String c raw).
      split; [reflexivity|]. split; [exact E|]. intros b s _ Hl.
      simpl in Hl. lia.
    + destruct (IH _ _ H) as (before & s & -> & Hs & Hmin).
      exists (String c before), s. split; [reflexivity|].
      split; [exact Hs|]. intros b' s' Heq Hl.
      destruct b' as [|c' b'].
      * simpl in Heq. subst s'. exact E.
      * simpl in Heq. injection Heq as -> Heq. simpl in Hl.
        apply (Hmin b' s' Heq). lia.
Qed.

Lemma search_complete before : forall s,
  match_here s <> None -> QTY_PATTERN_search (before ++ s) <> None.
Proof.
  induction before as [|c before IH]; intros s H.
  - simpl. rewrite search_unfold.
    destruct (match_here s); [discriminate|contradiction].
  - rewrite search_unfold.
    destruct (match_here (String c before ++ s)); [discriminate|].
    simpl. now apply IH.
Qed.

Lemma search_first raw g1 g2 :
  QTY_PATTERN_search raw = Some (g1, g2) -> first_pattern g1 g2 raw.
Proof.
  intros H. destruct (search_sound _ _ _ H) as (before & s & -> & Hs & Hmin).
  destruct (match_here_sound _ _ _ Hs) as [Hp Hshort].
  exists before, s. split; [reflexivity|]. split; [exact Hp|].
  split; [|exact Hshort].
  intros b' s' g1' g2' Heq Hp'.
  destruct (Nat.le_gt_cases (String.length before) (String.length b'))
    as [Hle|Hgt]; [exact Hle|].
  exfalso. apply (match_here_complete _ _ _ Hp'). now apply (Hmin b' s').
Qed.

Lemma search_none raw :
  QTY_PATTERN_search raw = None -> forall g1 g2, ~ pattern_in g1 g2 raw.
Proof.
  intros H g1 g2 (before & s & -> & Hp).
  apply (search_complete before s); [|exact H].
  now apply (match_here_complete g1 g2).
Qed.

Lemma all_chars_app f (a b : string) :
  PyStr.all_chars f (a ++ b) =
  (PyStr.all_chars f a && PyStr.all_chars f b)%bool.
Proof.
  induction a as [|c a IH]; simpl; [reflexivity|].
  now rewrite IH, andb_assoc.
Qed.

Lemma pattern_at_prepend b g1 g2 s :
  PyStr.all_chars not_newline b = true ->
  pattern_at g1 g2 s -> pattern_at (b ++ g1) g2 (b ++ s).
Proof.
  intros Hb (ws & u & rest & lit & -> & H1 & H).
  exists ws, u, rest, lit. split; [now rewrite app_str_assoc|].
  split; [|exact H]. now rewrite all_chars_app, Hb, H1.
Qed.

Lemma length_zero_nil (s : string) : String.length s <= 0 -> s = EmptyString.
Proof. destruct s; simpl; [reflexivity|lia]. Qed.

(** In a name of one line the first occurrence starts the name: group 1 is
    all the text before the integer. *)
Lemma first_pattern_one_line g1 g2 raw :
  PyStr.all_chars not_newline raw = true ->
  first_pattern g1 g2 raw -> pattern_at g1 g2 raw.
Proof.
  intros Hraw (before & s & -> & Hp & Hmin & _).
  rewrite all_chars_app in Hraw. apply andb_true_iff in Hraw.
  destruct Hraw as [Hb _].
  pose proof (Hmin EmptyString (before ++ s)%string (before ++ g1)%string g2
                   eq_refl (pattern_at_prepend _ _ _ _ Hb Hp)) as Hlen.
  simpl in Hlen. apply length_zero_nil in Hlen. now subst before.
Qed.

Lemma int_of_digit_string_cases s :
  ((Z.of_nat (String.length s) <= 4300)%Z ->
   int_of_digit_string s = Ok (int_of_digits s)) /\
  ((4300 < Z.of_nat (String.length s))%Z ->
   int_of_digit_string s = Raise ValueError).
Proof.
  unfold int_of_digit_string.
  destruct (within_digit_limit s) eqn:E.
  - apply within_digit_limit_spec in E. split; [reflexivity|lia].
  - split; [|reflexivity]. intros H. apply within_digit_limit_spec in H.
    congruence.
Qed.

(** C6, as the code has it.  [extract_baked_quantity] searches the name for
    an integer followed by whitespace, if any, and a unit-of-count word
    (pc, pcs, piece, pieces, ct, count, pack, in any case) that ends at a
    word boundary; the occurrence may stand anywhere in the name.  When
    there is one, the result is the cleaned text that stands before the
    integer of the first occurrence (all of it, in a name of one line), and
    the original quantity times that integer; what follows the unit word is
    dropped.  An integer of more than 4300 digits is one that [int]
    refuses: the call then ends with the [ValueError] of [int].  When there
    is no occurrence, the result is the cleaned name and the original
    quantity. *)
Theorem extract_baked_quantity_spec (raw_name : string) (original_qty : Z) :
  ((exists g1 g2, pattern_in g1 g2 raw_name) ->
   exists g1 g2,
     first_pattern g1 g2 raw_name /\
     (PyStr.all_chars not_newline raw_name = true ->
      pattern_at g1 g2 raw_name) /\
     ((Z.of_nat (String.length g2) <= 4300)%Z ->
      extract_baked_quantity raw_name original_qty
      = Ok (clean_text (PyStr.strip g1),
            (original_qty * int_of_digits g2)%Z)) /\
     ((4300 < Z.of_nat (String.length g2))%Z ->
      extract_baked_quantity raw_name original_qty = Raise ValueError)) /\
  ((forall g1 g2, ~ pattern_in g1 g2 raw_name) ->
   extract_baked_quantity raw_name original_qty
     = Ok (clean_text raw_name, original_qty)) /\
  extract_baked_quantity "Churros 12pcs" 1 = Ok ("churros", 12%Z) /\
  extract_baked_quantity "Plain Burger" 2 = Ok ("plain burger", 2%Z) /\
  extract_baked_quantity "Wings 6pc Combo" 2 = Ok ("wings", 12%Z).
Proof.
  split; [|split; [|repeat split; vm_compute; reflexivity]].
  - intros (h1 & h2 & Hin). unfold extract_baked_quantity.
    destruct (QTY_PATTERN_search raw_name) as [[g1 g2]|] eqn:E.
    + exists g1, g2. pose proof (search_first _ _ _ E) as Hf.
      split; [exact Hf|].
      split; [intros Hline; now apply first_pattern_one_line|].
      destruct (int_of_digit_string_cases g2) as [Hok Hraise].
      split; intros H; [rewrite (Hok H)|rewrite (Hraise H)]; reflexivity.
    + exfalso. exact (search_none _ E _ _ Hin).
  - intros Hnone. unfold extract_baked_quantity.
    destruct (QTY_PATTERN_search raw_name) as [[g1 g2]|] eqn:E;
      [|reflexivity].
    exfalso. destruct (search_first _ _ _ E) as (before & s & Heq & Hp & _).
    apply (Hnone g1 g2). now exists before, s.
Qed.

(* ================================================================== *)
(** * Further properties of the code *)
(* ================================================================== *)

(** ** Order identifiers and location names *)

(** X1.  [format_order_id] is injective: two formatted identifiers are
    equal only when both the source system and the external identifier are,
    so that identifiers of different sources never collide. *)
Theorem format_order_id_injective s1 s2 e1 e2 :
  format_order_id s1 e1 = format_order_id s2 e2 -> s1 = s2 /\ e1 = e2.
Proof.
  unfold format_order_id.
  destruct s1, s2; simpl; intros H; try discriminate H;
    injection H as H; now subst.
Qed.

Lemma format_order_id_injective_witness :
  TOAST = TOAST /\ "c1" = "c1".
Proof.
  apply (format_order_id_injective TOAST TOAST "c1" "c1"). reflexivity.
Defined.

Lemma LOCATION_MAPPING_values k v :
  sget k LOCATION_MAPPING = Some v -> In v CANONICAL_LOCATIONS.
Proof.
  unfold sget, LOCATION_MAPPING, CANONICAL_LOCATIONS. simpl.
  repeat (destruct (String.eqb k _);
          [intros [= <-]; simpl; tauto|]).
  discriminate.
Qed.

(** X2.  [get_location_name] returns one of the four canonical names,
    whatever the identifier, and a canonical name resolves to itself. *)
Theorem get_location_name_canonical location_id source :
  In (get_location_name location_id source) CANONICAL_LOCATIONS /\
  forall source',
    get_location_name (get_location_name location_id source) source'
    = get_location_name location_id source.
Proof.
  assert (H : In (get_location_name location_id source) CANONICAL_LOCATIONS).
  { unfold get_location_name.
    destruct (sget location_id LOCATION_MAPPING) as [v|] eqn:E.
    - now apply LOCATION_MAPPING_values in E.
    - cbv zeta. unfold CANONICAL_LOCATIONS.
      repeat (match goal with
              | |- context [if ?b then _ else _] => destruct b
              end; simpl; auto 6). }
  split; [exact H|]. intros source'.
  unfold CANONICAL_LOCATIONS in H. simpl in H.
  destruct H as [<-|[<-|[<-|[<-|[]]]]]; reflexivity.
Qed.

(* ------------------------------------------------------------------ *)
(** ** The category mapping and the normalization of categories *)

Lemma sset_fresh {V} k (v : V) m :
  smem k m = false -> sset k v m = m ++ [(k, v)].
Proof.
  unfold smem, Dict.mem, sset.
  induction m as [|[k' v'] m IH]; simpl; [reflexivity|].
  destruct (String.eqb k k'); [discriminate|].
  intros H. now rewrite IH.
Qed.

Lemma sget_In {V} k (v : V) m : sget k m = Some v -> In (k, v) m.
Proof.
  unfold sget. induction m as [|[k' v'] m IH]; simpl; [discriminate|].
  destruct (String.eqb k k') eqn:E.
  - apply String.eqb_eq in E. intros [= ->]. left. now subst.
  - intros H. right. now apply IH.
Qed.

Lemma partial_match_In c d v :
  partial_match c d = Some v -> exists k, In (k, v) d.
Proof.
  induction d as [|[k' v'] d IH]; simpl; [discriminate|].
  destruct (PyStr.contains k' c).
  - intros [= ->]. exists k'. now left.
  - destruct (PyStr.contains c k').
    + intros [= ->]. exists k'. now left.
    + intros H. destruct (IH H) as [k Hk]. exists k. now right.
Qed.

Lemma ProductCategory_of_value_sound v c :
  ProductCategory_of_value v = Some c -> category_value c = v.
Proof.
  unfold ProductCategory_of_value. intros H. apply find_some in H.
  now apply String.eqb_eq.
Qed.

Ltac category_value_found :=
  eexists; apply ProductCategory_of_value_sound; reflexivity.

Lemma BASE_CATEGORY_MAP_values :
  Forall (fun kv => is_category_value (snd kv)) BASE_CATEGORY_MAP.
Proof.
  unfold BASE_CATEGORY_MAP, CATEGORY_MAP.
  repeat (apply Forall_cons; [category_value_found|]). constructor.
Qed.

Lemma keyword_match_value c v :
  keyword_match c = Some v -> is_category_value v.
Proof.
  unfold keyword_match. cbv zeta.
  repeat (match goal with
          | |- context [if ?b then _ else _] => destruct b
          end);
    intros [= <-]; category_value_found.
Qed.

Lemma classify_value c v : classify c = Some v -> is_category_value v.
Proof.
  pose proof BASE_CATEGORY_MAP_values as Hb. rewrite Forall_forall in Hb.
  unfold classify.
  destruct (sget c BASE_CATEGORY_MAP) as [v1|] eqn:E1.
  - intros [= <-]. apply sget_In in E1. apply (Hb _ E1).
  - destruct (partial_match c BASE_CATEGORY_MAP) as [v2|] eqn:E2.
    + intros [= <-]. apply partial_match_In in E2. destruct E2 as [k Hk].
      apply (Hb _ Hk).
    + apply keyword_match_value.
Qed.

Lemma mapping_step_cases m c :
  mapping_step m c = m \/
  exists v, smem c m = false /\ classify c = Some v /\
            mapping_step m c = m ++ [(c, v)].
Proof.
  unfold mapping_step, classify.
  destruct (smem c m) eqn:Hm; [now left|].
  destruct (sget c BASE_CATEGORY_MAP) as [v|].
  { right. exists v. now rewrite sset_fresh. }
  destruct (partial_match c BASE_CATEGORY_MAP) as [v|].
  { right. exists v. now rewrite sset_fresh. }
  destruct (keyword_match c) as [v|]; [|now left].
  right. exists v. now rewrite sset_fresh.
Qed.

Lemma smem_app_l {V} k (m m' : Dict.t string V) :
  smem k m = true -> smem k (m ++ m') = true.
Proof.
  unfold smem, Dict.mem.
  induction m as [|[k' v'] m IH]; simpl; [discriminate|].
  destruct (String.eqb k k'); [reflexivity|exact IH].
Qed.

Lemma mapping_fold_cases l : forall m,
  exists added,
    fold_left mapping_step l m = m ++ added /\
    Forall (fun kv => In (fst kv) l /\ smem (fst kv) m = false /\
                      is_category_value (snd kv)) added.
Proof.
  induction l as [|c l IH]; intros m; simpl.
  - exists []. split; [now rewrite app_nil_r|constructor].
  - destruct (mapping_step_cases m c) as [E|(v & Hm & Hc & E)]; rewrite E.
    + destruct (IH m) as (added & E' & Hall). exists added.
      split; [exact E'|]. eapply Forall_impl; [|exact Hall].
      intros kv (H1 & H2 & H3). auto.
    + destruct (IH (m ++ [(c, v)])) as (added & E' & Hall).
      exists ((c, v) :: added). split.
      * rewrite E', <- app_assoc. reflexivity.
      * constructor.
        -- simpl. split; [now left|]. split; [exact Hm|].
           now apply (classify_value c).
        -- eapply Forall_impl; [|exact Hall].
           intros kv (H1 & H2 & H3). split; [now right|]. split; [|exact H3].
           destruct (smem (fst kv) m) eqn:Hk; [|reflexivity].
           now rewrite (smem_app_l _ _ _ Hk) in H2.
Qed.

Lemma sget_app_l {V} k (v : V) (m m' : Dict.t string V) :
  sget k m = Some v -> sget k (m ++ m') = Some v.
Proof.
  unfold sget. induction m as [|[k' v'] m IH]; simpl; [discriminate|].
  destruct (String.eqb k k'); [auto|exact IH].
Qed.

Lemma build_category_mapping_shape iter_set sq t d :
  exists added,
    build_category_mapping_from_catalogs iter_set sq t d
    = BASE_CATEGORY_MAP ++ added /\
    Forall (fun kv =>
              In (fst kv)
                 (iter_set (update_if (update_if (update_if [] sq) t) d)) /\
              smem (fst kv) BASE_CATEGORY_MAP = false /\
              is_category_value (snd kv)) added.
Proof. apply mapping_fold_cases. Qed.

Lemma build_category_mapping_values iter_set sq t d :
  Forall (fun kv => is_category_value (snd kv))
         (build_category_mapping_from_catalogs iter_set sq t d).
Proof.
  destruct (build_category_mapping_shape iter_set sq t d)
    as (added & E & Hall).
  rewrite E. apply Forall_app. split; [apply BASE_CATEGORY_MAP_values|].
  eapply Forall_impl; [|exact Hall]. intros kv (_ & _ & H). exact H.
Qed.

(** X3.  The mapping that [build_category_mapping_from_catalogs] returns is
    [BASE_CATEGORY_MAP], entry for entry and in the same order, followed by
    entries for labels of the given sets that are no base keys: no base
    entry is overwritten, no label from elsewhere is added, and every value
    of the mapping is the value of a member of [ProductCategory]. *)
Theorem build_category_mapping_extends_base
  (iter_set : list string -> list string)
  (sq t d : option (list string)) :
  enumerates iter_set ->
  let mapping := build_category_mapping_from_catalogs iter_set sq t d in
  exists added,
    mapping = BASE_CATEGORY_MAP ++ added /\
    (forall k v, sget k BASE_CATEGORY_MAP = Some v ->
                 sget k mapping = Some v) /\
    Forall (fun kv =>
              In (fst kv) (elements sq ++ elements t ++ elements d) /\
              smem (fst kv) BASE_CATEGORY_MAP = false) added /\
    Forall (fun kv => is_category_value (snd kv)) mapping.
Proof.
  intros Hit mapping. subst mapping.
  destruct (build_category_mapping_shape iter_set sq t d)
    as (added & E & Hall).
  exists added. split; [exact E|]. split.
  { intros k v Hk. rewrite E. now apply sget_app_l. }
  split; [|apply build_category_mapping_values].
  eapply Forall_impl; [|exact Hall]. intros kv (H1 & H2 & _).
  split; [|exact H2]. unfold enumerates in Hit.
  rewrite Hit, !In_update_if in H1. rewrite !in_app_iff. simpl in H1. tauto.
Qed.

Lemma build_category_mapping_extends_base_witness :
  exists added,
    build_category_mapping_from_catalogs (fun l => l)
      (Some ["steaks"; "burgers"]) None None
    = BASE_CATEGORY_MAP ++ added /\
    Forall (fun kv => In (fst kv) ["steaks"; "burgers"]) added.
Proof.
  destruct (build_category_mapping_extends_base (fun l => l)
              (Some ["steaks"; "burgers"]) None None)
    as (added & E & _ & H & _).
  - intros l x. tauto.
  - exists added. split; [exact E|].
    eapply Forall_impl; [|exact H]. intros kv [H1 _]. exact H1.
Defined.

Lemma first_key_in_In cleaned m v :
  first_key_in cleaned m = Some v -> exists k, In (k, v) m.
Proof.
  induction m as [|[k' v'] m IH]; simpl; [discriminate|].
  destruct (PyStr.contains k' cleaned).
  - intros [= ->]. exists k'. now left.
  - intros H. destruct (IH H) as [k Hk]. exists k. now right.
Qed.

Lemma is_category_value_of_value v :
  is_category_value v ->
  exists c, category_value c = v /\ ProductCategory_of_value v = Some c.
Proof.
  intros [c <-]. exists c. split; [reflexivity|]. now destruct c.
Qed.

(** X4.  Whatever the label and the cleaning function, [normalize_category]
    returns the value of a member of [ProductCategory], both before any
    mapping was cached and with a cached mapping whose values are such
    values, as every mapping built by
    [build_category_mapping_from_catalogs] is: the conversion
    [ProductCategory(category_str)] that the adapters make of the result
    never raises [ValueError]. *)
Theorem normalize_category_is_category
  (cache : option (Dict.t string string)) (category : option string)
  (clean_text_func : option (string -> string)) :
  (forall m, cache = Some m ->
             Forall (fun kv => is_category_value (snd kv)) m) ->
  exists c,
    category_value c = normalize_category cache category clean_text_func /\
    ProductCategory_of_value
      (normalize_category cache category clean_text_func) = Some c.
Proof.
  intros Hcache. apply is_category_value_of_value.
  assert (Hmap : Forall (fun kv => is_category_value (snd kv))
                        (get_category_mapping cache)).
  { destruct cache as [m|]; simpl; [now apply Hcache|].
    apply BASE_CATEGORY_MAP_values. }
  rewrite Forall_forall in Hmap.
  unfold normalize_category.
  destruct category as [[|a s]|]; try (now exists UNKNOWN).
  cbv zeta.
  match goal with
  | |- context [sget ?x (get_category_mapping cache)] => set (cleaned := x)
  end.
  destruct (sget cleaned (get_category_mapping cache)) as [v|] eqn:E.
  - apply sget_In in E. apply (Hmap _ E).
  - destruct (first_key_in cleaned (get_category_mapping cache)) as [v|] eqn:F.
    + apply first_key_in_In in F. destruct F as [k Hk]. apply (Hmap _ Hk).
    + now exists UNKNOWN.
Qed.

Lemma normalize_category_is_category_witness :
  exists c,
    category_value c =
      normalize_category
        (Some (build_category_mapping_from_catalogs (fun l => l) None
                 (Some ["steaks"]) None))
        (Some "Steaks") (Some clean_text) /\
    ProductCategory_of_value
      (normalize_category
         (Some (build_category_mapping_from_catalogs (fun l => l) None
                  (Some ["steaks"]) None))
         (Some "Steaks") (Some clean_text)) = Some c.
Proof.
  apply normalize_category_is_category.
  intros m [= <-]. apply build_category_mapping_values.
Defined.

(* ------------------------------------------------------------------ *)
(** ** The registry of locations *)

Lemma sset_sset {V} k (v1 v2 : V) d : sset k v2 (sset k v1 d) = sset k v2 d.
Proof.
  unfold sset. induction d as [|[k' v'] d IH]; simpl.
  - now rewrite String.eqb_refl.
  - destruct (String.eqb k k') eqn:E; simpl; rewrite E; [reflexivity|].
    now rewrite IH.
Qed.

Lemma fill_same v : fill v v = v.
Proof. unfold fill. now destruct (truthy v). Qed.

Lemma fill_timezone_same v : fill_timezone v v = v.
Proof. unfold fill_timezone. now destruct (_ && _ && _)%bool. Qed.

Lemma fill_fill new old : fill new (fill new old) = fill new old.
Proof.
  destruct (fill_cases new old) as [E|[_ E]]; rewrite E;
    [exact E|apply fill_same].
Qed.

Lemma fill_timezone_fill new old :
  fill_timezone new (fill_timezone new old) = fill_timezone new old.
Proof.
  destruct (fill_timezone_cases new old) as [E|(_ & _ & _ & E)]; rewrite E;
    [exact E|apply fill_timezone_same].
Qed.

Lemma merge_meta_of src sid tz a c s z l :
  merge_meta src sid tz a c s z l (meta_of l)
  = meta_of (merge_location src sid tz a c s z l).
Proof. destruct src; reflexivity. Qed.

Lemma merge_location_twice src sid tz a c s z l :
  merge_location src sid tz a c s z (merge_location src sid tz a c s z l)
  = merge_location src sid tz a c s z l.
Proof.
  unfold merge_location. destruct src; simpl;
    now rewrite !fill_fill, fill_timezone_fill.
Qed.

Lemma merge_location_fresh src sid tz a c s z co name :
  merge_location src sid tz a c s z
    (mkLocation name None None None a c s z co tz)
  = with_source_id src sid (mkLocation name None None None a c s z co tz).
Proof.
  unfold merge_location. destruct src; simpl;
    now rewrite !fill_same, fill_timezone_same.
Qed.

Lemma get_or_create_location_absent r name src sid tz a c s z co :
  smem name r.(locations) = false ->
  get_or_create_location r name src sid tz a c s z co =
  let location :=
    with_source_id src sid (mkLocation name None None None a c s z co tz) in
  set_location_metadata
    (set_locations r (sset name location r.(locations)))
    (sset name (meta_of location) r.(location_metadata)).
Proof.
  intros H. unfold get_or_create_location. rewrite H. simpl.
  fold (@sset Location) (@sset LocationMeta).
  rewrite !sget_sset_same. simpl. rewrite !sset_sset.
  change (mkMeta None None None tz a c s z co)
    with (meta_of (mkLocation name None None None a c s z co tz)).
  now rewrite merge_meta_of, merge_location_fresh.
Qed.

Lemma smem_sget {V} k (d : Dict.t string V) :
  smem k d = true <-> exists v, sget k d = Some v.
Proof.
  unfold smem, Dict.mem, sget. destruct (Dict.get String.eqb k d) as [v|].
  - split; [intros _; now exists v|reflexivity].
  - split; [discriminate|intros [v H]; discriminate].
Qed.

Lemma smem_false_sget {V} k (d : Dict.t string V) :
  smem k d = false <-> sget k d = None.
Proof.
  unfold smem, Dict.mem, sget. destruct (Dict.get String.eqb k d);
    split; congruence.
Qed.

(** The registry after [get_or_create_location] under the invariant that
    the metadata mirror the locations: one location is set, to the merge of
    the stored (or the fresh) object with the report. *)
Lemma get_or_create_location_sync r name src sid tz a c s z co :
  metadata_in_sync r ->
  exists l',
    get_or_create_location r name src sid tz a c s z co
    = set_location_metadata
        (set_locations r (sset name l' r.(locations)))
        (sset name (meta_of l') r.(location_metadata)) /\
    l' = match sget name r.(locations) with
         | Some l => merge_location src sid tz a c s z l
         | None =>
             with_source_id src sid
               (mkLocation name None None None a c s z co tz)
         end.
Proof.
  intros Hs. destruct (sget name r.(locations)) as [l|] eqn:E.
  - exists (merge_location src sid tz a c s z l). split; [|reflexivity].
    rewrite (get_or_create_location_present _ _ _ _ _ _ _ _ _ _ _ E).
    rewrite (Hs name), E. simpl. now rewrite merge_meta_of.
  - eexists. split; [|reflexivity].
    apply get_or_create_location_absent. now apply smem_false_sget.
Qed.

Lemma with_source_id_source src sid l :
  source_id_of src (with_source_id src sid l) = Some sid.
Proof. now destruct src. Qed.

Lemma merge_location_source src sid tz a c s z l :
  source_id_of src (merge_location src sid tz a c s z l) = Some sid /\
  (merge_location src sid tz a c s z l).(loc_canonical_name)
  = l.(loc_canonical_name).
Proof. now destruct src. Qed.

Ltac registry_fields :=
  unfold set_location_metadata, set_locations, set_products, set_orders,
    set_order_items in *; simpl in *.

(** X5.  [get_or_create_location] keeps the invariants of the registry of
    locations: every metadata entry mirrors the [Location] object of the
    same name, field for field, and every object is stored under its own
    canonical name.  After the call the name is present with the identifier
    of the reporting source set, no location has disappeared and the other
    locations are as before. *)
Theorem get_or_create_location_invariants
  r name src sid tz a c s z co :
  metadata_in_sync r -> keyed_by_name r ->
  let r' := get_or_create_location r name src sid tz a c s z co in
  metadata_in_sync r' /\ keyed_by_name r' /\
  (exists l', sget name r'.(locations) = Some l' /\
              source_id_of src l' = Some sid) /\
  (forall other, other <> name ->
     sget other r'.(locations) = sget other r.(locations)) /\
  (forall k, smem k r.(locations) = true -> smem k r'.(locations) = true).
Proof.
  intros Hs Hk r'. subst r'.
  destruct (get_or_create_location_sync r name src sid tz a c s z co Hs)
    as (l' & -> & El). registry_fields.
  assert (Hname : l'.(loc_canonical_name) = name /\
                  source_id_of src l' = Some sid).
  { subst l'. destruct (sget name r.(locations)) as [l|] eqn:E.
    - destruct (merge_location_source src sid tz a c s z l) as [H1 H2].
      split; [|exact H1]. rewrite H2. now apply Hk.
    - split; [now destruct src|apply with_source_id_source]. }
  destruct Hname as [Hn Hsrc].
  split.
  { intros k. simpl. destruct (string_dec k name) as [->|Hne].
    - now rewrite !sget_sset_same.
    - rewrite !sget_sset_other by exact Hne. apply Hs. }
  split.
  { intros k l. simpl. destruct (string_dec k name) as [->|Hne].
    - rewrite sget_sset_same. now intros [= <-].
    - rewrite sget_sset_other by exact Hne. apply Hk. }
  split; [exists l'; split; [apply sget_sset_same|exact Hsrc]|].
  split; [intros other Hne; now apply sget_sset_other|].
  intros k H. rewrite smem_sset, H. apply orb_true_r.
Qed.

Lemma new_registry_in_sync : metadata_in_sync new_registry.
Proof. intros name. reflexivity. Qed.

Lemma new_registry_keyed : keyed_by_name new_registry.
Proof. intros k l H. discriminate H. Qed.

Lemma get_or_create_location_invariants_witness :
  metadata_in_sync two_writers_first /\ keyed_by_name two_writers_first.
Proof.
  destruct (get_or_create_location_invariants new_registry "Downtown" TOAST
              "loc_downtown_001" (Some "America/New_York")
              (Some "1 Main St") (Some "New York") (Some "NY")
              (Some "10001") (Some "US")
              new_registry_in_sync new_registry_keyed) as (H1 & H2 & _).
  split; [exact H1|exact H2].
Defined.

(** X6.  Reporting the same location twice in a row, with the same
    arguments, leaves the registry as the first report left it. *)
Theorem get_or_create_location_idempotent r name src sid tz a c s z co :
  metadata_in_sync r ->
  let r' := get_or_create_location r name src sid tz a c s z co in
  get_or_create_location r' name src sid tz a c s z co = r'.
Proof.
  intros Hs r'.
  assert (Hs' : metadata_in_sync r').
  { subst r'.
    destruct (get_or_create_location_sync r name src sid tz a c s z co Hs)
      as (l' & -> & _). intros k. registry_fields.
    destruct (string_dec k name) as [->|Hne].
    - now rewrite !sget_sset_same.
    - rewrite !sget_sset_other by exact Hne. apply Hs. }
  destruct (get_or_create_location_sync r' name src sid tz a c s z co Hs')
    as (l2 & -> & E2).
  subst r'.
  destruct (get_or_create_location_sync r name src sid tz a c s z co Hs)
    as (l1 & E & E1).
  rewrite E in *. registry_fields. rewrite sget_sset_same in E2.
  assert (l2 = l1).
  { subst l2. subst l1. destruct (sget name r.(locations)) as [l|].
    - apply merge_location_twice.
    - destruct src; simpl; unfold merge_location; simpl;
        now rewrite !fill_same, fill_timezone_same. }
  rewrite H. now rewrite !sset_sset.
Qed.

Lemma get_or_create_location_idempotent_witness :
  get_or_create_location two_writers_first "Downtown" TOAST
    "loc_downtown_001" (Some "America/New_York") (Some "1 Main St")
    (Some "New York") (Some "NY") (Some "10001") (Some "US")
  = two_writers_first.
Proof.
  apply (get_or_create_location_idempotent new_registry "Downtown" TOAST
           "loc_downtown_001" (Some "America/New_York") (Some "1 Main St")
           (Some "New York") (Some "NY") (Some "10001") (Some "US")).
  intros name. reflexivity.
Defined.

Lemma sget_map_values {V W} (f : V -> W) k (d : Dict.t string V) :
  sget k (map (fun entry => (fst entry, f (snd entry))) d)
  = option_map f (sget k d).
Proof.
  unfold sget. induction d as [|[k' v'] d IH]; simpl; [reflexivity|].
  destruct (String.eqb k k'); [reflexivity|exact IH].
Qed.

(** X7.  When the metadata mirror the locations, as they do in every
    registry that [get_or_create_location] built, the timezone map of the
    registry gives for every location the timezone of its [Location]
    object, and has no other key. *)
Theorem get_location_timezone_map_spec r :
  metadata_in_sync r ->
  forall name,
    sget name (get_location_timezone_map r)
    = option_map timezone (sget name r.(locations)).
Proof.
  intros Hs name. unfold get_location_timezone_map.
  rewrite sget_map_values, (Hs name).
  now destruct (sget name r.(locations)).
Qed.

Lemma get_location_timezone_map_spec_witness :
  sget "Downtown" (get_location_timezone_map two_writers_second)
  = Some (Some "America/Chicago").
Proof.
  rewrite (get_location_timezone_map_spec two_writers_second).
  - reflexivity.
  - intros name. unfold two_writers_second, two_writers_first. simpl.
    unfold sget. simpl. destruct (String.eqb name "Downtown"); reflexivity.
Defined.

(* ------------------------------------------------------------------ *)
(** ** The products *)

Section DictKeys.
Context {K V : Type}.
Variable eqb : K -> K -> bool.
Hypothesis eqb_eq : forall a b, eqb a b = true <-> a = b.

Lemma dict_mem_In (k : K) (d : Dict.t K V) :
  Dict.mem eqb k d = true <-> In k (map fst d).
Proof.
  unfold Dict.mem. induction d as [|[k' v'] d IH]; simpl.
  - split; [discriminate|tauto].
  - destruct (eqb k k') eqn:E.
    + apply eqb_eq in E. subst. tauto.
    + rewrite IH. split; [tauto|]. intros [->|H]; [|exact H].
      rewrite (dict_eqb_refl eqb eqb_eq) in E. discriminate.
Qed.

Lemma dict_keys_set_absent (k : K) (v : V) d :
  Dict.mem eqb k d = false ->
  map fst (Dict.set eqb k v d) = map fst d ++ [k].
Proof.
  unfold Dict.mem. induction d as [|[k' v'] d IH]; simpl; [reflexivity|].
  destruct (eqb k k'); [discriminate|]. simpl. intros H. now rewrite IH.
Qed.

Lemma dict_set_NoDup (k : K) (v : V) d :
  NoDup (map fst d) -> NoDup (map fst (Dict.set eqb k v d)).
Proof.
  intros H. destruct (Dict.mem eqb k d) eqn:E.
  - now rewrite (dict_keys_set_present eqb k v d E).
  - rewrite (dict_keys_set_absent k v d E).
    apply NoDup_app.
    + exact H.
    + repeat constructor. intros [].
    + intros x Hx [<-|[]]. apply dict_mem_In in Hx. congruence.
Qed.

End DictKeys.

(* ------------------------------------------------------------------ *)
(** ** The category mapping of two runs *)

Lemma distinct_NoDup l : distinct l = true -> NoDup l.
Proof.
  induction l as [|x r IH]; simpl; [constructor|].
  intros H. apply andb_true_iff in H. destruct H as [Hx Hr].
  constructor; [|now apply IH].
  intros Hin. apply existsb_eqb_In in Hin. now rewrite Hin in Hx.
Qed.

Lemma BASE_CATEGORY_MAP_keys : NoDup (map fst BASE_CATEGORY_MAP).
Proof. apply distinct_NoDup. reflexivity. Qed.

Lemma mapping_fold_NoDup l : forall m,
  NoDup (map fst m) -> NoDup (map fst (fold_left mapping_step l m)).
Proof.
  induction l as [|c l IH]; intros m Hm; simpl; [exact Hm|].
  apply IH. destruct (mapping_step_cases m c) as [->|(v & Hc & _ & ->)];
    [exact Hm|].
  rewrite map_app. apply NoDup_app; [exact Hm|repeat constructor; intros []|].
  intros x Hx [<-|[]].
  apply (dict_mem_In String.eqb String.eqb_eq) in Hx.
  unfold smem in Hc. simpl in Hx. congruence.
Qed.

Lemma In_sget {V} k (v : V) m :
  NoDup (map fst m) -> In (k, v) m -> sget k m = Some v.
Proof.
  unfold sget. induction m as [|[k' v'] m IH]; simpl; [intros _ []|].
  intros Hnd [[= -> ->]|Hin].
  - now rewrite String.eqb_refl.
  - inversion Hnd as [|? ? Hk Hm]; subst.
    destruct (String.eqb_spec k k') as [->|_]; [|now apply IH].
    exfalso. apply Hk. apply in_map_iff. now exists (k', v).
Qed.

(** Two dictionaries without repeated keys that agree on every key hold
    the same entries. *)
Lemma same_lookups_Permutation {V} (m1 m2 : Dict.t string V) :
  NoDup (map fst m1) -> NoDup (map fst m2) ->
  (forall k, sget k m1 = sget k m2) -> Permutation m1 m2.
Proof.
  intros H1 H2 H. apply NoDup_Permutation.
  - exact (NoDup_map_inv fst m1 H1).
  - exact (NoDup_map_inv fst m2 H2).
  - intros [k v]. split; intros Hin.
    + apply sget_In. rewrite <- H. now apply In_sget.
    + apply sget_In. rewrite H. now apply In_sget.
Qed.

(** C9, as the code has it.  Two runs that are given the same sets of
    Square, Toast and DoorDash categories return mappings that send every
    raw label to the same standard category, whatever the orders in which
    the two runs iterate over the set of categories: the two mappings hold
    the same entries, and both begin with the base table.  The entries
    after the base table come in the order of the iteration, so that they
    are the same up to their order only. *)
Theorem build_category_mapping_deterministic
  (iter1 iter2 : list string -> list string)
  (sq1 sq2 t1 t2 d1 d2 : option (list string)) :
  enumerates iter1 -> enumerates iter2 ->
  same_set sq1 sq2 -> same_set t1 t2 -> same_set d1 d2 ->
  let m1 := build_category_mapping_from_catalogs iter1 sq1 t1 d1 in
  let m2 := build_category_mapping_from_catalogs iter2 sq2 t2 d2 in
  (forall raw, sget raw m1 = sget raw m2) /\
  exists added1 added2,
    m1 = BASE_CATEGORY_MAP ++ added1 /\
    m2 = BASE_CATEGORY_MAP ++ added2 /\
    Permutation added1 added2.
Proof.
  intros H1 H2 Hs Ht Hd m1 m2.
  assert (Hget : forall raw, sget raw m1 = sget raw m2).
  { intros raw. subst m1 m2.
    rewrite !build_category_mapping_get by assumption.
    destruct (sget raw BASE_CATEGORY_MAP); [reflexivity|].
    rewrite (existsb_eqb_ext raw _
               (elements sq2 ++ elements t2 ++ elements d2));
      [reflexivity|].
    rewrite !in_app_iff. unfold same_set in *.
    rewrite (Hs raw), (Ht raw), (Hd raw). tauto. }
  split; [exact Hget|].
  destruct (build_category_mapping_shape iter1 sq1 t1 d1) as (a1 & E1 & _).
  destruct (build_category_mapping_shape iter2 sq2 t2 d2) as (a2 & E2 & _).
  exists a1, a2. split; [exact E1|]. split; [exact E2|].
  apply (Permutation_app_inv_l BASE_CATEGORY_MAP).
  fold m1 in E1. fold m2 in E2. rewrite <- E1, <- E2.
  apply same_lookups_Permutation; [| |exact Hget].
  - apply mapping_fold_NoDup, BASE_CATEGORY_MAP_keys.
  - apply mapping_fold_NoDup, BASE_CATEGORY_MAP_keys.
Qed.

Lemma build_category_mapping_deterministic_witness :
  sget "steaks"
    (build_category_mapping_from_catalogs (fun l => l)
       (Some ["steaks"; "hot drinks"]) (Some ["kids meals"]) None) =
  sget "steaks"
    (build_category_mapping_from_catalogs (@rev string)
       (Some ["hot drinks"; "steaks"; "steaks"])
       (Some ["kids meals"]) (Some [])).
Proof.
  apply (build_category_mapping_deterministic (fun l => l) (@rev string)
           (Some ["steaks"; "hot drinks"])
           (Some ["hot drinks"; "steaks"; "steaks"])
           (Some ["kids meals"]) (Some ["kids meals"]) None (Some [])).
  - intros l x. tauto.
  - intros l x. symmetry. apply in_rev.
  - intros x. simpl. tauto.
  - intros x. tauto.
  - intros x. simpl. tauto.
Defined.

(** C9, counterexample.  The set {"steaks", "juice"} iterated in one order
    and in the other: the two mappings hold the same entries after the
    base table, in opposite orders, and are not identical.  The difference
    shows in [normalize_category], which takes the first key of the mapping
    that the cleaned label contains: "Steaks & Juice" is an entree with one
    mapping and a beverage with the other. *)
Lemma added_keys_follow_iteration_order :
  build_category_mapping_from_catalogs (fun l => l)
    (Some ["steaks"; "juice"]) None None
  = BASE_CATEGORY_MAP ++ [("steaks", "entrees"); ("juice", "beverages")] /\
  build_category_mapping_from_catalogs (@rev string)
    (Some ["steaks"; "juice"]) None None
  = BASE_CATEGORY_MAP ++ [("juice", "beverages"); ("steaks", "entrees")] /\
  build_category_mapping_from_catalogs (fun l => l)
    (Some ["steaks"; "juice"]) None None
  <> build_category_mapping_from_catalogs (@rev string)
       (Some ["steaks"; "juice"]) None None /\
  normalize_category
    (Some (build_category_mapping_from_catalogs (fun l => l)
             (Some ["steaks"; "juice"]) None None))
    (Some "Steaks & Juice") (Some clean_text) = "entrees" /\
  normalize_category
    (Some (build_category_mapping_from_catalogs (@rev string)
             (Some ["steaks"; "juice"]) None None))
    (Some "Steaks & Juice") (Some clean_text) = "beverages".
Proof.
  split; [reflexivity|]. split; [reflexivity|].
  split; [intros H; vm_compute in H; discriminate H|].
  split; vm_compute; reflexivity.
Qed.

Lemma product_key_eqb_eq a b : product_key_eqb a b = true <-> a = b.
Proof.
  unfold product_key_eqb. destruct a as [a1 a2], b as [b1 b2]; simpl.
  rewrite andb_true_iff, String.eqb_eq, ProductCategory_eqb_eq. split.
  - now intros [-> ->].
  - now intros [= -> ->].
Qed.

Lemma bind_product_fold items : forall r done,
  let res := fold_left bind_product items (r, done) in
  snd res = done ++ map link_product items /\
  (fst res).(locations) = r.(locations) /\
  (fst res).(orders) = r.(orders) /\
  (fst res).(order_items) = r.(order_items) /\
  (fst res).(location_metadata) = r.(location_metadata) /\
  (NoDup (map fst r.(products)) ->
   NoDup (map fst (fst res).(products))) /\
  (forall k p,
     Dict.get product_key_eqb k (fst res).(products) = Some p <->
     Dict.get product_key_eqb k r.(products) = Some p \/
     Dict.mem product_key_eqb k r.(products) = false /\
     p = mkProduct (fst k) (snd k) /\
     exists item, In item items /\ product_key item = k).
Proof.
  induction items as [|item items IH]; intros r done; simpl.
  - rewrite app_nil_r. do 6 (split; [auto|]). intros k p.
    split; [intros H; now left|].
    intros [H|(_ & _ & item & [] & _)]. exact H.
  - set (r1 := get_or_create_product r (canonical_name item) (category item)).
    destruct (IH r1 (done ++ [link_product item]))
      as (H1 & H2 & H3 & H4 & H5 & H6 & H7).
    fold (product_key item) in *. unfold link_product in H1 at 1.
    fold (product_key item) in H1.
    change (mkOrderItem (item_order item) (Some (product_key item))
              (item_name item) (canonical_name item) (category item)
              (quantity item) (unit_price_cents item)
              (total_price_cents item)) with (link_product item) in *.
    assert (Hr1 : r1.(locations) = r.(locations) /\
                  r1.(orders) = r.(orders) /\
                  r1.(order_items) = r.(order_items) /\
                  r1.(location_metadata) = r.(location_metadata)).
    { subst r1. unfold get_or_create_product.
      destruct (Dict.mem product_key_eqb _ _); repeat split. }
    destruct Hr1 as (L1 & L2 & L3 & L4).
    split; [rewrite H1, <- app_assoc; reflexivity|].
    split; [congruence|]. split; [congruence|]. split; [congruence|].
    split; [congruence|].
    assert (Hp : r1.(products) =
                 if Dict.mem product_key_eqb (product_key item) r.(products)
                 then r.(products)
                 else Dict.set product_key_eqb (product_key item)
                        (mkProduct (canonical_name item) (category item))
                        r.(products)).
    { subst r1. unfold get_or_create_product. fold (product_key item).
      now destruct (Dict.mem product_key_eqb (product_key item) _). }
    split.
    { intros Hnd. apply H6. rewrite Hp.
      destruct (Dict.mem product_key_eqb (product_key item) r.(products));
        [exact Hnd|].
      now apply (dict_set_NoDup product_key_eqb product_key_eqb_eq). }
    intros k p. rewrite H7, Hp.
    destruct (Dict.mem product_key_eqb (product_key item) r.(products)) eqn:Hm.
    + split.
      * intros [H|(Ha & Hb & i & Hi & Hk)]; [now left|].
        right. split; [exact Ha|]. split; [exact Hb|]. exists i. auto.
      * intros [H|(Ha & Hb & i & [<-|Hi] & Hk)]; [now left| |].
        -- subst k. congruence.
        -- right. split; [exact Ha|]. split; [exact Hb|]. exists i. auto.
    + destruct (product_key_eqb k (product_key item)) eqn:Ek.
      * apply product_key_eqb_eq in Ek. subst k.
        rewrite (dict_get_set_same product_key_eqb product_key_eqb_eq).
        rewrite (dict_mem_set product_key_eqb product_key_eqb_eq).
        rewrite (proj2 (product_key_eqb_eq _ _) eq_refl). simpl.
        split.
        -- intros [[= <-]|(Ha & _)]; [|discriminate].
           right. split; [exact Hm|]. split; [reflexivity|].
           exists item. auto.
        -- intros [H|(_ & -> & _)].
           ++ unfold Dict.mem in Hm. rewrite H in Hm. discriminate.
           ++ now left.
      * assert (Hne : k <> product_key item).
        { intros ->. rewrite (proj2 (product_key_eqb_eq _ _) eq_refl) in Ek.
          discriminate. }
        rewrite (dict_get_set_other product_key_eqb product_key_eqb_eq)
          by exact Hne.
        rewrite (dict_mem_set product_key_eqb product_key_eqb_eq), Ek. simpl.
        split.
        -- intros [H|(Ha & Hb & i & Hi & Hk)]; [now left|].
           right. split; [exact Ha|]. split; [exact Hb|]. exists i. auto.
        -- intros [H|(Ha & Hb & i & [<-|Hi] & Hk)]; [now left| |].
           ++ congruence.
           ++ right. split; [exact Ha|]. split; [exact Hb|]. exists i. auto.
Qed.

(** X8.  [_create_products_from_order_items] discards the products that
    the registry held and registers exactly one product for every pair of
    canonical name and category that occurs among the order items, with
    that name and category; every item is linked to the product of its own
    name and category and is otherwise unchanged; locations, metadata and
    orders are untouched. *)
Theorem create_products_from_order_items_spec (registry : ModelRegistry) :
  let registry' := _create_products_from_order_items registry in
  registry'.(order_items) = map link_product registry.(order_items) /\
  NoDup (map fst registry'.(products)) /\
  (forall k p,
     Dict.get product_key_eqb k registry'.(products) = Some p <->
     p = mkProduct (fst k) (snd k) /\
     exists item, In item registry.(order_items) /\ product_key item = k) /\
  registry'.(locations) = registry.(locations) /\
  registry'.(location_metadata) = registry.(location_metadata) /\
  registry'.(orders) = registry.(orders).
Proof.
  cbv zeta. unfold _create_products_from_order_items.
  destruct (bind_product_fold (order_items (set_products registry []))
              (set_products registry []) [])
    as (H1 & H2 & H3 & H4 & H5 & H6 & H7).
  destruct (fold_left bind_product _ _) as [r items]. simpl in *.
  split; [exact H1|]. split; [apply H6; constructor|].
  split; [|auto].
  intros k p. rewrite H7. split.
  - intros [H|(_ & H)]; [discriminate|exact H].
  - intros H. right. split; [reflexivity|exact H].
Qed.

(* ------------------------------------------------------------------ *)
(** ** The shape of a cleaned text *)

Lemma lower_char_space c : PyStr.is_space (PyStr.lower_char c) = PyStr.is_space c.
Proof. destruct c as [[] [] [] [] [] [] [] []]; reflexivity. Qed.

Lemma lower_char_fixes_space c :
  PyStr.is_space c = true -> PyStr.lower_char c = c.
Proof.
  destruct c as [[] [] [] [] [] [] [] []]; vm_compute; intros H;
    try reflexivity; discriminate H.
Qed.

Lemma lower_char_ascii c :
  PyStr.is_ascii (PyStr.lower_char c) = PyStr.is_ascii c.
Proof. destruct c as [[] [] [] [] [] [] [] []]; reflexivity. Qed.

Lemma lower_char_twice c :
  PyStr.lower_char (PyStr.lower_char c) = PyStr.lower_char c.
Proof. destruct c as [[] [] [] [] [] [] [] []]; reflexivity. Qed.

Lemma tidy_ws_ok b s : tidy b s = true -> ws_ok b s = true.
Proof.
  revert b. induction s as [|c s IH]; intros b; simpl; [reflexivity|].
  destruct (PyStr.is_space c); [|apply IH].
  rewrite !andb_true_iff. intros [H1 H2]. split; [exact H1|now apply IH].
Qed.

Lemma tidy_weaken s : tidy true s = true -> tidy false s = true.
Proof.
  destruct s as [|c s]; simpl; [discriminate|].
  destruct (PyStr.is_space c); [|auto].
  rewrite andb_false_r. discriminate.
Qed.

Lemma tidy_any b s : tidy b s = true -> tidy false s = true.
Proof. destruct b; [apply tidy_weaken|auto]. Qed.

Lemma tidy_tail b c s :
  tidy b (String c s) = true -> tidy (PyStr.is_space c) s = true.
Proof.
  simpl. destruct (PyStr.is_space c); [|auto].
  rewrite !andb_true_iff. tauto.
Qed.

Lemma collapse_ws_ok s : forall b, ws_ok b (collapse_ws b s) = true.
Proof.
  induction s as [|c s IH]; intros b; simpl; [reflexivity|].
  destruct (PyStr.is_space c) eqn:E.
  - destruct b; [apply IH|].
    simpl. now rewrite IH.
  - simpl. rewrite E. apply IH.
Qed.

Lemma lstrip_ws_ok s : forall b, ws_ok b s = true -> ws_ok true (PyStr.lstrip s) = true.
Proof.
  induction s as [|c s IH]; intros b; simpl; [reflexivity|].
  destruct (PyStr.is_space c) eqn:E.
  - rewrite !andb_true_iff. intros [_ H]. now apply (IH true).
  - intros H. simpl. now rewrite E.
Qed.

Lemma rstrip_tidy s : forall b,
  ws_ok b s = true ->
  PyStr.rstrip s = EmptyString \/ tidy b (PyStr.rstrip s) = true.
Proof.
  induction s as [|c s IH]; intros b H; simpl; [now left|].
  assert (Hs : ws_ok (PyStr.is_space c) s = true).
  { simpl in H. destruct (PyStr.is_space c); [|exact H].
    rewrite !andb_true_iff in H. tauto. }
  specialize (IH _ Hs).
  destruct (PyStr.rstrip s) as [|d r] eqn:Er.
  - destruct (PyStr.is_space c) eqn:E; [now left|].
    right. simpl. now rewrite E.
  - right. destruct IH as [IH|IH]; [discriminate|].
    simpl in H. change (tidy b (String c (String d r)) = true).
    cbn [tidy]. cbn [tidy] in IH.
    destruct (PyStr.is_space c); [|exact IH].
    rewrite !andb_true_iff in H. rewrite !andb_true_iff.
    split; [tauto|exact IH].
Qed.

Lemma lower_tidy s : forall b, tidy b (PyStr.lower s) = tidy b s.
Proof.
  unfold PyStr.lower. induction s as [|c s IH]; intros b; simpl;
    [reflexivity|].
  rewrite lower_char_space. destruct (PyStr.is_space c) eqn:E.
  - rewrite (lower_char_fixes_space c E). now rewrite IH.
  - apply IH.
Qed.

Lemma tidy_app x : forall b r,
  tidy b x = true -> tidy false r = true -> tidy b (x ++ r) = true.
Proof.
  induction x as [|c x IH]; intros b r Hx Hr; simpl in *.
  - destruct b; [discriminate|exact Hr].
  - destruct (PyStr.is_space c).
    + rewrite !andb_true_iff in *. destruct Hx as [H1 H2].
      split; [exact H1|]. now apply IH.
    + now apply IH.
Qed.

Lemma replace_from_tidy old new s : forall skip b,
  tidy true new = true -> tidy b s = true ->
  tidy (match skip with O => b | S _ => false end)
       (PyStr.replace_from skip old new s) = true.
Proof.
  induction s as [|c s IH]; intros skip b Hn Hs.
  - simpl. destruct skip; [exact Hs|reflexivity].
  - pose proof (tidy_tail _ _ _ Hs) as Ht.
    destruct skip as [|k].
    + cbn [PyStr.replace_from].
      destruct (PyStr.startswith old (String c s)).
      * apply tidy_app.
        -- destruct b; [exact Hn|now apply tidy_weaken].
        -- specialize (IH (String.length old - 1) _ Hn Ht).
           destruct (String.length old - 1); [|exact IH].
           now apply (tidy_any (PyStr.is_space c)).
      * specialize (IH O _ Hn Ht). cbn [tidy] in *.
        destruct (PyStr.is_space c); [|exact IH].
        rewrite !andb_true_iff in *. split; [tauto|exact IH].
    + cbn [PyStr.replace_from].
      specialize (IH k _ Hn Ht). destruct k; [|exact IH].
      now apply (tidy_any (PyStr.is_space c)).
Qed.

Lemma replace_from_all_chars f old new s : forall skip,
  PyStr.all_chars f new = true -> PyStr.all_chars f s = true ->
  PyStr.all_chars f (PyStr.replace_from skip old new s) = true.
Proof.
  induction s as [|c s IH]; intros skip Hn Hs; simpl; [reflexivity|].
  simpl in Hs. apply andb_true_iff in Hs. destruct Hs as [Hc Hs].
  destruct skip as [|k]; [|now apply IH].
  destruct (PyStr.startswith old (String c s)).
  - rewrite all_chars_app, Hn. now apply IH.
  - simpl. rewrite Hc. now apply IH.
Qed.

Lemma filter_all_chars f s : PyStr.all_chars f (PyStr.filter_str f s) = true.
Proof.
  induction s as [|c s IH]; simpl; [reflexivity|].
  destruct (f c) eqn:E; simpl; [now rewrite E|exact IH].
Qed.

Lemma filter_fixed f s :
  PyStr.all_chars f s = true -> PyStr.filter_str f s = s.
Proof.
  induction s as [|c s IH]; simpl; [reflexivity|].
  destruct (f c); [|discriminate]. simpl. intros H. now rewrite IH.
Qed.

Lemma collapse_all_ascii s : forall b,
  PyStr.all_chars PyStr.is_ascii s = true ->
  PyStr.all_chars PyStr.is_ascii (collapse_ws b s) = true.
Proof.
  induction s as [|c s IH]; intros b; simpl; [reflexivity|].
  intros H. apply andb_true_iff in H. destruct H as [Hc Hs].
  destruct (PyStr.is_space c).
  - destruct b; [now apply IH|]. simpl. now apply IH.
  - simpl. rewrite Hc. now apply IH.
Qed.

Lemma lstrip_all_chars f s :
  PyStr.all_chars f s = true -> PyStr.all_chars f (PyStr.lstrip s) = true.
Proof.
  induction s as [|c s IH]; simpl; [reflexivity|].
  intros H. destruct (PyStr.is_space c); [|exact H].
  apply andb_true_iff in H. now apply IH.
Qed.

Lemma rstrip_all_chars f s :
  PyStr.all_chars f s = true -> PyStr.all_chars f (PyStr.rstrip s) = true.
Proof.
  induction s as [|c s IH]; simpl; [reflexivity|].
  intros H. apply andb_true_iff in H. destruct H as [Hc Hs].
  specialize (IH Hs). destruct (PyStr.rstrip s) as [|d r].
  - destruct (PyStr.is_space c); [reflexivity|]. simpl. now rewrite Hc.
  - cbn [PyStr.all_chars] in *. now rewrite Hc.
Qed.

Lemma lower_plain s :
  PyStr.all_chars PyStr.is_ascii s = true ->
  PyStr.all_chars plain_char (PyStr.lower s) = true.
Proof.
  unfold PyStr.lower, plain_char.
  induction s as [|c s IH]; simpl; [reflexivity|].
  intros H. apply andb_true_iff in H. destruct H as [Hc Hs].
  rewrite lower_char_ascii, Hc, lower_char_twice, Ascii.eqb_refl. simpl.
  now apply IH.
Qed.

Lemma plain_fixed s :
  PyStr.all_chars plain_char s = true ->
  remove_non_ascii s = s /\ PyStr.lower s = s.
Proof.
  unfold remove_non_ascii, PyStr.lower, plain_char.
  induction s as [|c s IH]; simpl; [now split|].
  rewrite !andb_true_iff, Ascii.eqb_eq. intros [[Ha Hl] Hs].
  destruct (IH Hs) as [I1 I2]. rewrite Ha, Hl, I1, I2. now split.
Qed.

Lemma tidy_collapse_fixed s : forall b,
  tidy b s = true -> collapse_ws b s = s.
Proof.
  induction s as [|c s IH]; intros b; simpl; [reflexivity|].
  destruct (PyStr.is_space c).
  - rewrite !andb_true_iff, Ascii.eqb_eq, negb_true_iff.
    intros [[-> ->] H]. now rewrite IH.
  - intros H. now rewrite IH.
Qed.

Lemma tidy_rstrip_fixed s : forall b, tidy b s = true -> PyStr.rstrip s = s.
Proof.
  induction s as [|c s IH]; intros b H; simpl; [reflexivity|].
  rewrite (IH _ (tidy_tail _ _ _ H)).
  destruct s as [|d r]; [|reflexivity].
  simpl in H. destruct (PyStr.is_space c); [|reflexivity].
  rewrite andb_false_r in H. discriminate.
Qed.

Lemma tidy_strip_fixed s : tidy true s = true -> PyStr.strip s = s.
Proof.
  intros H. unfold PyStr.strip.
  assert (Hl : PyStr.lstrip s = s).
  { destruct s as [|c s]; [reflexivity|]. simpl in *.
    destruct (PyStr.is_space c); [|reflexivity].
    rewrite andb_false_r in H. discriminate. }
  rewrite Hl. now apply (tidy_rstrip_fixed s true).
Qed.

(** What the steps of [clean_text] before the typo table produce. *)
Lemma pre_typo_shape text :
  let cleaned :=
    PyStr.lower (PyStr.strip (collapse_ws false (remove_non_ascii text))) in
  (cleaned = EmptyString \/ tidy true cleaned = true) /\
  PyStr.all_chars plain_char cleaned = true.
Proof.
  cbv zeta. split.
  - unfold PyStr.strip.
    pose proof (collapse_ws_ok (remove_non_ascii text) false) as H1.
    pose proof (lstrip_ws_ok _ _ H1) as H2.
    destruct (rstrip_tidy _ _ H2) as [E|E].
    + left. now rewrite E.
    + right. now rewrite lower_tidy.
  - apply lower_plain. unfold PyStr.strip.
    apply rstrip_all_chars, lstrip_all_chars, collapse_all_ascii.
    apply filter_all_chars.
Qed.

Lemma apply_typo_shape cleaned tc :
  tidy true (snd tc) = true ->
  PyStr.all_chars plain_char (snd tc) = true ->
  (cleaned = EmptyString \/ tidy true cleaned = true) /\
  PyStr.all_chars plain_char cleaned = true ->
  (apply_typo cleaned tc = EmptyString \/
   tidy true (apply_typo cleaned tc) = true) /\
  PyStr.all_chars plain_char (apply_typo cleaned tc) = true.
Proof.
  destruct tc as [typo correction]. simpl. intros Ht Hp [Hc Ha].
  destruct (PyStr.contains typo cleaned); [|now split].
  unfold PyStr.replace. split.
  - destruct Hc as [->|Hc]; [now left|right].
    now apply (replace_from_tidy typo correction cleaned O true).
  - now apply replace_from_all_chars.
Qed.

Lemma typo_fold_shape table : forall cleaned,
  Forall (fun tc => tidy true (snd tc) = true /\
                    PyStr.all_chars plain_char (snd tc) = true) table ->
  (cleaned = EmptyString \/ tidy true cleaned = true) /\
  PyStr.all_chars plain_char cleaned = true ->
  (fold_left apply_typo table cleaned = EmptyString \/
   tidy true (fold_left apply_typo table cleaned) = true) /\
  PyStr.all_chars plain_char (fold_left apply_typo table cleaned) = true.
Proof.
  induction table as [|tc table IH]; intros cleaned Ht Hc; simpl;
    [exact Hc|].
  inversion Ht as [|? ? [H1 H2] Hrest]; subst.
  apply IH; [exact Hrest|]. now apply apply_typo_shape.
Qed.

Lemma TYPO_CORRECTIONS_shape :
  Forall (fun tc => tidy true (snd tc) = true /\
                    PyStr.all_chars plain_char (snd tc) = true)
         TYPO_CORRECTIONS.
Proof. repeat (constructor; [split; reflexivity|]). constructor. Qed.

Lemma clean_text_shape text :
  (clean_text text = EmptyString \/ tidy true (clean_text text) = true) /\
  PyStr.all_chars plain_char (clean_text text) = true.
Proof.
  unfold clean_text.
  destruct (negb (PyStr.truthy (PyStr.strip text))).
  - split; [right|]; reflexivity.
  - cbv zeta. apply typo_fold_shape;
      [apply TYPO_CORRECTIONS_shape|apply pre_typo_shape].
Qed.

(** X9.  A cleaned text is in normal form: removing the non-ASCII
    characters, collapsing the whitespace, stripping and lowercasing, the
    steps that [clean_text] takes before the typo table, all leave the
    result of [clean_text] as it is.  Cleaning a cleaned text therefore
    only applies the typo table once more, or gives "unknown" when the
    cleaned text is empty. *)
Theorem clean_text_normal_form (text : string) :
  let out := clean_text text in
  remove_non_ascii out = out /\
  collapse_ws false out = out /\
  PyStr.strip out = out /\
  PyStr.lower out = out /\
  clean_text out =
    if PyStr.truthy out then fold_left apply_typo TYPO_CORRECTIONS out
    else "unknown".
Proof.
  cbv zeta. destruct (clean_text_shape text) as [Ht Hp].
  destruct (plain_fixed _ Hp) as [H1 H4].
  assert (H2 : collapse_ws false (clean_text text) = clean_text text).
  { destruct Ht as [->|Ht]; [reflexivity|].
    apply tidy_collapse_fixed. now apply tidy_weaken. }
  assert (H3 : PyStr.strip (clean_text text) = clean_text text).
  { destruct Ht as [->|Ht]; [reflexivity|]. now apply tidy_strip_fixed. }
  do 4 (split; [assumption|]).
  unfold clean_text at 1. rewrite H3, H1, H2, H3, H4.
  now destruct (PyStr.truthy (clean_text text)).
Qed.

Lemma strip_lower s : PyStr.strip (PyStr.lower s) = PyStr.lower (PyStr.strip s).
Proof.
  unfold PyStr.strip, PyStr.lower.
  assert (Hl : forall t, PyStr.lstrip (PyStr.map_str PyStr.lower_char t)
                         = PyStr.map_str PyStr.lower_char (PyStr.lstrip t)).
  { induction t as [|c t IH]; simpl; [reflexivity|].
    rewrite lower_char_space. now destruct (PyStr.is_space c). }
  assert (Hr : forall t, PyStr.rstrip (PyStr.map_str PyStr.lower_char t)
                         = PyStr.map_str PyStr.lower_char (PyStr.rstrip t)).
  { induction t as [|c t IH]; simpl; [reflexivity|].
    rewrite IH, lower_char_space.
    destruct (PyStr.rstrip t); simpl; [|reflexivity].
    now destruct (PyStr.is_space c). }
  now rewrite Hl, Hr.
Qed.

Lemma collapse_lower s : forall b,
  collapse_ws b (PyStr.lower s) = PyStr.lower (collapse_ws b s).
Proof.
  unfold PyStr.lower. induction s as [|c s IH]; intros b; simpl;
    [reflexivity|].
  rewrite lower_char_space. destruct (PyStr.is_space c).
  - destruct b; [apply IH|]. simpl. now rewrite IH.
  - simpl. now rewrite IH.
Qed.

Lemma remove_non_ascii_lower s :
  remove_non_ascii (PyStr.lower s) = PyStr.lower (remove_non_ascii s).
Proof.
  unfold remove_non_ascii, PyStr.lower.
  induction s as [|c s IH]; simpl; [reflexivity|].
  rewrite lower_char_ascii. destruct (PyStr.is_ascii c); simpl;
    now rewrite IH.
Qed.

Lemma lower_twice s : PyStr.lower (PyStr.lower s) = PyStr.lower s.
Proof.
  unfold PyStr.lower. induction s as [|c s IH]; simpl; [reflexivity|].
  now rewrite lower_char_twice, IH.
Qed.

Lemma truthy_lower s : PyStr.truthy (PyStr.lower s) = PyStr.truthy s.
Proof. now destruct s. Qed.

(** X10.  On the texts of the code points 0..255, [clean_text] does not see
    the case of the letters: a text and its lowercased form are cleaned to
    the same result.  (The property stops at these code points: the Kelvin
    sign U+212A is removed as a non-ASCII character, while its lowercased
    form is the letter "k", which is kept.) *)
Theorem clean_text_ignores_case (text : string) :
  clean_text (PyStr.lower text) = clean_text text.
Proof.
  unfold clean_text.
  rewrite strip_lower, truthy_lower.
  destruct (negb (PyStr.truthy (PyStr.strip text))); [reflexivity|].
  cbv zeta.
  now rewrite remove_non_ascii_lower, collapse_lower, strip_lower, lower_twice.
Qed.

Lemma lstrip_blank s :
  PyStr.all_chars PyStr.is_space s = true -> PyStr.lstrip s = EmptyString.
Proof.
  induction s as [|c s IH]; simpl; [reflexivity|].
  destruct (PyStr.is_space c); [exact IH|discriminate].
Qed.

(** X11.  A text that is empty or made of whitespace only is cleaned to
    "unknown", and so is a value that is not a string. *)
Theorem clean_text_blank (text : string) :
  PyStr.all_chars PyStr.is_space text = true ->
  clean_text text = "unknown" /\
  clean_text_any (VStr text) = "unknown" /\
  clean_text_any VNone = "unknown" /\
  (forall n, clean_text_any (VInt n) = "unknown") /\
  (forall f, clean_text_any (VFloat f) = "unknown").
Proof.
  intros H.
  assert (E : clean_text text = "unknown").
  { unfold clean_text, PyStr.strip. now rewrite (lstrip_blank _ H). }
  repeat split; auto.
Qed.

Lemma clean_text_blank_witness :
  clean_text (String (ascii_of_N 9) "  ") = "unknown".
Proof.
  apply (clean_text_blank (String (ascii_of_N 9) "  ")). reflexivity.
Defined.

(* ------------------------------------------------------------------ *)
(** ** Entity resolution: order of the items, a second pass, frequency *)

(** X12.  The result of entity resolution does not depend on the order of
    the order items: when two registries hold the same items in different
    orders, every item is given the same canonical name in both, by the
    map computed from either. *)
Theorem resolve_items_order_independent
  (sort_values : list row -> list row)
  (token_sort_ratio : string -> string -> Z)
  (items items2 : list OrderItem) :
  Permutation items items2 ->
  resolve_items sort_values token_sort_ratio items2
  = map (apply_canonical_map
           (fst (resolution_walk token_sort_ratio
                   (product_counts_of sort_values items)))) items2 /\
  Permutation (resolve_items sort_values token_sort_ratio items)
              (resolve_items sort_values token_sort_ratio items2).
Proof.
  intros Hp.
  assert (E : product_counts_of sort_values items2
              = product_counts_of sort_values items).
  { unfold product_counts_of. f_equal. symmetry.
    apply groupby_size_perm. now apply Permutation_map. }
  rewrite !resolve_items_map, E. split; [reflexivity|].
  now apply Permutation_map.
Qed.

Lemma resolve_items_order_independent_witness :
  Permutation (resolve_items sort_values_stable toy_ratio cola_then_fries)
              (resolve_items sort_values_stable toy_ratio fries_then_cola).
Proof.
  apply (resolve_items_order_independent sort_values_stable toy_ratio
           cola_then_fries fries_then_cola).
  apply perm_swap.
Defined.

(** X13.  When the score is symmetric, a second pass of entity resolution
    changes nothing: the names that the first pass left are pairwise below
    the threshold within each category. *)
Theorem resolve_items_idempotent
  (sort_values : list row -> list row)
  (token_sort_ratio : string -> string -> Z)
  (items : list OrderItem) :
  (forall l, Permutation (sort_values l) l) ->
  (forall a b, token_sort_ratio a b = token_sort_ratio b a) ->
  resolve_items sort_values token_sort_ratio
    (resolve_items sort_values token_sort_ratio items)
  = resolve_items sort_values token_sort_ratio items.
Proof.
  intros Hperm Hsym.
  set (items' := resolve_items sort_values token_sort_ratio items).
  rewrite (resolve_items_map sort_values token_sort_ratio items').
  set (cm2 := fst (resolution_walk token_sort_ratio
                     (product_counts_of sort_values items'))).
  rewrite <- (map_id items') at 2. apply map_ext_in.
  intros x' Hx'.
  destruct (item_key_mapped sort_values token_sort_ratio Hperm items' x' Hx')
    as [v Hv]. fold cm2 in Hv.
  destruct (apply_canonical_map_hit cm2 x' v Hv) as (_ & _ & _ & _ & _ & _ & _ & _ & Hsame).
  apply Hsame.
  destruct (string_dec v x'.(canonical_name)) as [E|Hne]; [exact E|exfalso].
  pose proof (final_walk_inv sort_values token_sort_ratio items') as Hinv2.
  destruct (inv_merged _ _ _ _ Hinv2 _ _ _ Hv Hne) as [Hsim Hanc].
  destruct (anchor_item sort_values token_sort_ratio Hperm items' _ _ Hanc)
    as (a' & Ha' & Hna & Hca & _).
  (* both are results of the first pass *)
  subst items'. rewrite resolve_items_map in Hx', Ha'.
  set (cm := fst (resolution_walk token_sort_ratio
                    (product_counts_of sort_values items))) in *.
  apply in_map_iff in Hx', Ha'.
  destruct Hx' as (x & Ex & Hx), Ha' as (a & Ea & Ha).
  destruct (item_key_mapped sort_values token_sort_ratio Hperm items x Hx)
    as [vx Hvx].
  destruct (item_key_mapped sort_values token_sort_ratio Hperm items a Ha)
    as [va Hva].
  fold cm in Hvx, Hva.
  destruct (apply_canonical_map_hit cm x vx Hvx) as (Nx & Cx & _).
  destruct (apply_canonical_map_hit cm a va Hva) as (Na & Ca & _).
  rewrite Ex in Nx, Cx. rewrite Ea in Na, Ca.
  pose proof (mapped_is_anchor sort_values token_sort_ratio items _ _ _ Hvx)
    as Ax.
  pose proof (mapped_is_anchor sort_values token_sort_ratio items _ _ _ Hva)
    as Aa.
  fold cm in Ax, Aa.
  assert (Hc : category_val a = category_val x).
  { unfold category_val in *. rewrite <- Ca, <- Cx. exact Hca. }
  rewrite Hc in Aa.
  assert (Hn : vx <> va) by congruence.
  pose proof (final_walk_inv sort_values token_sort_ratio items) as Hinv.
  fold cm in Hinv.
  assert (Hs : (88 < token_sort_ratio va vx)%Z).
  { unfold similar in Hsim. rewrite <- Na, Hna, <- Nx. exact Hsim. }
  destruct (inv_apart _ _ _ _ Hinv vx va _ Hn Ax Aa) as [H|H];
    apply H; unfold similar; [rewrite Hsym|]; exact Hs.
Qed.

Lemma resolve_items_idempotent_witness :
  resolve_items sort_values_stable toy_ratio
    (resolve_items sort_values_stable toy_ratio cola_coke_fries)
  = resolve_items sort_values_stable toy_ratio cola_coke_fries.
Proof.
  apply resolve_items_idempotent.
  - apply sort_values_stable_perm.
  - intros a b. unfold toy_ratio. now rewrite Nat.eqb_sym.
Defined.

Section FrequencyFacts.

Variable token_sort_ratio : string -> string -> Z.
Variable pc : list row.

Lemma row_eta (r : row) : r = ((row_name r, row_category r), row_count r).
Proof. now destruct r as [[a b] n]. Qed.

Lemma merged_below_put cm k v :
  merged_below pc cm ->
  (forall n2 c, k = (n2, c) -> v <> n2 ->
     exists cn c2, In ((v, c), cn) pc /\ In ((n2, c), c2) pc /\ c2 <= cn) ->
  merged_below pc (Dict.set key_eqb k v cm).
Proof.
  intros Hm Hnew n2 c n Hg Hne.
  destruct (key_eqb (n2, c) k) eqn:E.
  - apply key_eqb_eq in E. subst k. rewrite kget_put_same in Hg.
    injection Hg as <-. now apply Hnew.
  - rewrite kget_put_other in Hg by (now apply key_eqb_false).
    now apply Hm.
Qed.

Lemma inner_fold_below n c cn sc : forall st,
  walk_inv token_sort_ratio pc (Some (n, c)) st ->
  anchor (fst st) n c ->
  In ((n, c), cn) pc ->
  (forall r2, In r2 sc -> In r2 pc /\ row_category r2 = c) ->
  (forall r2, In r2 pc -> row_category r2 = c ->
     Dict.mem key_eqb (fst r2) (fst st) = false -> row_count r2 <= cn) ->
  merged_below pc (fst st) ->
  merged_below pc (fst (fold_left (inner_step token_sort_ratio n c) sc st)).
Proof.
  induction sc as [|r sc IH]; intros st Hinv Hanc Hrow Hsc Hcnt Hm; simpl;
    [exact Hm|].
  destruct (Hsc r (or_introl eq_refl)) as [Hrpc Hrc].
  assert (Hsc' : forall r2, In r2 sc -> In r2 pc /\ row_category r2 = c)
    by (intros r2 H; apply Hsc; now right).
  destruct (inner_step_cases token_sort_ratio pc n c st r Hinv)
    as [[_ E]|(Hf & Hs & E)]; rewrite E.
  - now apply IH.
  - apply IH; simpl.
    + now apply walk_inv_merge.
    + now apply anchor_put_fresh.
    + exact Hrow.
    + exact Hsc'.
    + intros r2 H1 H2 H3. apply Hcnt; auto.
      rewrite kmem_put in H3. now apply orb_false_iff in H3.
    + apply merged_below_put; [exact Hm|].
      intros n2 c' [= <- <-] Hne. exists cn, (row_count r).
      split; [exact Hrow|]. split.
      * rewrite <- Hrc. now rewrite <- row_eta.
      * apply Hcnt; auto. now rewrite row_key, Hrc.
Qed.

Lemma sorted_after (done : list row) r todo :
  StronglySorted ge_count (done ++ r :: todo) -> Forall (ge_count r) todo.
Proof.
  induction done as [|a done IH]; simpl; intros H.
  - now inversion H.
  - inversion H; subst. now apply IH.
Qed.

Lemma outer_step_below done r todo st :
  pc = done ++ r :: todo ->
  StronglySorted ge_count pc ->
  walk_inv token_sort_ratio pc None st ->
  (forall r', In r' done -> Dict.mem key_eqb (fst r') (fst st) = true) ->
  merged_below pc (fst st) ->
  merged_below pc (fst (outer_step token_sort_ratio pc st r)).
Proof.
  intros Hpc Hsorted Hinv Hdone Hm.
  assert (Hin : In r pc) by (rewrite Hpc; apply in_elt).
  unfold outer_step. destruct st as [cm p].
  rewrite <- row_key, (inv_processed _ _ _ _ Hinv). simpl in *.
  destruct (Dict.mem key_eqb (fst r) cm) eqn:Hfresh; [exact Hm|].
  destruct (walk_inv_anchor token_sort_ratio pc (cm, p) r Hinv Hin Hfresh)
    as [Hinv1 Hanc1].
  rewrite row_key in Hinv1 at 1.
  apply (inner_fold_below (row_name r) (row_category r) (row_count r));
    simpl.
  - exact Hinv1.
  - exact Hanc1.
  - now rewrite <- row_eta.
  - intros r2 H. apply filter_In in H. destruct H as [H1 H2].
    split; [exact H1|]. now apply String.eqb_eq in H2.
  - intros r2 H1 H2 H3. rewrite kmem_put in H3.
    apply orb_false_iff in H3. destruct H3 as [H3 H4].
    rewrite Hpc in H1, Hsorted. apply in_app_or in H1.
    destruct H1 as [H1|[H1|H1]].
    + rewrite (Hdone _ H1) in H4. discriminate.
    + subst r2. rewrite key_eqb_refl in H3. discriminate.
    + pose proof (sorted_after _ _ _ Hsorted) as Hf.
      rewrite Forall_forall in Hf. apply (Hf _ H1).
  - apply merged_below_put; [exact Hm|].
    intros n2 c E Hne. rewrite row_key in E. congruence.
Qed.

Lemma walk_fold_below todo : forall done st,
  pc = done ++ todo ->
  StronglySorted ge_count pc ->
  walk_inv token_sort_ratio pc None st ->
  (forall r', In r' done -> Dict.mem key_eqb (fst r') (fst st) = true) ->
  merged_below pc (fst st) ->
  merged_below pc (fst (fold_left (outer_step token_sort_ratio pc) todo st)).
Proof.
  induction todo as [|r todo IH]; intros done st Hpc Hsorted Hinv Hdone Hm;
    simpl; [exact Hm|].
  assert (Hin : In r pc) by (rewrite Hpc; apply in_elt).
  destruct (outer_step_inv token_sort_ratio pc st r Hinv Hin)
    as (I1 & I2 & I3).
  apply (IH (done ++ [r])).
  - now rewrite <- app_assoc.
  - exact Hsorted.
  - exact I1.
  - intros r' H. apply in_app_or in H. destruct H as [H|[<-|[]]].
    + apply I3. now apply Hdone.
    + exact I2.
  - now apply (outer_step_below done r todo).
Qed.

End FrequencyFacts.

(** X14.  The most frequent name is the anchor: when entity resolution
    gives an item another canonical name, the group of that name (in the
    item's category) has at least as many items as the item's own group
    had; the sort by count is taken to put the rows in descending order of
    count. *)
Theorem anchor_is_at_least_as_frequent
  (sort_values : list row -> list row)
  (token_sort_ratio : string -> string -> Z) :
  (forall l, Permutation (sort_values l) l) ->
  (forall l, Sorted ge_count (sort_values l)) ->
  forall items i item item',
    nth_error items i = Some item ->
    nth_error (resolve_items sort_values token_sort_ratio items) i
      = Some item' ->
    group_size items (item_key item)
    <= group_size items (item'.(canonical_name), category_val item).
Proof.
  intros Hperm Hsorted items i item item' Hi Hi'.
  rewrite resolve_items_map, nth_error_map, Hi in Hi'.
  injection Hi' as <-.
  set (pc := product_counts_of sort_values items).
  set (cm := fst (resolution_walk token_sort_ratio pc)).
  assert (Hin : In item items) by (eapply nth_error_In; eassumption).
  destruct (item_key_mapped sort_values token_sort_ratio Hperm items item Hin)
    as [v Hv]. fold pc in Hv. fold cm in Hv.
  destruct (apply_canonical_map_hit cm item v Hv) as (-> & _).
  destruct (string_dec v item.(canonical_name)) as [->|Hne];
    [apply Nat.le_refl|].
  assert (Hss : StronglySorted ge_count pc).
  { apply Sorted_StronglySorted; [|apply Hsorted].
    intros a b c. apply ge_count_trans. }
  assert (Hm : merged_below pc cm).
  { unfold cm, resolution_walk.
    apply (walk_fold_below token_sort_ratio pc pc [] ([], []));
      [reflexivity|exact Hss|apply walk_inv_init|intros r' []|].
    intros n2 c n H. discriminate H. }
  destruct (Hm _ _ _ Hv Hne) as (cn & c2 & H1 & H2 & Hle).
  assert (Hcount : forall k n, In (k, n) pc -> n = group_size items k).
  { intros k n H. unfold group_size.
    destruct (groupby_size_spec (map item_key items)) as [Hasc Hc].
    rewrite <- Hc. symmetry. apply ascending_In_count; [exact Hasc|].
    apply (Permutation_in _ (Hperm _)). exact H. }
  rewrite (Hcount _ _ H1) in Hle. rewrite (Hcount _ _ H2) in Hle.
  exact Hle.
Qed.

Lemma anchor_is_at_least_as_frequent_witness :
  group_size cola_coke_fries ("coke", "beverages")
  <= group_size cola_coke_fries ("cola", "beverages").
Proof.
  apply (anchor_is_at_least_as_frequent sort_values_stable toy_ratio
           sort_values_stable_perm sort_values_stable_sorted
           cola_coke_fries 1 (an_item "coke" BEVERAGES)
           (mkOrderItem 0 None "coke" "cola" BEVERAGES 1 100 100));
    vm_compute; reflexivity.
Defined.

(* ------------------------------------------------------------------ *)
(** ** Amounts with two decimals *)

Lemma round_by_shift_eq m e : round_by_shift m e = round_half_even m e.
Proof.
  unfold round_by_shift, round_half_even.
  destruct (0 <=? e)%Z eqn:He.
  - apply Z.leb_le in He. now rewrite Z.shiftl_mul_pow2.
  - apply Z.leb_gt in He. cbv zeta.
    assert (Hk : (0 <= - e)%Z) by lia.
    assert (Hp : (0 < 2 ^ (- e))%Z) by (apply Z.pow_pos_nonneg; lia).
    rewrite Z.shiftr_div_pow2, !Z.shiftl_mul_pow2 by exact Hk.
    rewrite Z.mul_1_l.
    replace (Z.pos m - Z.pos m / 2 ^ (- e) * 2 ^ (- e))%Z
      with (Z.pos m mod 2 ^ (- e))%Z; [reflexivity|].
    rewrite Z.mod_eq by lia. lia.
Qed.

Lemma round_trip_below_spec n : forall d acc,
  round_trip_below n d acc = true ->
  acc = true /\
  forall k, (d <= k < d + Z.of_nat n)%Z -> cents_round_trip k = true.
Proof.
  induction n as [|n IH]; intros d acc H.
  - simpl in H. split; [exact H|]. intros k Hk. lia.
  - cbn [round_trip_below] in H. destruct (IH _ _ H) as [Ha Hrest].
    apply andb_true_iff in Ha. destruct Ha as [Ha Hd].
    split; [exact Ha|]. intros k Hk.
    destruct (Z.eq_dec k d) as [->|Hne]; [exact Hd|].
    apply Hrest. lia.
Qed.

Lemma cents_round_trip_checked :
  round_trip_below (Z.to_nat 100000) 0 true = true.
Proof. vm_compute. reflexivity. Qed.

Lemma cents_round_trip_sound d :
  cents_round_trip d = true ->
  to_cents (VFloat (PrimFloat.div (float_of_int d) 100%float)) = Ok d.
Proof.
  unfold cents_round_trip. cbv zeta.
  set (f := PrimFloat.div (float_of_int d) 100%float).
  intros H. apply andb_true_iff in H. destruct H as [Hn H].
  apply negb_true_iff in Hn. rewrite (to_cents_float f Hn).
  unfold round_cents, py_round.
  destruct (Prim2SF (PrimFloat.mul f 100%float)) as [s|s| |s m e];
    try discriminate H.
  - apply Z.eqb_eq in H. now subst d.
  - destruct s; [discriminate H|]. apply Z.eqb_eq in H.
    now rewrite <- round_by_shift_eq, H.
Qed.

(** X15.  An amount of whole cents survives the passage through dollars:
    for every integer [d] with [0 <= d < 100000], the float [d / 100] is
    converted by [to_cents] to [d] exactly (the binary rounding errors of
    the division and of the multiplication by 100 never reach half a
    cent). *)
Theorem to_cents_of_two_decimals (d : Z) :
  (0 <= d < 100000)%Z ->
  to_cents (VFloat (PrimFloat.div (float_of_int d) 100%float)) = Ok d.
Proof.
  intros Hd. apply cents_round_trip_sound.
  destruct (round_trip_below_spec _ _ _ cents_round_trip_checked) as [_ H].
  apply H. rewrite Z2Nat.id; lia.
Qed.

Lemma to_cents_of_two_decimals_witness :
  to_cents (VFloat (PrimFloat.div (float_of_int 1999) 100%float))
  = Ok 1999%Z.
Proof. apply (to_cents_of_two_decimals 1999). lia. Defined.

(* ------------------------------------------------------------------ *)
(** ** Quantities baked into names *)

Lemma digit_value_nonneg c : PyStr.is_digit c = true -> (0 <= digit_value c)%Z.
Proof.
  unfold PyStr.is_digit, digit_value. cbv zeta.
  rewrite andb_true_iff, N.leb_le. intros [H _]. lia.
Qed.

Lemma int_of_digits_nonneg s :
  PyStr.all_chars PyStr.is_digit s = true -> (0 <= int_of_digits s)%Z.
Proof.
  unfold int_of_digits.
  assert (H : forall acc, (0 <= acc)%Z ->
            PyStr.all_chars PyStr.is_digit s = true ->
            (0 <= fold_left (fun acc c => 10 * acc + digit_value c)
                            (list_ascii_of_string s) acc)%Z).
  { induction s as [|c s IH]; intros acc Hacc Hs;
      cbn [list_ascii_of_string fold_left]; [exact Hacc|].
    simpl in Hs. apply andb_true_iff in Hs. destruct Hs as [Hc Hs].
    apply IH; [|exact Hs]. pose proof (digit_value_nonneg c Hc). lia. }
  apply H. lia.
Qed.

Lemma search_digits raw g1 g2 :
  QTY_PATTERN_search raw = Some (g1, g2) ->
  g2 <> EmptyString /\ PyStr.all_chars PyStr.is_digit g2 = true /\
  exists a b : string, raw = (a ++ g2 ++ b)%string.
Proof.
  intros H. destruct (search_first _ _ _ H)
    as (before & s & -> & (ws & u & rest & lit & -> & _ & Hne & Hd & _) & _).
  split; [exact Hne|]. split; [exact Hd|].
  exists (before ++ g1)%string, (ws ++ u ++ rest)%string.
  now rewrite app_str_assoc.
Qed.

Lemma length_app_str (a b : string) :
  String.length (a ++ b) = String.length a + String.length b.
Proof. induction a as [|c a IH]; simpl; [reflexivity|now rewrite IH]. Qed.

(** The outcome of [extract_baked_quantity] as the name decides it. *)
Lemma extract_baked_quantity_shape (raw_name : string) :
  ((4300 < Z.of_nat (String.length raw_name))%Z /\
   forall q, extract_baked_quantity raw_name q = Raise ValueError) \/
  exists clean n,
    (0 <= n)%Z /\
    forall q, extract_baked_quantity raw_name q = Ok (clean, (q * n)%Z).
Proof.
  unfold extract_baked_quantity.
  destruct (QTY_PATTERN_search raw_name) as [[g1 g2]|] eqn:E.
  - destruct (search_digits _ _ _ E) as (_ & Hd & a & b & Eq).
    destruct (int_of_digit_string_cases g2) as [Hok Hraise].
    destruct (Z.le_gt_cases (Z.of_nat (String.length g2)) 4300) as [H|H].
    + right. exists (clean_text (PyStr.strip g1)), (int_of_digits g2).
      split; [now apply int_of_digits_nonneg|].
      intros q. now rewrite (Hok H).
    + left. split; [|intros q; now rewrite (Hraise H)].
      rewrite Eq, !length_app_str. lia.
  - right. exists (clean_text raw_name), 1%Z. split; [lia|].
    intros q. now rewrite Z.mul_1_r.
Qed.

Lemma extract_baked_quantity_no_digit (raw_name : string) :
  PyStr.all_chars (fun c => negb (PyStr.is_digit c)) raw_name = true ->
  QTY_PATTERN_search raw_name = None.
Proof.
  intros Hnd.
  destruct (QTY_PATTERN_search raw_name) as [[g1 g2]|] eqn:E; [|reflexivity].
  exfalso. destruct (search_digits _ _ _ E) as (Hne & Hd & a & b & Eq).
  rewrite Eq, !all_chars_app in Hnd.
  apply andb_true_iff in Hnd. destruct Hnd as [_ Hnd].
  apply andb_true_iff in Hnd. destruct Hnd as [Hnd _].
  destruct g2 as [|c g2]; [now apply Hne|].
  simpl in Hd, Hnd. apply andb_true_iff in Hd, Hnd.
  destruct Hd as [Hd _], Hnd as [Hnd _]. rewrite Hd in Hnd. discriminate.
Qed.

(** X16.  In [extract_baked_quantity] the name alone decides the outcome.
    Either the call ends with the [ValueError] of [int], whatever the
    quantity, which takes a name of more than 4300 characters (the integer
    matched has more than 4300 digits); or it returns a cleaned name and
    the quantity times a multiplier, both fixed by the name, the multiplier
    never negative.  A name without any digit has the multiplier 1 and is
    cleaned as a whole. *)
Theorem extract_baked_quantity_scales (raw_name : string) :
  (((4300 < Z.of_nat (String.length raw_name))%Z /\
    forall q, extract_baked_quantity raw_name q = Raise ValueError) \/
   exists clean n,
     (0 <= n)%Z /\
     forall q, extract_baked_quantity raw_name q
               = Ok (clean, (q * n)%Z)) /\
  ((Z.of_nat (String.length raw_name) <= 4300)%Z ->
   exists clean n,
     (0 <= n)%Z /\
     forall q, extract_baked_quantity raw_name q
               = Ok (clean, (q * n)%Z)) /\
  (PyStr.all_chars (fun c => negb (PyStr.is_digit c)) raw_name = true ->
   forall q, extract_baked_quantity raw_name q
             = Ok (clean_text raw_name, q)).
Proof.
  split; [apply extract_baked_quantity_shape|]. split.
  - intros Hlen.
    destruct (extract_baked_quantity_shape raw_name) as [[H _]|H];
      [lia|exact H].
  - intros Hnd q. unfold extract_baked_quantity.
    now rewrite (extract_baked_quantity_no_digit _ Hnd).
Qed.

(* ------------------------------------------------------------------ *)
(** ** The steps of an adapter *)

Lemma registry_steps_trans src r1 r2 r3 :
  registry_steps src r1 r2 -> registry_steps src r2 r3 ->
  registry_steps src r1 r3.
Proof.
  intros H1 H2. induction H2 as [|r2 r3 r4 _ IH Hs]; [exact H1|].
  eapply steps_more; [now apply IH|exact Hs].
Qed.

Lemma registry_step_steps src r r' :
  registry_step src r r' -> registry_steps src r r'.
Proof. intros H. eapply steps_more; [apply steps_done|exact H]. Qed.

Lemma get_or_create_location_mem r name src sid tz a c s z co k :
  smem k r.(locations) = true ->
  smem k (get_or_create_location r name src sid tz a c s z co).(locations)
  = true.
Proof.
  intros H. destruct (sget name r.(locations)) as [l|] eqn:E.
  - rewrite (get_or_create_location_present _ _ _ _ _ _ _ _ _ _ _ E).
    simpl. fold (@sset Location). rewrite smem_sset, H. apply orb_true_r.
  - rewrite get_or_create_location_absent by (now apply smem_false_sget).
    simpl. rewrite smem_sset, H. apply orb_true_r.
Qed.

Lemma get_or_create_location_keeps_sync r name src sid tz a c s z co :
  metadata_in_sync r ->
  metadata_in_sync (get_or_create_location r name src sid tz a c s z co).
Proof.
  intros Hs.
  destruct (get_or_create_location_sync r name src sid tz a c s z co Hs)
    as (l' & -> & _).
  intros k. simpl. destruct (string_dec k name) as [->|Hne].
  - now rewrite !sget_sset_same.
  - rewrite !sget_sset_other by exact Hne. apply Hs.
Qed.

Lemma get_or_create_location_keeps_keyed r name src sid tz a c s z co :
  metadata_in_sync r -> keyed_by_name r ->
  keyed_by_name (get_or_create_location r name src sid tz a c s z co).
Proof.
  intros Hs Hk.
  destruct (get_or_create_location_sync r name src sid tz a c s z co Hs)
    as (l' & -> & El).
  intros k l. simpl. destruct (string_dec k name) as [->|Hne].
  - rewrite sget_sset_same. intros [= <-]. subst l'.
    destruct (sget name r.(locations)) as [l0|] eqn:E.
    + destruct (merge_location_source src sid tz a c s z l0) as [_ H].
      rewrite H. now apply Hk.
    + now destruct src.
  - rewrite sget_sset_other by exact Hne. apply Hk.
Qed.


Lemma order_ok_own src o : order_ok src o -> order_ok o.(source_system) o.
Proof. intros H. destruct H as [E H]. rewrite E. now split. Qed.

Lemma registry_step_ok src r r' :
  registry_step src r r' -> registry_ok r -> registry_ok r'.
Proof.
  intros Hstep (Hs & Hk & [Ho Hi] & Hw & Hu).
  destruct Hstep as [r name ss sid tz a c s z co|r o Hloc Hok|r i Hidx Hok].
  - destruct (get_or_create_location_orders r name ss sid tz a c s z co)
      as [Eo Ei].
    split; [now apply get_or_create_location_keeps_sync|].
    split; [now apply get_or_create_location_keeps_keyed|].
    unfold refs_ok. rewrite Eo, Ei. split; [split|split]; auto.
    eapply Forall_impl; [|exact Ho]. intros o H.
    now apply get_or_create_location_mem.
  - split; [exact Hs|]. split; [exact Hk|].
    unfold refs_ok. simpl. split; [split|split].
    + apply Forall_app. split; [exact Ho|]. now repeat constructor.
    + eapply Forall_impl; [|exact Hi]. intros i H. simpl in H.
      rewrite length_app. simpl. lia.
    + apply Forall_app. split; [exact Hw|].
      constructor; [|constructor]. now apply (order_ok_own src).
    + exact Hu.
  - split; [exact Hs|]. split; [exact Hk|].
    unfold refs_ok. simpl. split; [split|split].
    + exact Ho.
    + apply Forall_app. split; [exact Hi|].
      constructor; [|constructor]. lia.
    + exact Hw.
    + apply Forall_app. split; [exact Hu|].
      constructor; [|constructor]. apply Hok.
Qed.

Lemma registry_steps_ok src r r' :
  registry_steps src r r' -> registry_ok r -> registry_ok r'.
Proof.
  intros H. induction H as [|r1 r2 r3 _ IH Hs]; [auto|].
  intros Hok. apply (registry_step_ok src r2); auto.
Qed.


(** The rules of [walks]. *)

Lemma walks_ret src (P Q : ModelRegistry -> Prop) {A} (a : A) :
  (forall r, P r -> Q r) -> walks src P Q (ret a).
Proof. intros H w Hw. split; [apply steps_done|now apply H]. Qed.

Lemma walks_raise src (P Q : ModelRegistry -> Prop) {A} e :
  (forall r, P r -> Q r) -> walks src P Q (@raise A e).
Proof. intros H w Hw. split; [apply steps_done|now apply H]. Qed.

Lemma walks_lift src (P Q : ModelRegistry -> Prop) {A} (x : result A) :
  (forall r, P r -> Q r) -> walks src P Q (lift x).
Proof. intros H w Hw. split; [apply steps_done|now apply H]. Qed.

Lemma walks_bind src (P R Q : ModelRegistry -> Prop) {A B}
  (m : M A) (k : A -> M B) :
  walks src P R m -> (forall r, R r -> Q r) ->
  (forall a, walks src R Q (k a)) -> walks src P Q (bind m k).
Proof.
  intros Hm HRQ Hk w Hw. unfold bind. destruct (Hm w Hw) as [H1 H2].
  destruct (m w) as [w' [a|e]]; simpl in *.
  - destruct (Hk a w' H2) as [H3 H4]. split; [|exact H4].
    eapply registry_steps_trans; eassumption.
  - split; [exact H1|now apply HRQ].
Qed.

Lemma walks_bind_lift src (P Q : ModelRegistry -> Prop) {A B}
  (x : result A) (k : A -> M B) :
  (forall r, P r -> Q r) -> (forall a, walks src P Q (k a)) ->
  walks src P Q (bind (lift x) k).
Proof.
  intros H Hk. apply (walks_bind src P P Q); [|exact H|exact Hk].
  now apply walks_lift.
Qed.

Lemma walks_bind_lift_eq src (P Q : ModelRegistry -> Prop) {A B}
  (x : result A) (k : A -> M B) :
  (forall r, P r -> Q r) -> (forall a, x = Ok a -> walks src P Q (k a)) ->
  walks src P Q (bind (lift x) k).
Proof.
  intros H Hk. destruct x as [a|e].
  - intros w Hw. exact (Hk a eq_refl w Hw).
  - intros w Hw. split; [apply steps_done|now apply H].
Qed.

Lemma walks_bind_get_cache src (P Q : ModelRegistry -> Prop) {B}
  (k : option (Dict.t string string) -> M B) :
  (forall c, walks src P Q (k c)) -> walks src P Q (bind get_cache k).
Proof. intros Hk w Hw. exact (Hk _ w Hw). Qed.

Lemma walks_bind_set_cache src (P Q : ModelRegistry -> Prop) {B}
  m (k : unit -> M B) :
  walks src P Q (k tt) -> walks src P Q (bind (set_cache m) k).
Proof. intros Hk w Hw. exact (Hk (mkWorld w.(registry) (Some m)) Hw). Qed.

Lemma walks_bind_get_registry src (P Q : ModelRegistry -> Prop) {B}
  (k : ModelRegistry -> M B) :
  (forall r0, walks src (fun r => r = r0 /\ P r) Q (k r0)) ->
  walks src P Q (bind get_registry k).
Proof. intros Hk w Hw. apply (Hk w.(registry) w). now split. Qed.

Lemma walks_modify src (P Q : ModelRegistry -> Prop)
  (f : ModelRegistry -> ModelRegistry) :
  (forall r, P r -> registry_step src r (f r) /\ Q (f r)) ->
  walks src P Q (modify_registry f).
Proof.
  intros H w Hw. destruct (H _ Hw) as [H1 H2]. simpl.
  split; [now apply registry_step_steps|exact H2].
Qed.

Lemma walks_for_each src (I : ModelRegistry -> Prop) {A}
  (xs : list A) (body : A -> M unit) :
  (forall x, walks src I I (body x)) -> walks src I I (for_each xs body).
Proof.
  intros H. induction xs as [|x xs IH]; simpl.
  - now apply walks_ret.
  - apply (walks_bind src I I I); [apply H|auto|intros _; exact IH].
Qed.

Lemma walks_weaken src (P P' Q Q' : ModelRegistry -> Prop) {A} (m : M A) :
  (forall r, P' r -> P r) -> (forall r, Q r -> Q' r) ->
  walks src P Q m -> walks src P' Q' m.
Proof.
  intros HP HQ H w Hw. destruct (H w (HP _ Hw)) as [H1 H2].
  split; [exact H1|now apply HQ].
Qed.

Lemma walks_location_update src (P : ModelRegistry -> Prop) {B}
  name ss sid tz a c s z co (k : unit -> M B) :
  walks src any_registry any_registry (k tt) ->
  walks src P any_registry
    (bind (modify_registry (fun r =>
             get_or_create_location r name ss sid tz a c s z co)) k).
Proof.
  intros Hk.
  apply (walks_bind src P any_registry any_registry); [|auto|].
  - apply walks_modify. intros r _. split; [constructor|exact I].
  - intros []. exact Hk.
Qed.

(** The rules of [appends]. *)

Lemma appends_keeps {A} (m : M A) :
  (forall w, (fst (m w)).(registry).(orders) = w.(registry).(orders)) ->
  appends [] m.
Proof.
  intros H w. exists []. rewrite app_nil_r. split; [apply H|].
  destruct (snd (m w)); [reflexivity|now exists []].
Qed.

Lemma appends_bind {A B} X Y (m : M A) (k : A -> M B) :
  appends X m -> (forall a, appends Y (k a)) -> appends (X ++ Y) (bind m k).
Proof.
  intros Hm Hk w. unfold bind. destruct (Hm w) as (a1 & E1 & R1).
  destruct (m w) as [w' [a|e]]; simpl in *.
  - destruct (Hk a w') as (a2 & E2 & R2). exists (a1 ++ a2).
    rewrite E2, E1, <- app_assoc. split; [reflexivity|].
    rewrite map_app, R1.
    destruct (snd (k a w')); [now rewrite R2|].
    destruct R2 as [rest ->]. exists rest. now rewrite app_assoc.
  - exists a1. split; [exact E1|]. destruct R1 as [rest ->].
    exists (rest ++ Y). now rewrite app_assoc.
Qed.

Lemma appends_bind_keeps {A B} Y (m : M A) (k : A -> M B) :
  appends [] m -> (forall a, appends Y (k a)) -> appends Y (bind m k).
Proof. intros Hm Hk. now apply (appends_bind [] Y). Qed.

Lemma appends_bind_then_keeps {A B} X (m : M A) (k : A -> M B) :
  appends X m -> (forall a, appends [] (k a)) -> appends X (bind m k).
Proof.
  intros Hm Hk. rewrite <- (app_nil_r X). now apply appends_bind.
Qed.

Lemma appends_ret {A} (a : A) : appends [] (ret a).
Proof. now apply appends_keeps. Qed.

Lemma appends_raise {A} e : appends [] (@raise A e).
Proof. now apply appends_keeps. Qed.

(** A statement that raises at once has appended a first part of anything. *)
Lemma appends_raise_any {A} X e : appends X (@raise A e).
Proof.
  intros w. exists []. rewrite app_nil_r. split; [reflexivity|].
  now exists X.
Qed.

Lemma appends_lift {A} (x : result A) : appends [] (lift x).
Proof. now apply appends_keeps. Qed.

Lemma appends_get_registry : appends [] get_registry.
Proof. now apply appends_keeps. Qed.

Lemma appends_get_cache : appends [] get_cache.
Proof. now apply appends_keeps. Qed.

Lemma appends_set_cache m : appends [] (set_cache m).
Proof. now apply appends_keeps. Qed.

Lemma appends_location_update name ss sid tz a c s z co :
  appends [] (modify_registry (fun r =>
                get_or_create_location r name ss sid tz a c s z co)).
Proof.
  apply appends_keeps. intros w. simpl.
  apply get_or_create_location_orders.
Qed.

Lemma appends_order o row :
  order_row o = row ->
  appends [row]
    (modify_registry (fun r => set_orders r (r.(orders) ++ [o]))).
Proof. intros <- w. exists [o]. split; reflexivity. Qed.

Lemma appends_for_each_keeps {A} (xs : list A) (body : A -> M unit) :
  (forall x, appends [] (body x)) -> appends [] (for_each xs body).
Proof.
  intros H. induction xs as [|x xs IH]; simpl; [apply appends_ret|].
  apply appends_bind_keeps; [apply H|intros _; exact IH].
Qed.

Lemma appends_for_each {A} (f : A -> list (string * string * string))
  (xs : list A) (body : A -> M unit) :
  (forall x, appends (f x) (body x)) ->
  appends (flat_map f xs) (for_each xs body).
Proof.
  intros H. induction xs as [|x xs IH]; simpl; [apply appends_ret|].
  apply appends_bind; [apply H|intros _; exact IH].
Qed.

Lemma appends_bind_ok {A B} X (a : A) (k : A -> M B) :
  appends X (k a) -> appends X (bind (lift (Ok a)) k).
Proof. intros H w. exact (H w). Qed.

Lemma flat_map_singleton {A B} (f : A -> B) (xs : list A) :
  flat_map (fun x => [f x]) xs = map f xs.
Proof. induction xs as [|x xs IH]; simpl; [reflexivity|now rewrite IH]. Qed.

Lemma appends_item_update f :
  appends [] (modify_registry (fun r => set_order_items r (f r))).
Proof. now apply appends_keeps. Qed.

Create HintDb adapter.
#[global] Hint Resolve appends_ret appends_raise appends_lift
  appends_get_registry appends_get_cache appends_set_cache
  appends_location_update : adapter.
#[global] Hint Extern 1 (appends [] (modify_registry _)) =>
  apply appends_keeps; intros; reflexivity : adapter.
#[global] Hint Extern 1 (walks _ _ _ (ret _)) =>
  apply walks_ret; intros; first [assumption|exact I] : adapter.
#[global] Hint Extern 1 (walks _ _ _ (raise _)) =>
  apply walks_raise; intros; first [assumption|exact I] : adapter.
#[global] Hint Extern 1 (walks _ _ _ (lift _)) =>
  apply walks_lift; intros; first [assumption|exact I] : adapter.

(** A statement that leaves the orders as they are: the binds are taken
    apart and the branches followed. *)
Ltac keeps_orders :=
  repeat first
    [ solve [auto with adapter]
    | apply appends_bind_keeps; [|intros ?]
    | match goal with
      | |- appends _ (match ?x with _ => _ end) => destruct x eqn:?
      end ].

(** What the adapters build. *)

Lemma map_toast_order_type_range b : In (map_toast_order_type b) ORDER_TYPES.
Proof.
  unfold map_toast_order_type, sget, Dict.get. cbn [fst snd].
  repeat match goal with
         | |- context [String.eqb ?a ?b] => destruct (String.eqb a b)
         end; simpl; auto.
Qed.

Lemma map_doordash_order_type_range m :
  In (map_doordash_order_type m) ORDER_TYPES.
Proof.
  unfold map_doordash_order_type.
  destruct (PyStr.contains _ _); simpl; auto.
Qed.

Lemma square_order_type_range fs t :
  square_order_type fs = Ok t -> In t ORDER_TYPES.
Proof.
  unfold square_order_type. destruct fs as [|f _].
  - intros [= <-]. simpl. auto.
  - destruct (get_default _ _) as [ft|]; [|discriminate].
    repeat match goal with
           | |- context [if ?b then _ else _] => destruct b
           end; intros [= <-]; simpl; auto.
Qed.

Lemma day_of_week_range w : (0 <= (w + 1) mod 7 < 7)%Z.
Proof. apply Z.mod_pos_bound. lia. Qed.

Lemma unit_price_of_ok total q adj n :
  adj = (q * n)%Z -> (0 <= n)%Z -> (0 < adj)%Z ->
  unit_price_of total q adj = (total / adj)%Z.
Proof.
  intros E Hn Hadj. unfold unit_price_of.
  destruct (Z.ltb_spec q adj) as [H|H].
  - destruct (Z.ltb_spec 0 adj); [reflexivity|lia].
  - assert (0 < n)%Z by nia. assert (0 < q)%Z by nia.
    assert (n = 1)%Z by nia. assert (adj = q) as -> by lia.
    destruct (Z.ltb_spec 0 q); [reflexivity|lia].
Qed.

Lemma extract_name_indep raw q clean adj :
  extract_baked_quantity raw q = Ok (clean, adj) ->
  (exists m, extract_baked_quantity raw 1 = Ok (clean, m)) /\
  exists n, (0 <= n)%Z /\ adj = (q * n)%Z.
Proof.
  intros E.
  destruct (extract_baked_quantity_shape raw)
    as [[_ Hr]|(clean' & n & Hn & Hq)]; [rewrite Hr in E; discriminate E|].
  rewrite Hq in E. injection E as <- <-.
  split; [eexists; apply Hq|now exists n].
Qed.

Lemma adapter_item_ok idx raw q clean adj cat total :
  extract_baked_quantity raw q = Ok (clean, adj) ->
  item_ok (mkOrderItem idx None raw clean cat adj
                       (unit_price_of total q adj) total).
Proof.
  intros E. destruct (extract_name_indep _ _ _ _ E) as (Hc & n & Hn & Ha).
  split; [reflexivity|]. split; [exact Hc|].
  intros Hpos. simpl in *. now apply (unit_price_of_ok total q adj n).
Qed.

Lemma square_item_ok idx raw q clean adj cat total :
  extract_baked_quantity raw q = Ok (clean, adj) ->
  item_ok (mkOrderItem idx None raw clean cat adj
                       (square_unit_price total q adj) total).
Proof.
  intros E. destruct (extract_name_indep _ _ _ _ E) as (Hc & _).
  split; [reflexivity|]. split; [exact Hc|].
  intros Hpos. simpl in *. unfold square_unit_price.
  destruct (Z.ltb_spec 0 adj); [reflexivity|lia].
Qed.

Lemma new_registry_ok : registry_ok new_registry.
Proof.
  split; [exact new_registry_in_sync|]. split; [exact new_registry_keyed|].
  repeat split; constructor.
Qed.

Lemma sget_smem {V} k (d : Dict.t string V) v :
  sget k d = Some v -> smem k d = true.
Proof.
  intros H. destruct (smem k d) eqn:E; [reflexivity|].
  apply smem_false_sget in E. congruence.
Qed.

Lemma last_order_appended (r : ModelRegistry) o :
  last_order_is (List.length r.(orders)) (set_orders r (r.(orders) ++ [o])).
Proof. unfold last_order_is. simpl. rewrite length_app. simpl. lia. Qed.

(** What a [try] statement does to the registry is what its body does. *)
Lemma walks_try src (P Q : ModelRegistry -> Prop) (m : M unit) :
  walks src P Q m -> walks src P Q (try_except m).
Proof. intros H w Hw. exact (H w Hw). Qed.

(* ------------------------------------------------------------------ *)
(** ** The Toast adapter *)

Section ToastAdapterFacts.

Variable iter_set : list string -> list string.
Variable normalize_timestamp : option string -> Z.
Variable to_local : Z -> string -> LocalTime.
Variable parse_business_date : string -> result Z.

Lemma walks_toast_location m loc :
  walks TOAST any_registry any_registry (toast_location m loc).
Proof.
  unfold toast_location.
  destruct (tl_guid loc) as [g|], (tl_name loc) as [n|];
    auto with adapter.
  destruct (truthy (Some g) && truthy (Some n)); [|auto with adapter].
  apply walks_bind_lift; [auto|]. intros [[[[line1 city'] state'] zip] co].
  apply walks_location_update. auto with adapter.
Qed.

Lemma walks_toast_locations locs :
  forall m, walks TOAST any_registry any_registry (toast_locations m locs).
Proof.
  induction locs as [|loc locs IH]; intros m; simpl; [auto with adapter|].
  apply (walks_bind TOAST any_registry any_registry any_registry);
    [apply walks_toast_location|auto|intros m'; apply IH].
Qed.

Lemma walks_toast_order_location m order :
  walks TOAST any_registry any_registry (toast_order_location m order).
Proof.
  unfold toast_order_location.
  destruct (negb (truthy _)).
  - destruct (to_restaurantGuid order) as [g|]; [|auto with adapter].
    apply walks_location_update. auto with adapter.
  - destruct (match to_restaurantGuid order with
              | Some g => sget g m | None => None end) as [n|];
      [|auto with adapter].
    apply walks_bind_get_registry. intros r0.
    destruct (smem n (locations r0)).
    + apply walks_ret. intros; exact I.
    + apply walks_raise. intros; exact I.
Qed.

Lemma walks_toast_selection idx selection :
  walks TOAST (last_order_is idx) (last_order_is idx)
        (toast_selection idx selection).
Proof.
  unfold toast_selection. destruct (ts_voided selection); [auto with adapter|].
  apply (walks_bind TOAST _ (last_order_is idx)); [|auto|].
  { destruct (truthy _); auto with adapter. }
  intros [raw_name|]; [|auto with adapter].
  apply walks_bind_lift_eq; [auto|]. intros [clean adj] E.
  apply walks_bind_lift; [auto|]. intros group_name.
  apply walks_bind_get_cache. intros cache.
  apply walks_bind_lift; [auto|]. intros total.
  apply walks_modify. intros r Hr. split; [|exact Hr].
  apply step_item; [exact Hr|].
  exact (adapter_item_ok _ _ _ _ _ _ _ E).
Qed.

Lemma walks_toast_check order location_name check :
  walks TOAST any_registry any_registry
        (toast_check normalize_timestamp to_local parse_business_date
                     order location_name check).
Proof.
  unfold toast_check. apply walks_bind_get_registry. intros r0.
  destruct (sget location_name (locations r0)) as [location|] eqn:El.
  2:{ apply walks_raise. intros; exact I. }
  set (P := fun r : ModelRegistry => r = r0 /\ any_registry r).
  apply (walks_bind TOAST P P); [|intros; exact I|].
  { destruct (truthy _); [destruct (to_businessDate order)|];
      auto with adapter. }
  intros business_date'.
  apply walks_bind_lift; [intros; exact I|]. intros dining_behavior.
  apply walks_bind_lift; [intros; exact I|]. intros total.
  apply walks_bind_lift_eq; [intros; exact I|]. intros subtotal Es.
  apply walks_bind_lift; [intros; exact I|]. intros tax.
  apply walks_bind_lift; [intros; exact I|]. intros tip.
  apply walks_bind_lift_eq; [intros; exact I|]. intros net En.
  apply (walks_bind TOAST P (last_order_is (List.length r0.(orders))));
    [|intros; exact I|].
  - apply walks_modify. intros r [-> _].
    split; [|apply last_order_appended].
    apply step_order; [exact (sget_smem _ _ _ El)|].
    split; [reflexivity|]. split; [now exists (tc_guid check)|].
    split; [apply day_of_week_range|]. split.
    + simpl. destruct dining_behavior; [apply map_toast_order_type_range|].
      simpl; auto.
    + simpl. split; [congruence|reflexivity].
  - intros _. eapply walks_weaken; [| |apply walks_for_each].
    + intros r H; exact H.
    + intros; exact I.
    + intros x. apply walks_toast_selection.
Qed.

Lemma walks_toast_order m order :
  walks TOAST any_registry any_registry
        (toast_order normalize_timestamp to_local parse_business_date
                     m order).
Proof.
  unfold toast_order.
  apply (walks_bind TOAST any_registry any_registry);
    [apply walks_toast_order_location|auto|].
  intros location_name. apply walks_for_each.
  intros check. apply walks_toast_check.
Qed.

Lemma walks_process_toast file :
  walks TOAST any_registry any_registry
        (process_toast iter_set normalize_timestamp to_local
                       parse_business_date file).
Proof.
  apply walks_try. unfold process_toast_body.
  apply walks_bind_lift; [auto|]. intros data.
  apply walks_bind_lift; [auto|]. intros toast_categories.
  apply walks_bind_set_cache.
  apply (walks_bind TOAST any_registry any_registry);
    [apply walks_toast_locations|auto|].
  intros m. apply walks_for_each. intros order. apply walks_toast_order.
Qed.

Lemma appends_toast_selection idx selection :
  appends [] (toast_selection idx selection).
Proof.
  unfold toast_selection. destruct (ts_voided selection); [auto with adapter|].
  apply appends_bind_keeps; [destruct (truthy _); auto with adapter|].
  intros [raw_name|]; [|auto with adapter].
  keeps_orders.
Qed.

Lemma appends_toast_check order location_name check :
  appends [(format_order_id TOAST check.(tc_guid), order.(to_guid),
            map_toast_status check.(tc_voided))]
          (toast_check normalize_timestamp to_local parse_business_date
                       order location_name check).
Proof.
  unfold toast_check. apply appends_bind_keeps; [auto with adapter|].
  intros r0. destruct (sget location_name (locations r0)) as [location|].
  2:{ apply appends_raise_any. }
  apply appends_bind_keeps.
  { destruct (truthy _); [destruct (to_businessDate order)|];
      auto with adapter. }
  intros business_date'.
  do 6 (apply appends_bind_keeps; [auto with adapter|intros ?]).
  apply appends_bind_then_keeps.
  - apply appends_order. unfold order_row. simpl.
    now destruct (tc_voided check).
  - intros _. apply appends_for_each_keeps. intros x.
    apply appends_toast_selection.
Qed.

Lemma appends_toast_order m order :
  appends (map (fun check => (format_order_id TOAST check.(tc_guid),
                              order.(to_guid),
                              map_toast_status check.(tc_voided)))
               order.(to_checks))
          (toast_order normalize_timestamp to_local parse_business_date
                       m order).
Proof.
  unfold toast_order. apply appends_bind_keeps.
  - unfold toast_order_location. keeps_orders.
  - intros location_name.
    rewrite <- flat_map_singleton.
    apply appends_for_each. intros check. apply appends_toast_check.
Qed.

Lemma appends_toast_locations locs :
  forall m, appends [] (toast_locations m locs).
Proof.
  induction locs as [|loc locs IH]; intros m; simpl; [auto with adapter|].
  apply appends_bind_keeps; [|intros m'; apply IH].
  unfold toast_location. keeps_orders.
Qed.

Lemma appends_process_toast_body data :
  appends (toast_order_rows data)
          (process_toast_body iter_set normalize_timestamp to_local
                              parse_business_date (Ok data)).
Proof.
  unfold process_toast_body. apply appends_bind_ok.
  apply appends_bind_keeps; [auto with adapter|]. intros toast_categories.
  apply appends_bind_keeps; [auto with adapter|]. intros _.
  apply appends_bind_keeps; [apply appends_toast_locations|]. intros m.
  apply appends_for_each. intros order. apply appends_toast_order.
Qed.

End ToastAdapterFacts.




(** X19.  From an export that could be read, [process_toast] appends one
    order for every check of every order of the export, in the order of the
    export: its identifier is the GUID of the check with the prefix of
    Toast, its external identifier the GUID of the order of the export, its
    status VOIDED for a voided check and COMPLETED otherwise.  When the body
    raises, the orders appended are the ones of a first part of the
    checks. *)
Theorem process_toast_order_rows
  (iter_set : list string -> list string)
  (normalize_timestamp : option string -> Z)
  (to_local : Z -> string -> LocalTime)
  (parse_business_date : string -> result Z)
  (data : ToastData) (w : World) :
  exists added rest,
    (fst (process_toast iter_set normalize_timestamp to_local
                        parse_business_date (Ok data) w)).(registry).(orders)
    = w.(registry).(orders) ++ added /\
    toast_order_rows data = map order_row added ++ rest /\
    (forall u, snd (process_toast_body iter_set normalize_timestamp to_local
                      parse_business_date (Ok data) w) = Ok u -> rest = []).
Proof.
  destruct (appends_process_toast_body iter_set normalize_timestamp to_local
              parse_business_date data w) as (added & E & H).
  exists added.
  destruct (snd (process_toast_body iter_set normalize_timestamp to_local
                   parse_business_date (Ok data) w)) as [u|e] eqn:Er.
  - exists []. rewrite app_nil_r. split; [exact E|]. split; [now symmetry|].
    reflexivity.
  - destruct H as [rest H]. exists rest. split; [exact E|].
    split; [exact H|]. discriminate.
Qed.

(* ------------------------------------------------------------------ *)
(** ** The DoorDash adapter *)

(** The location of an order, looked up or reported under its name. *)
Lemma walks_location_lookup src name ss sid tz a c s z co :
  walks src any_registry any_registry
    (r <- get_registry ;;
     (if negb (smem name r.(locations))
      then modify_registry (fun r =>
             get_or_create_location r name ss sid tz a c s z co)
      else ret tt) ;;;
     ret name).
Proof.
  apply walks_bind_get_registry. intros r0.
  apply (walks_bind src _ any_registry); [|auto|auto with adapter].
  destruct (negb _); [|auto with adapter].
  apply walks_modify. intros r _. split; [constructor|exact I].
Qed.

Lemma appends_location_lookup name ss sid tz a c s z co :
  appends []
    (r <- get_registry ;;
     (if negb (smem name r.(locations))
      then modify_registry (fun r =>
             get_or_create_location r name ss sid tz a c s z co)
      else ret tt) ;;;
     ret name).
Proof.
  apply appends_bind_keeps; [auto with adapter|]. intros r0.
  apply appends_bind_keeps; [|auto with adapter].
  destruct (negb _); auto with adapter.
Qed.

Section DoorDashFacts.

Variable iter_set : list string -> list string.
Variable normalize_timestamp : option string -> Z.
Variable to_local : Z -> string -> LocalTime.

Lemma walks_doordash_store m store :
  walks DOORDASH any_registry any_registry (doordash_store m store).
Proof.
  unfold doordash_store.
  destruct (ds_store_id store) as [i|], (ds_name store) as [n|];
    auto with adapter.
  destruct (truthy (Some i) && truthy (Some n)); [|auto with adapter].
  apply walks_bind_lift; [auto|]. intros [[[[street city'] state'] zip] co].
  apply walks_location_update. auto with adapter.
Qed.

Lemma walks_doordash_stores stores :
  forall m, walks DOORDASH any_registry any_registry
                  (doordash_stores m stores).
Proof.
  induction stores as [|store stores IH]; intros m; simpl;
    [auto with adapter|].
  apply (walks_bind DOORDASH any_registry any_registry any_registry);
    [apply walks_doordash_store|auto|intros m'; apply IH].
Qed.

Lemma walks_doordash_order_location m order :
  walks DOORDASH any_registry any_registry
        (doordash_order_location m order).
Proof.
  unfold doordash_order_location.
  destruct (get_default _ _) as [store_id|]; [|auto with adapter].
  apply walks_location_lookup.
Qed.

Lemma walks_doordash_item idx item :
  walks DOORDASH (last_order_is idx) (last_order_is idx)
        (doordash_item idx item).
Proof.
  unfold doordash_item.
  destruct (get_default _ _) as [raw_name|]; [|auto with adapter].
  apply walks_bind_lift_eq; [auto|]. intros [clean adj] E.
  apply walks_bind_get_cache. intros cache.
  apply walks_bind_lift; [auto|]. intros total.
  apply walks_modify. intros r Hr. split; [|exact Hr].
  apply step_item; [exact Hr|].
  exact (adapter_item_ok _ _ _ _ _ _ _ E).
Qed.

Lemma walks_doordash_order m order :
  walks DOORDASH any_registry any_registry
        (doordash_order normalize_timestamp to_local m order).
Proof.
  unfold doordash_order.
  apply (walks_bind DOORDASH any_registry any_registry);
    [apply walks_doordash_order_location|auto|].
  intros location_name. apply walks_bind_get_registry. intros r0.
  destruct (sget location_name (locations r0)) as [location|] eqn:El.
  2:{ apply walks_raise. intros; exact I. }
  destruct (get_default _ _) as [fulfillment_method|].
  2:{ apply walks_raise. intros; exact I. }
  do 6 (apply walks_bind_lift; [intros; exact I|]; intros ?).
  apply (walks_bind DOORDASH _ (last_order_is (List.length r0.(orders))));
    [|intros; exact I|].
  - apply walks_modify. intros r [-> _].
    split; [|apply last_order_appended].
    apply step_order; [exact (sget_smem _ _ _ El)|].
    split; [reflexivity|].
    split; [now exists (do_external_delivery_id order)|].
    split; [apply day_of_week_range|].
    split; [apply map_doordash_order_type_range|].
    split; reflexivity.
  - intros _. eapply walks_weaken; [| |apply walks_for_each].
    + intros r H; exact H.
    + intros; exact I.
    + intros x. apply walks_doordash_item.
Qed.

Lemma walks_process_doordash file :
  walks DOORDASH any_registry any_registry
        (process_doordash iter_set normalize_timestamp to_local file).
Proof.
  apply walks_try. unfold process_doordash_body.
  apply walks_bind_lift; [auto|]. intros data.
  apply walks_bind_set_cache.
  apply (walks_bind DOORDASH any_registry any_registry);
    [apply walks_doordash_stores|auto|].
  intros m. apply walks_for_each. intros order. apply walks_doordash_order.
Qed.

Lemma appends_doordash_item idx item : appends [] (doordash_item idx item).
Proof.
  unfold doordash_item.
  destruct (get_default _ _) as [raw_name|]; [|auto with adapter].
  keeps_orders.
Qed.

Lemma appends_doordash_order m order :
  appends [(format_order_id DOORDASH order.(do_external_delivery_id),
            order.(do_external_delivery_id),
            map_doordash_status order.(do_order_status))]
          (doordash_order normalize_timestamp to_local m order).
Proof.
  unfold doordash_order. apply appends_bind_keeps.
  { unfold doordash_order_location.
    destruct (get_default _ _); [apply appends_location_lookup|].
    auto with adapter. }
  intros location_name.
  apply appends_bind_keeps; [auto with adapter|]. intros r0.
  destruct (sget location_name (locations r0)) as [location|];
    [|apply appends_raise_any].
  destruct (get_default _ _) as [fulfillment_method|];
    [|apply appends_raise_any].
  do 6 (apply appends_bind_keeps; [auto with adapter|intros ?]).
  apply appends_bind_then_keeps.
  - now apply appends_order.
  - intros _. apply appends_for_each_keeps. intros x.
    apply appends_doordash_item.
Qed.

Lemma appends_doordash_stores stores :
  forall m, appends [] (doordash_stores m stores).
Proof.
  induction stores as [|store stores IH]; intros m; simpl;
    [auto with adapter|].
  apply appends_bind_keeps; [|intros m'; apply IH].
  unfold doordash_store. keeps_orders.
Qed.

Lemma appends_process_doordash_body data :
  appends (doordash_order_rows data)
          (process_doordash_body iter_set normalize_timestamp to_local
                                 (Ok data)).
Proof.
  unfold process_doordash_body. apply appends_bind_ok.
  apply appends_bind_keeps; [auto with adapter|]. intros _.
  apply appends_bind_keeps; [apply appends_doordash_stores|]. intros m.
  unfold doordash_order_rows. rewrite <- flat_map_singleton.
  apply appends_for_each. intros order. apply appends_doordash_order.
Qed.

End DoorDashFacts.




(** X22.  From an export that could be read, [process_doordash] appends one
    order for every order of the export, in the order of the export: its
    identifier is the external delivery id with the prefix of DoorDash, its
    external identifier that id, its status what [map_doordash_status]
    makes of the status of the export.  When the body raises, the orders
    appended are the ones of a first part of the export. *)
Theorem process_doordash_order_rows
  (iter_set : list string -> list string)
  (normalize_timestamp : option string -> Z)
  (to_local : Z -> string -> LocalTime)
  (data : DoorDashData) (w : World) :
  exists added rest,
    (fst (process_doordash iter_set normalize_timestamp to_local
                           (Ok data) w)).(registry).(orders)
    = w.(registry).(orders) ++ added /\
    doordash_order_rows data = map order_row added ++ rest /\
    (forall u, snd (process_doordash_body iter_set normalize_timestamp
                      to_local (Ok data) w) = Ok u -> rest = []).
Proof.
  destruct (appends_process_doordash_body iter_set normalize_timestamp
              to_local data w) as (added & E & H).
  exists added.
  destruct (snd (process_doordash_body iter_set normalize_timestamp to_local
                   (Ok data) w)) as [u|e] eqn:Er.
  - exists []. rewrite app_nil_r. split; [exact E|]. split; [now symmetry|].
    reflexivity.
  - destruct H as [rest H]. exists rest. split; [exact E|].
    split; [exact H|]. discriminate.
Qed.

(* ------------------------------------------------------------------ *)
(** ** The Square adapter *)

Section SquareFacts.

Variable iter_set : list string -> list string.
Variable normalize_timestamp : option string -> Z.
Variable to_local : Z -> string -> LocalTime.
Variable int_of_float_str : string -> result Z.

Lemma walks_square_location m loc :
  walks SQUARE any_registry any_registry (square_location m loc).
Proof.
  unfold square_location.
  destruct (sl_id loc) as [i|], (sl_name loc) as [n|]; auto with adapter.
  destruct (truthy (Some i) && truthy (Some n)); [|auto with adapter].
  apply walks_bind_lift; [auto|]. intros [[[[line1 city'] state'] zip] co].
  apply walks_location_update. auto with adapter.
Qed.

Lemma walks_square_locations locs :
  forall m, walks SQUARE any_registry any_registry (square_locations m locs).
Proof.
  induction locs as [|loc locs IH]; intros m; simpl; [auto with adapter|].
  apply (walks_bind SQUARE any_registry any_registry any_registry);
    [apply walks_square_location|auto|intros m'; apply IH].
Qed.

Lemma walks_square_order_location m order :
  walks SQUARE any_registry any_registry (square_order_location m order).
Proof.
  unfold square_order_location.
  destruct (get_default _ _) as [location_sq_id|]; [|auto with adapter].
  apply walks_location_lookup.
Qed.

Lemma walks_square_line_item catalog_map category_map idx line_item :
  walks SQUARE (last_order_is idx) (last_order_is idx)
        (square_line_item int_of_float_str catalog_map category_map idx
                          line_item).
Proof.
  unfold square_line_item.
  match goal with
  | |- walks _ _ _ (match ?x with _ => _ end) =>
      destruct x as [raw_name category_id]
  end.
  apply walks_bind_get_cache. intros cache.
  apply walks_bind_lift; [auto|]. intros quantity.
  destruct raw_name as [raw_name|]; [|auto with adapter].
  apply walks_bind_lift_eq; [auto|]. intros [clean adj] E.
  apply walks_bind_lift; [auto|]. intros total.
  apply walks_modify. intros r Hr. split; [|exact Hr].
  apply step_item; [exact Hr|].
  exact (square_item_ok _ _ _ _ _ _ _ E).
Qed.

Lemma walks_square_order catalog_map category_map payments_map m order :
  walks SQUARE any_registry any_registry
        (square_order normalize_timestamp to_local int_of_float_str
                      catalog_map category_map payments_map m order).
Proof.
  unfold square_order.
  apply (walks_bind SQUARE any_registry any_registry);
    [apply walks_square_order_location|auto|].
  intros location_name. apply walks_bind_get_registry. intros r0.
  destruct (sget location_name (locations r0)) as [location|] eqn:El.
  2:{ apply walks_raise. intros; exact I. }
  apply walks_bind_lift_eq; [intros; exact I|]. intros order_type' Et.
  do 3 (apply walks_bind_lift; [intros; exact I|]; intros ?).
  apply (walks_bind SQUARE _ (last_order_is (List.length r0.(orders))));
    [|intros; exact I|].
  - apply walks_modify. intros r [-> _].
    split; [|apply last_order_appended].
    apply step_order; [exact (sget_smem _ _ _ El)|].
    split; [reflexivity|]. split; [now exists (sqo_id order)|].
    split; [apply day_of_week_range|].
    split; [exact (square_order_type_range _ _ Et)|].
    repeat split.
  - intros _. eapply walks_weaken; [| |apply walks_for_each].
    + intros r H; exact H.
    + intros; exact I.
    + intros x. apply walks_square_line_item.
Qed.

Lemma walks_process_square orders_file catalog_file locations_file
  payments_file :
  walks SQUARE any_registry any_registry
        (process_square iter_set normalize_timestamp to_local
                        int_of_float_str orders_file catalog_file
                        locations_file payments_file).
Proof.
  apply walks_try. unfold process_square_body.
  apply walks_bind_lift; [auto|]. intros objects.
  apply walks_bind_lift; [auto|]. intros square_categories.
  apply walks_bind_set_cache.
  apply walks_bind_lift; [auto|]. intros [category_map item_category_map].
  apply walks_bind_lift; [auto|]. intros catalog_map.
  apply walks_bind_lift; [auto|]. intros locations_data.
  apply (walks_bind SQUARE any_registry any_registry);
    [apply walks_square_locations|auto|].
  intros m.
  apply walks_bind_lift; [auto|]. intros payments_data.
  apply walks_bind_lift; [auto|]. intros payments_map.
  apply walks_bind_lift; [auto|]. intros orders_list_data.
  apply walks_for_each. intros order. apply walks_square_order.
Qed.

Lemma appends_square_line_item catalog_map category_map idx line_item :
  appends [] (square_line_item int_of_float_str catalog_map category_map idx
                               line_item).
Proof.
  unfold square_line_item.
  match goal with
  | |- appends _ (match ?x with _ => _ end) =>
      destruct x as [raw_name category_id]
  end.
  keeps_orders.
Qed.

Lemma appends_square_order catalog_map category_map payments_map m order :
  appends [(format_order_id SQUARE order.(sqo_id), order.(sqo_id),
            map_square_status (get_default order.(sqo_state) "COMPLETED"))]
          (square_order normalize_timestamp to_local int_of_float_str
                        catalog_map category_map payments_map m order).
Proof.
  unfold square_order. apply appends_bind_keeps.
  { unfold square_order_location.
    destruct (get_default _ _); [apply appends_location_lookup|].
    auto with adapter. }
  intros location_name.
  apply appends_bind_keeps; [auto with adapter|]. intros r0.
  destruct (sget location_name (locations r0)) as [location|];
    [|apply appends_raise_any].
  do 4 (apply appends_bind_keeps; [auto with adapter|intros ?]).
  apply appends_bind_then_keeps.
  - now apply appends_order.
  - intros _. apply appends_for_each_keeps. intros x.
    apply appends_square_line_item.
Qed.

Lemma appends_square_locations locs :
  forall m, appends [] (square_locations m locs).
Proof.
  induction locs as [|loc locs IH]; intros m; simpl; [auto with adapter|].
  apply appends_bind_keeps; [|intros m'; apply IH].
  unfold square_location. keeps_orders.
Qed.

Lemma appends_process_square_body orders_list_data catalog_file
  locations_file payments_file :
  appends (square_order_rows orders_list_data)
          (process_square_body iter_set normalize_timestamp to_local
                               int_of_float_str (Ok orders_list_data)
                               catalog_file locations_file payments_file).
Proof.
  unfold process_square_body.
  apply appends_bind_keeps; [auto with adapter|]. intros objects.
  apply appends_bind_keeps; [auto with adapter|]. intros square_categories.
  apply appends_bind_keeps; [auto with adapter|]. intros _.
  apply appends_bind_keeps; [auto with adapter|].
  intros [category_map item_category_map].
  apply appends_bind_keeps; [auto with adapter|]. intros catalog_map.
  apply appends_bind_keeps; [auto with adapter|]. intros locations_data.
  apply appends_bind_keeps; [apply appends_square_locations|]. intros m.
  apply appends_bind_keeps; [auto with adapter|]. intros payments_data.
  apply appends_bind_keeps; [auto with adapter|]. intros payments_map.
  apply appends_bind_ok.
  unfold square_order_rows. rewrite <- flat_map_singleton.
  apply appends_for_each. intros order. apply appends_square_order.
Qed.

End SquareFacts.




(** X25.  When the file of the orders could be read, [process_square]
    appends one order for every order of it, in the order of the file: its
    identifier is the Square id with the prefix of Square, its external
    identifier that id, its status what [map_square_status] makes of the
    state of the order (COMPLETED when the order has none).  When the body
    raises, be it on one of the other three files, the orders appended are
    the ones of a first part of the file. *)
Theorem process_square_order_rows
  (iter_set : list string -> list string)
  (normalize_timestamp : option string -> Z)
  (to_local : Z -> string -> LocalTime)
  (int_of_float_str : string -> result Z)
  (orders_list_data : list SquareOrder)
  (catalog_file : result (list SquareObject))
  (locations_file : result (list SquareLocation))
  (payments_file : result (list SquarePayment)) (w : World) :
  exists added rest,
    (fst (process_square iter_set normalize_timestamp to_local
            int_of_float_str (Ok orders_list_data) catalog_file
            locations_file payments_file w)).(registry).(orders)
    = w.(registry).(orders) ++ added /\
    square_order_rows orders_list_data = map order_row added ++ rest /\
    (forall u, snd (process_square_body iter_set normalize_timestamp
                      to_local int_of_float_str (Ok orders_list_data)
                      catalog_file locations_file payments_file w) = Ok u ->
               rest = []).
Proof.
  destruct (appends_process_square_body iter_set normalize_timestamp
              to_local int_of_float_str orders_list_data catalog_file
              locations_file payments_file w) as (added & E & H).
  exists added.
  destruct (snd (process_square_body iter_set normalize_timestamp to_local
                   int_of_float_str (Ok orders_list_data) catalog_file
                   locations_file payments_file w)) as [u|e] eqn:Er.
  - exists []. rewrite app_nil_r. split; [exact E|]. split; [now symmetry|].
    reflexivity.
  - destruct H as [rest H]. exists rest. split; [exact E|].
    split; [exact H|]. discriminate.
Qed.

(* ------------------------------------------------------------------ *)
(** ** The whole run *)

Lemma registry_ok_items (r r' : ModelRegistry) f :
  same_line f ->
  r'.(locations) = r.(locations) ->
  r'.(location_metadata) = r.(location_metadata) ->
  r'.(orders) = r.(orders) ->
  r'.(order_items) = map f r.(order_items) ->
  registry_ok r -> registry_ok r'.
Proof.
  intros Hf El Em Eo Ei (Hs & Hk & [Ho Hi] & Hw & Hu).
  unfold registry_ok, metadata_in_sync, keyed_by_name, refs_ok.
  rewrite El, Em, Eo, Ei.
  split; [exact Hs|]. split; [exact Hk|]. split; [split|split].
  - exact Ho.
  - apply Forall_map. eapply Forall_impl; [|exact Hi].
    intros i H. destruct (Hf i) as (-> & _). exact H.
  - exact Hw.
  - apply Forall_map. eapply Forall_impl; [|exact Hu].
    intros i H. unfold unit_price_ok in *.
    destruct (Hf i) as (_ & -> & -> & ->). exact H.
Qed.

Lemma apply_canonical_map_same_line cm : same_line (apply_canonical_map cm).
Proof.
  intros i. unfold apply_canonical_map.
  destruct (Dict.get key_eqb (item_key i) cm) as [n|]; [|repeat split].
  destruct (negb _); repeat split.
Qed.

Lemma resolve_conflict_same_line : same_line resolve_conflict.
Proof.
  intros i. unfold resolve_conflict. destruct (_ && _); repeat split.
Qed.

Lemma link_product_same_line : same_line link_product.
Proof. intros i. repeat split. Qed.

Lemma create_products_shape (r : ModelRegistry) :
  let r' := _create_products_from_order_items r in
  r'.(order_items) = map link_product r.(order_items) /\
  r'.(locations) = r.(locations) /\
  r'.(location_metadata) = r.(location_metadata) /\
  r'.(orders) = r.(orders) /\
  products_linked r'.
Proof.
  cbv zeta. unfold _create_products_from_order_items, products_linked.
  destruct (bind_product_fold (order_items (set_products r []))
              (set_products r []) [])
    as (H1 & H2 & H3 & H4 & H5 & H6 & H7).
  destruct (fold_left bind_product _ _) as [r1 items]. simpl in *.
  split; [exact H1|]. split; [exact H2|]. split; [exact H5|].
  split; [exact H3|].
  rewrite H1. apply Forall_map. apply Forall_forall. intros i Hi.
  split; [reflexivity|]. apply H7. right.
  split; [reflexivity|]. split; [reflexivity|]. now exists i.
Qed.

(** What the three passes after the adapters do to a registry. *)
Lemma clean_up_shape sort_values token_sort_ratio (r : ModelRegistry) :
  let r' :=
    _create_products_from_order_items
      (resolve_category_conflicts
         (perform_entity_resolution_on_models sort_values token_sort_ratio
                                              r)) in
  (registry_ok r -> registry_ok r') /\
  products_linked r' /\
  r'.(orders) = r.(orders) /\
  r'.(locations) = r.(locations).
Proof.
  cbv zeta.
  set (r1 := perform_entity_resolution_on_models sort_values
               token_sort_ratio r).
  set (r2 := resolve_category_conflicts r1).
  destruct (create_products_shape r2) as (Hi & Hl & Hm & Ho & Hp).
  split; [|split; [exact Hp|split; [exact Ho|exact Hl]]].
  intros Hok.
  apply (registry_ok_items r2 _ link_product link_product_same_line);
    auto.
  apply (registry_ok_items r1 _ resolve_conflict resolve_conflict_same_line);
    try reflexivity.
  eapply (registry_ok_items r _ _ (apply_canonical_map_same_line _));
    try reflexivity; [|exact Hok].
  apply resolve_items_map.
Qed.

(** X26.  Whatever the six exports hold, and whichever adapters fail, the
    registry that [process_and_clean_data] returns is well formed (see
    [registry_ok]: no order without its location, no item without its
    order, metadata in line with the locations, unit prices in line with
    the prices of the lines), and every item of it is linked to the product
    of its canonical name and category, which the registry holds. *)
Theorem process_and_clean_data_well_formed
  (iter_set : list string -> list string)
  (normalize_timestamp : option string -> Z)
  (to_local : Z -> string -> LocalTime)
  (parse_business_date : string -> result Z)
  (int_of_float_str : string -> result Z)
  (sort_values : list row -> list row)
  (token_sort_ratio : string -> string -> Z)
  (toast_file : result ToastData)
  (doordash_file : result DoorDashData)
  (orders_file : result (list SquareOrder))
  (catalog_file : result (list SquareObject))
  (locations_file : result (list SquareLocation))
  (payments_file : result (list SquarePayment))
  (initial_cache : option (Dict.t string string)) :
  let registry :=
    process_and_clean_data_from_files iter_set normalize_timestamp to_local
      parse_business_date int_of_float_str sort_values token_sort_ratio
      toast_file doordash_file orders_file catalog_file locations_file
      payments_file initial_cache in
  registry_ok registry /\ products_linked registry.
Proof.
  cbv zeta.
  unfold process_and_clean_data_from_files, process_and_clean_data.
  set (w0 := mkWorld new_registry initial_cache).
  set (w1 := fst (process_toast _ _ _ _ toast_file w0)).
  set (w2 := fst (process_doordash _ _ _ doordash_file w1)).
  set (w3 := fst (process_square _ _ _ _ orders_file catalog_file
                                 locations_file payments_file w2)).
  destruct (clean_up_shape sort_values token_sort_ratio w3.(registry))
    as (Hok & Hp & _).
  split; [|exact Hp]. apply Hok.
  destruct (walks_process_square iter_set normalize_timestamp to_local
              int_of_float_str orders_file catalog_file locations_file
              payments_file w2 I) as [H3 _].
  apply (registry_steps_ok SQUARE _ _ H3).
  destruct (walks_process_doordash iter_set normalize_timestamp to_local
              doordash_file w1 I) as [H2 _].
  apply (registry_steps_ok DOORDASH _ _ H2).
  destruct (walks_process_toast iter_set normalize_timestamp to_local
              parse_business_date toast_file w0 I) as [H1 _].
  apply (registry_steps_ok TOAST _ _ H1).
  exact new_registry_ok.
Qed.

(** What [appends] says of one run. *)
Lemma appends_run {A} X (m : M A) (w : World) :
  appends X m ->
  exists added rest,
    (fst (m w)).(registry).(orders) = w.(registry).(orders) ++ added /\
    X = map order_row added ++ rest /\
    (forall u, snd (m w) = Ok u -> rest = []).
Proof.
  intros H. destruct (H w) as (added & E & Hr). exists added.
  destruct (snd (m w)) as [u|e].
  - exists []. rewrite app_nil_r. split; [exact E|]. split; [now symmetry|].
    reflexivity.
  - destruct Hr as [rest Hr]. exists rest. split; [exact E|].
    split; [exact Hr|]. discriminate.
Qed.

(** The orders of a run, source by source. *)
Lemma run_orders
  (iter_set : list string -> list string)
  (normalize_timestamp : option string -> Z)
  (to_local : Z -> string -> LocalTime)
  (parse_business_date : string -> result Z)
  (int_of_float_str : string -> result Z)
  (sort_values : list row -> list row)
  (token_sort_ratio : string -> string -> Z)
  (toast_data : ToastData)
  (doordash_data : DoorDashData)
  (orders_list_data : list SquareOrder)
  (catalog_file : result (list SquareObject))
  (locations_file : result (list SquareLocation))
  (payments_file : result (list SquarePayment))
  (initial_cache : option (Dict.t string string)) :
  let w0 := mkWorld new_registry initial_cache in
  let w1 := fst (process_toast iter_set normalize_timestamp to_local
                   parse_business_date (Ok toast_data) w0) in
  let w2 := fst (process_doordash iter_set normalize_timestamp to_local
                   (Ok doordash_data) w1) in
  let final :=
    process_and_clean_data_from_files iter_set normalize_timestamp to_local
      parse_business_date int_of_float_str sort_values token_sort_ratio
      (Ok toast_data) (Ok doordash_data) (Ok orders_list_data) catalog_file
      locations_file payments_file initial_cache in
  exists a1 a2 a3 rest_t rest_d rest_s,
    final.(orders) = a1 ++ a2 ++ a3 /\
    toast_order_rows toast_data = map order_row a1 ++ rest_t /\
    doordash_order_rows doordash_data = map order_row a2 ++ rest_d /\
    square_order_rows orders_list_data = map order_row a3 ++ rest_s /\
    (forall u, snd (process_toast_body iter_set normalize_timestamp to_local
                      parse_business_date (Ok toast_data) w0) = Ok u ->
               rest_t = []) /\
    (forall u, snd (process_doordash_body iter_set normalize_timestamp
                      to_local (Ok doordash_data) w1) = Ok u ->
               rest_d = []) /\
    (forall u, snd (process_square_body iter_set normalize_timestamp
                      to_local int_of_float_str (Ok orders_list_data)
                      catalog_file locations_file payments_file w2) = Ok u ->
               rest_s = []).
Proof.
  intros w0 w1 w2 final.
  destruct (appends_run _ _ w0
              (appends_process_toast_body iter_set normalize_timestamp
                 to_local parse_business_date toast_data))
    as (a1 & rest_t & E1 & R1 & F1).
  destruct (appends_run _ _ w1
              (appends_process_doordash_body iter_set normalize_timestamp
                 to_local doordash_data))
    as (a2 & rest_d & E2 & R2 & F2).
  destruct (appends_run _ _ w2
              (appends_process_square_body iter_set normalize_timestamp
                 to_local int_of_float_str orders_list_data catalog_file
                 locations_file payments_file))
    as (a3 & rest_s & E3 & R3 & F3).
  exists a1, a2, a3, rest_t, rest_d, rest_s.
  split; [|auto 10].
  subst final.
  unfold process_and_clean_data_from_files, process_and_clean_data.
  match goal with
  | |- context [_create_products_from_order_items
                  (resolve_category_conflicts
                     (perform_entity_resolution_on_models _ _ ?r))] =>
      destruct (clean_up_shape sort_values token_sort_ratio r)
        as (_ & _ & Eo & _)
  end.
  rewrite Eo.
  change ((fst (process_square_body iter_set
            normalize_timestamp to_local int_of_float_str
            (Ok orders_list_data) catalog_file locations_file payments_file
            w2)).(registry).(orders)
          = a1 ++ a2 ++ a3).
  rewrite E3.
  change (orders (registry w2))
    with (fst (process_doordash_body iter_set normalize_timestamp to_local
                 (Ok doordash_data) w1)).(registry).(orders).
  rewrite E2.
  change (orders (registry w1))
    with (fst (process_toast_body iter_set normalize_timestamp to_local
                 parse_business_date (Ok toast_data)
                 w0)).(registry).(orders).
  rewrite E1. simpl. now rewrite <- app_assoc.
Qed.

(** X27.  When the export of Toast, the export of DoorDash and the orders
    of Square could be read, the orders of the registry that
    [process_and_clean_data] returns are, in this order, the orders of the
    checks of Toast, the orders of DoorDash and the orders of Square, each
    in the order of its export and with the identifier, the external
    identifier and the status that its adapter gives it; of a source whose
    adapter raised, only a first part is there, and the sources after it
    are still processed.  Entity resolution, the resolution of category
    conflicts and the creation of the products add, drop and reorder no
    order. *)
Theorem process_and_clean_data_order_rows
  (iter_set : list string -> list string)
  (normalize_timestamp : option string -> Z)
  (to_local : Z -> string -> LocalTime)
  (parse_business_date : string -> result Z)
  (int_of_float_str : string -> result Z)
  (sort_values : list row -> list row)
  (token_sort_ratio : string -> string -> Z)
  (toast_data : ToastData)
  (doordash_data : DoorDashData)
  (orders_list_data : list SquareOrder)
  (catalog_file : result (list SquareObject))
  (locations_file : result (list SquareLocation))
  (payments_file : result (list SquarePayment))
  (initial_cache : option (Dict.t string string)) :
  let w0 := mkWorld new_registry initial_cache in
  let w1 := fst (process_toast iter_set normalize_timestamp to_local
                   parse_business_date (Ok toast_data) w0) in
  let w2 := fst (process_doordash iter_set normalize_timestamp to_local
                   (Ok doordash_data) w1) in
  let final :=
    process_and_clean_data_from_files iter_set normalize_timestamp to_local
      parse_business_date int_of_float_str sort_values token_sort_ratio
      (Ok toast_data) (Ok doordash_data) (Ok orders_list_data) catalog_file
      locations_file payments_file initial_cache in
  exists t d s rest_t rest_d rest_s,
    map order_row final.(orders) = t ++ d ++ s /\
    toast_order_rows toast_data = t ++ rest_t /\
    doordash_order_rows doordash_data = d ++ rest_d /\
    square_order_rows orders_list_data = s ++ rest_s /\
    (forall u, snd (process_toast_body iter_set normalize_timestamp to_local
                      parse_business_date (Ok toast_data) w0) = Ok u ->
               rest_t = []) /\
    (forall u, snd (process_doordash_body iter_set normalize_timestamp
                      to_local (Ok doordash_data) w1) = Ok u ->
               rest_d = []) /\
    (forall u, snd (process_square_body iter_set normalize_timestamp
                      to_local int_of_float_str (Ok orders_list_data)
                      catalog_file locations_file payments_file w2) = Ok u ->
               rest_s = []).
Proof.
  intros w0 w1 w2 final.
  destruct (run_orders iter_set normalize_timestamp to_local
              parse_business_date int_of_float_str sort_values
              token_sort_ratio toast_data doordash_data orders_list_data
              catalog_file locations_file payments_file initial_cache)
    as (a1 & a2 & a3 & rest_t & rest_d & rest_s & E & R1 & R2 & R3 & F).
  exists (map order_row a1), (map order_row a2), (map order_row a3),
         rest_t, rest_d, rest_s.
  split; [|auto 10].
  fold final in E. now rewrite E, !map_app.
Qed.

Lemma NoDup_map_inj {A B} (f : A -> B) (l : list A) :
  (forall x y, f x = f y -> x = y) -> NoDup l -> NoDup (map f l).
Proof.
  intros Hf H. induction H as [|x l Hx _ IH]; simpl; constructor; auto.
  intros Hin. apply in_map_iff in Hin. destruct Hin as (y & E & Hy).
  apply Hf in E. now subst y.
Qed.

Lemma format_order_id_same_source src a b :
  format_order_id src a = format_order_id src b -> a = b.
Proof. destruct src; simpl; intros H; now injection H. Qed.

Lemma format_order_id_sources_differ s1 s2 a b :
  s1 <> s2 -> format_order_id s1 a <> format_order_id s2 b.
Proof.
  intros Hne H. destruct s1, s2; simpl in H;
    first [discriminate H|now apply Hne].
Qed.

(** The identifiers of the orders that make a first part of the rows of a
    source. *)
Lemma ids_of_first_part src (ids : list string) rows added rest :
  map (fun r : string * string * string => fst (fst r)) rows
  = map (format_order_id src) ids ->
  rows = map order_row added ++ rest ->
  NoDup ids ->
  NoDup (map order_id added) /\
  forall x, In x (map order_id added) ->
            exists g, x = format_order_id src g.
Proof.
  intros Eids Erows Hnd.
  assert (E : map (format_order_id src) ids
              = map order_id added
                ++ map (fun r : string * string * string => fst (fst r))
                       rest).
  { rewrite <- Eids, Erows, map_app, map_map. reflexivity. }
  assert (H : NoDup (map (format_order_id src) ids)).
  { apply NoDup_map_inj; [apply format_order_id_same_source|exact Hnd]. }
  split.
  - rewrite E in H. exact (NoDup_app_remove_r _ _ H).
  - intros x Hx.
    assert (Hin : In x (map (format_order_id src) ids)).
    { rewrite E. apply in_or_app. now left. }
    apply in_map_iff in Hin. destruct Hin as (g & <- & _). now exists g.
Qed.

Lemma toast_order_row_ids data :
  map (fun r : string * string * string => fst (fst r))
      (toast_order_rows data)
  = map (format_order_id TOAST) (toast_check_guids data).
Proof.
  unfold toast_order_rows, toast_check_guids.
  induction (td_orders data) as [|o os IH]; simpl; [reflexivity|].
  now rewrite !map_app, IH, !map_map.
Qed.

Lemma doordash_order_row_ids data :
  map (fun r : string * string * string => fst (fst r))
      (doordash_order_rows data)
  = map (format_order_id DOORDASH)
        (map do_external_delivery_id data.(dd_orders)).
Proof. unfold doordash_order_rows. now rewrite !map_map. Qed.

Lemma square_order_row_ids orders_list_data :
  map (fun r : string * string * string => fst (fst r))
      (square_order_rows orders_list_data)
  = map (format_order_id SQUARE) (map sqo_id orders_list_data).
Proof. unfold square_order_rows. now rewrite !map_map. Qed.

(** X28.  When no two checks of the Toast export share a GUID, no two
    orders of the DoorDash export an external delivery id and no two orders
    of the Square file an id, no two orders of the registry that
    [process_and_clean_data] returns share an [order_id]: within a source
    the identifiers differ as the identifiers of the export do, and the
    prefixes keep the sources apart, whichever adapters fail. *)
Theorem process_and_clean_data_order_ids_unique
  (iter_set : list string -> list string)
  (normalize_timestamp : option string -> Z)
  (to_local : Z -> string -> LocalTime)
  (parse_business_date : string -> result Z)
  (int_of_float_str : string -> result Z)
  (sort_values : list row -> list row)
  (token_sort_ratio : string -> string -> Z)
  (toast_data : ToastData)
  (doordash_data : DoorDashData)
  (orders_list_data : list SquareOrder)
  (catalog_file : result (list SquareObject))
  (locations_file : result (list SquareLocation))
  (payments_file : result (list SquarePayment))
  (initial_cache : option (Dict.t string string)) :
  NoDup (toast_check_guids toast_data) ->
  NoDup (map do_external_delivery_id doordash_data.(dd_orders)) ->
  NoDup (map sqo_id orders_list_data) ->
  NoDup (map order_id
           (process_and_clean_data_from_files iter_set normalize_timestamp
              to_local parse_business_date int_of_float_str sort_values
              token_sort_ratio (Ok toast_data) (Ok doordash_data)
              (Ok orders_list_data) catalog_file locations_file
              payments_file initial_cache).(orders)).
Proof.
  intros Ht Hd Hs.
  destruct (run_orders iter_set normalize_timestamp to_local
              parse_business_date int_of_float_str sort_values
              token_sort_ratio toast_data doordash_data orders_list_data
              catalog_file locations_file payments_file initial_cache)
    as (a1 & a2 & a3 & rest_t & rest_d & rest_s & E & R1 & R2 & R3 & _).
  rewrite E, !map_app.
  destruct (ids_of_first_part TOAST _ _ _ _ (toast_order_row_ids toast_data)
              R1 Ht) as [N1 I1].
  destruct (ids_of_first_part DOORDASH _ _ _ _
              (doordash_order_row_ids doordash_data) R2 Hd) as [N2 I2].
  destruct (ids_of_first_part SQUARE _ _ _ _
              (square_order_row_ids orders_list_data) R3 Hs) as [N3 I3].
  apply NoDup_app; [exact N1|apply NoDup_app; [exact N2|exact N3|]|].
  - intros x Hx2 Hx3.
    destruct (I2 x Hx2) as [g2 ->]. destruct (I3 _ Hx3) as [g3 H].
    now apply (format_order_id_sources_differ DOORDASH SQUARE g2 g3).
  - intros x Hx1 Hx. destruct (I1 x Hx1) as [g1 ->].
    apply in_app_or in Hx. destruct Hx as [Hx|Hx].
    + destruct (I2 _ Hx) as [g2 H].
      now apply (format_order_id_sources_differ TOAST DOORDASH g1 g2).
    + destruct (I3 _ Hx) as [g3 H].
      now apply (format_order_id_sources_differ TOAST SQUARE g1 g3).
Qed.

Lemma process_and_clean_data_order_ids_unique_witness :
  NoDup (map order_id
           (process_and_clean_data_from_files (fun l => l) at_epoch
              local_at_epoch date_at_epoch small_quantity (fun l => l)
              (fun _ _ => 0%Z) (Ok second_order_fails)
              (Ok a_doordash_export) (Ok two_square_orders)
              (Ok a_square_catalog) (Ok a_square_location)
              (Ok a_square_payment) None).(orders)).
Proof.
  apply process_and_clean_data_order_ids_unique;
    vm_compute; repeat constructor; simpl; intuition discriminate.
Defined.

(* ------------------------------------------------------------------ *)
(** ** The order type of a Square order *)

(** X29.  The order type that [process_square] derives from the first
    fulfillment of an order is the one of [map_square_order_type], which
    the adapter imports and does not call, except for a pickup: for the
    type PICKUP the adapter gives TAKE_OUT where the function gives PICKUP,
    and for PICKUP in another case the adapter gives DINE_IN. *)
Theorem square_order_type_vs_mapper (fulfillment : SquareFulfillment)
  (others : list SquareFulfillment) (fulfillment_type : string) :
  get_default fulfillment.(sf_type) EmptyString = Some fulfillment_type ->
  square_order_type (fulfillment :: others)
  = Ok (if String.eqb (upper fulfillment_type) "PICKUP"
        then if String.eqb fulfillment_type "PICKUP" then "TAKE_OUT"
             else "DINE_IN"
        else map_square_order_type fulfillment_type).
Proof.
  intros H. unfold square_order_type, map_square_order_type. rewrite H.
  destruct (String.eqb_spec fulfillment_type "PICKUP") as [->|Hp];
    [reflexivity|].
  destruct (String.eqb_spec (upper fulfillment_type) "PICKUP") as [Eu|Hu].
  - rewrite Eu.
    destruct (String.eqb_spec fulfillment_type "DELIVERY") as [->|_];
      [discriminate Eu|].
    destruct (String.eqb_spec fulfillment_type "DINE_IN") as [->|_];
      [discriminate Eu|].
    reflexivity.
  - destruct (String.eqb_spec fulfillment_type "DELIVERY") as [->|_];
      [reflexivity|].
    cbn [orb].
    destruct (PyStr.contains "DELIVERY" (upper fulfillment_type));
      [reflexivity|].
    now destruct (String.eqb fulfillment_type "DINE_IN"
                  || PyStr.contains "DINE" (upper fulfillment_type)),
                 (PyStr.contains "DINE" (upper fulfillment_type)
                  || String.eqb (upper fulfillment_type) "DINE_IN").
Qed.

Lemma square_order_type_vs_mapper_witness :
  square_order_type [mkSquareFulfillment (Val "pickup")] = Ok "DINE_IN" /\
  map_square_order_type "pickup" = "PICKUP".
Proof.
  split; [|reflexivity].
  exact (square_order_type_vs_mapper (mkSquareFulfillment (Val "pickup")) []
           "pickup" eq_refl).
Defined.

(* ------------------------------------------------------------------ *)
(** ** The column type of the categories *)

Lemma upper_char_of_small_letter c :
  is_small_letter (PyStr.lower_char c) = true ->
  upper_char c = String (capital (PyStr.lower_char c)) EmptyString.
Proof.
  destruct c as [[] [] [] [] [] [] [] []]; vm_compute;
    intros H; first [reflexivity|discriminate H].
Qed.

Lemma upper_of_small_letters s :
  PyStr.all_chars is_small_letter (PyStr.lower s) = true ->
  upper s = PyStr.map_str capital (PyStr.lower s).
Proof.
  induction s as [|c s IH]; [reflexivity|].
  unfold PyStr.lower. cbn [PyStr.map_str PyStr.all_chars upper].
  intros H. apply andb_true_iff in H. destruct H as [Hc Hs].
  rewrite (upper_char_of_small_letter c Hc). cbn [String.append].
  f_equal. now apply IH.
Qed.

Lemma ProductCategory_of_name_value c :
  ProductCategory_of_name (category_name c) = Some c /\
  ProductCategory_of_value (category_value c) = Some c /\
  PyStr.all_chars is_small_letter (category_value c) = true /\
  PyStr.map_str capital (category_value c) = category_name c.
Proof. destruct c; repeat split. Qed.

Lemma ProductCategory_of_value_lower s c :
  ProductCategory_of_value (PyStr.lower s) = Some c ->
  ProductCategory_of_name (upper s) = Some c.
Proof.
  intros H. apply ProductCategory_of_value_sound in H.
  destruct (ProductCategory_of_name_value c) as (Hn & _ & Hl & Hc).
  rewrite upper_of_small_letters by (now rewrite <- H).
  now rewrite <- H, Hc.
Qed.

(** X30.  What is written to a column of categories reads back as a
    category: a member of [ProductCategory] as itself; a string as the
    member whose name is the string in capitals, so that the name and the
    value of a member read back as the member whatever the case of their
    letters; any other string of the code points 0..255 as UNKNOWN.  (The
    last part stops at these code points: with the Kelvin sign U+212A for
    its "k", "breakfast" is no name in capitals, yet its lowercased form is
    the value of BREAKFAST.) *)
Theorem category_column_round_trip (value : category_param) :
  process_result_value (process_bind_param value)
  = match value with
    | ParamNone => None
    | ParamMember c => Some c
    | ParamStr s =>
        Some match ProductCategory_of_name (upper s) with
             | Some c => c
             | None => UNKNOWN
             end
    end.
Proof.
  destruct value as [|c|s]; simpl.
  - reflexivity.
  - destruct (ProductCategory_of_name_value c) as (_ & -> & _).
    reflexivity.
  - destruct (ProductCategory_of_name (upper s)) as [c|] eqn:E; simpl.
    + destruct (ProductCategory_of_name_value c) as (_ & -> & _).
      reflexivity.
    + destruct (ProductCategory_of_value (PyStr.lower s)) as [c|] eqn:El;
        [|reflexivity].
      apply ProductCategory_of_value_lower in El. congruence.
Qed.
